(** * Shape inference engine of torch_glow (ShapeInferenceEngine.cpp)

    A shallow embedding of [glow::ShapeInferenceEngine]: the per-operator
    shape rules, the per-node dispatch [shapeOnNode] and the driver [run],
    followed by the properties of the engine that its specification states.

    Conventions of the embedding.
    - [int64_t] values are integers of [Z]; every arithmetic operation of
      the source is followed by its two's complement wrap-around [wrap64].
      [size_t] values are integers reduced modulo 2^64 ([to_size_t]).
    - [std::vector<T>] is [list T]; [v[i]] is [vec_at v i], which leaves the
      defined behaviour of the program when [i] is not an index of [v].
    - A function returning [Expected<T>] or [Error] returns [Expected T]:
      [Value] for a result, [MakeErr] for an error made by [MAKE_ERR] or
      [RETURN_ERR_IF_NOT] (format string and arguments of [strFormat]), and
      [Crash] when the call does not return at all: a failed [CHECK] or an
      operation without defined behaviour.
    - [shapeMap_] is a finite map from graph values to [VariableMeta]. *)

From stdpp Require Import gmap strings list fin_maps.
From Stdlib Require Import ZArith Lia.

Open Scope Z_scope.

(** ** Results, errors and undefined operations *)

(** The ways in which a call does not return. *)
Inductive Fault : Type :=
  | CheckFailed      (* CHECK(...) does not hold: the process aborts *)
  | OutOfRange       (* operator[] of a vector outside its elements *)
  | DivideByZero     (* x / 0 or x % 0 *)
  | DivideOverflow.  (* INT64_MIN / -1 or INT64_MIN % -1 *)

(** Modelled from the spec: [Expected<T>] and [Error] of
    glow/Support/Error.h, which is not among the source files; every rule
    returns a result or a failure, and a failure is passed on unchanged. *)
Inductive Expected (A : Type) : Type :=
  | Value (a : A)
  | MakeErr (msg : string) (args : list Z)
  | Crash (f : Fault).

Arguments Value {A} a.
Arguments MakeErr {A} msg args.
Arguments Crash {A} f.

#[global] Instance Expected_ret : MRet Expected := fun A a => Value a.

#[global] Instance Expected_bind : MBind Expected := fun A B k e =>
  match e with
  | Value a => k a
  | MakeErr msg args => MakeErr msg args
  | Crash f => Crash f
  end.

(** Modelled from the spec: the macro [RETURN_ERR_IF_NOT(cond, msg)] of
    glow/Support/Error.h returns the failure [msg] unless [cond] holds. *)
Definition RETURN_ERR_IF_NOT (cond : bool) (msg : string) (args : list Z)
  : Expected unit :=
  if cond then Value tt else MakeErr msg args.

(** [c1 || e2] where evaluating [e2] may leave defined behaviour. *)
Definition orelse (c1 : bool) (e2 : Expected bool) : Expected bool :=
  if c1 then Value true else e2.


Definition is_err {A} (e : Expected A) : bool :=
  match e with MakeErr _ _ => true | _ => false end.

(** ** Machine integers *)

Definition int64_min : Z := - 2 ^ 63.
Definition int64_max : Z := 2 ^ 63 - 1.
Definition int_max : Z := 2 ^ 31 - 1.

Definition int64 (z : Z) : Prop := int64_min <= z <= int64_max.

Definition wrap64 (z : Z) : Z := (z + 2 ^ 63) mod 2 ^ 64 - 2 ^ 63.
Definition to_size_t (z : Z) : Z := z mod 2 ^ 64.

Definition add64 (a b : Z) : Z := wrap64 (a + b).
Definition sub64 (a b : Z) : Z := wrap64 (a - b).
Definition mul64 (a b : Z) : Z := wrap64 (a * b).
Definition neg64 (a : Z) : Z := wrap64 (- a).

(** [a / b] and [a % b] on [int64_t]: truncation towards zero. *)
Definition div64 (a b : Z) : Expected Z :=
  if b =? 0 then Crash DivideByZero
  else if (a =? int64_min) && (b =? -1) then Crash DivideOverflow
  else Value (Z.quot a b).

Definition rem64 (a b : Z) : Expected Z :=
  if b =? 0 then Crash DivideByZero
  else if (a =? int64_min) && (b =? -1) then Crash DivideOverflow
  else Value (Z.rem a b).

(** ** Vectors *)

Definition size {A} (v : list A) : Z := Z.of_nat (length v).

(** [v[i]] as an rvalue, [i] already converted to [size_t]. *)
Definition vec_at {A} (v : list A) (i : Z) : Expected A :=
  if (0 <=? i) && (i <? size v) then
    match v !! Z.to_nat i with
    | Some x => Value x
    | None => Crash OutOfRange
    end
  else Crash OutOfRange.

(** [v[i] = x] *)
Definition vec_set {A} (v : list A) (i : Z) (x : A) : Expected (list A) :=
  if (0 <=? i) && (i <? size v) then Value (<[Z.to_nat i := x]> v)
  else Crash OutOfRange.

(** [v.insert(v.begin() + i, x)] *)
Definition vec_insert {A} (v : list A) (i : Z) (x : A) : Expected (list A) :=
  if (0 <=? i) && (i <=? size v) then
    Value (take (Z.to_nat i) v ++ x :: drop (Z.to_nat i) v)
  else Crash OutOfRange.

(** ** Data model *)

(** Modelled from the spec: [VariableMeta] and [MetaStack] are declared in
    ShapeInferenceEngine.h, which is not among the source files; a
    [VariableMeta] holds the shape of a graph value and its integer
    values. *)
Record VariableMeta : Type := mkMeta {
  shape : list Z;
  intValue : list Z
}.

Definition MetaStack : Type := list VariableMeta.

(** A default-constructed [VariableMeta]. *)
Definition emptyMeta : VariableMeta := mkMeta [] [].

(** ** Operator rules *)

(** [binaryOp], lines 271-310.  The loop [for (auto i = 0; i < dim; i++)]
    runs [n] more times from index [i]; [j] is the [int] [-1 - i] and every
    subscript [d + j] is computed in [size_t]. *)
Fixpoint binaryOp_loop (n : nat) (i : Z) (t0 t1 shape : list Z)
  : Expected (list Z) :=
  match n with
  | O => Value shape
  | S n' =>
    let d0 := size t0 in
    let d1 := size t1 in
    let dim := Z.max d0 d1 in
    let j := -1 - i in
    c0 ← orelse (d0 <=? i)
           (x ← vec_at t0 (to_size_t (d0 + j)); Value (x =? 1));
    if c0 : bool then
      x ← vec_at t1 (to_size_t (d1 + j));
      shape' ← vec_set shape (to_size_t (dim + j)) x;
      binaryOp_loop n' (i + 1) t0 t1 shape'
    else
      c1 ← orelse (d1 <=? i)
             (x ← vec_at t1 (to_size_t (d1 + j)); Value (x =? 1));
      if c1 : bool then
        x ← vec_at t0 (to_size_t (d0 + j));
        shape' ← vec_set shape (to_size_t (dim + j)) x;
        binaryOp_loop n' (i + 1) t0 t1 shape'
      else
        a ← vec_at t1 (to_size_t (d1 + j));
        b ← vec_at t0 (to_size_t (d0 + j));
        if negb (a =? b) then
          MakeErr "The size of tensor a (%zu) must match the size of tensor b (%zu)at non-singleton dimension 1." [b; a]
        else
          shape' ← vec_set shape (to_size_t (dim + j)) a;
          binaryOp_loop n' (i + 1) t0 t1 shape'
  end.

Definition binaryOp (variableMetas : MetaStack) : Expected (list Z) :=
  if negb (size variableMetas =? 2) && negb (size variableMetas =? 3) then
    MakeErr "Expected two or three inputs shapes of this operation." []
  else
    m0 ← vec_at variableMetas 0;
    m1 ← vec_at variableMetas 1;
    let t0 := shape m0 in
    let t1 := shape m1 in
    let d0 := size t0 in
    let d1 := size t1 in
    if d1 =? 1 then Value t0
    else
      let dim := Z.max d0 d1 in
      binaryOp_loop (Z.to_nat dim) 0 t0 t1 (replicate (Z.to_nat dim) 0).

(** [mm], lines 316-338. *)
Definition mm (variableMetas : MetaStack) : Expected (list Z) :=
  _ ← RETURN_ERR_IF_NOT (size variableMetas =? 2)
        "Expected two inputs shapes of this operation." [];
  m0 ← vec_at variableMetas 0;
  m1 ← vec_at variableMetas 1;
  let t0 := shape m0 in
  let t1 := shape m1 in
  if negb ((size t1 =? 2) && (size t0 =? 2)) then
    MakeErr "Expected 2-dimensional tensor." []
  else
    a1 ← vec_at t0 1;
    b0 ← vec_at t1 0;
    if negb (a1 =? b0) then
      MakeErr "The size of tensor a (%zu) at dimension 1 must match the size of tensor b (%zu) at dimension 0." [a1; b0]
    else
      a0 ← vec_at t0 0;
      b1 ← vec_at t1 1;
      Value [a0; b1].

(** [bmm], lines 344-369. *)
Definition bmm (variableMetas : MetaStack) : Expected (list Z) :=
  if negb (size variableMetas =? 2) then
    MakeErr "Expected two inputs shapes of this operation." []
  else
    m0 ← vec_at variableMetas 0;
    m1 ← vec_at variableMetas 1;
    let t0 := shape m0 in
    let t1 := shape m1 in
    if negb ((size t0 =? 3) && (size t1 =? 3)) then
      MakeErr "Expected 3-dimensional tensor." []
    else
      a0 ← vec_at t0 0;
      b0 ← vec_at t1 0;
      if negb (a0 =? b0) then
        MakeErr "Expected tensors to have same size at dimension 0" []
      else
        a2 ← vec_at t0 2;
        b1 ← vec_at t1 1;
        if negb (a2 =? b1) then
          MakeErr "The size of tensor a (%zu) at dimension 2 mustmatch the size of tensor b (%zu) at dimension 1" [a2; b1]
        else
          a1 ← vec_at t0 1;
          b2 ← vec_at t1 2;
          Value [a0; a1; b2].

(** [addmm], lines 376-397. *)
Definition addmm (variableMetas : MetaStack) : Expected (list Z) :=
  _ ← RETURN_ERR_IF_NOT (3 <=? size variableMetas)
        "Expected at least three inputs shapes, got %zu." [size variableMetas];
  t0 ← vec_at variableMetas 0;
  t1 ← vec_at variableMetas 1;
  t2 ← vec_at variableMetas 2;
  t ← (if size (shape t2) =? 1 then Value t1
       else s ← mm [t1; t2]; Value (mkMeta s (intValue emptyMeta)));
  binaryOp [t0; t].

(** [constantChunk], lines 403-431.  The loop [for (int i = 0; i < chunks;
    i++)] runs [n] more times from index [i]. *)
Fixpoint constantChunk_loop (n : nat) (i chunks dim c r : Z) (self : list Z)
    (outShapes : list (list Z)) : Expected (list (list Z)) :=
  match n with
  | O => Value outShapes
  | S n' =>
    out ← vec_set self (to_size_t dim) (if i =? sub64 chunks 1 then r else c);
    constantChunk_loop n' (i + 1) chunks dim c r self (outShapes ++ [out])
  end.

Definition constantChunk (variableMetas : MetaStack) (chunks dim : Z)
  : Expected (list (list Z)) :=
  _ ← RETURN_ERR_IF_NOT (size variableMetas =? 1)
        "Expected one input, got %zu." [size variableMetas];
  m0 ← vec_at variableMetas 0;
  let dim := if dim <? 0 then add64 dim (size (shape m0)) else dim in
  _ ← RETURN_ERR_IF_NOT ((to_size_t dim <? size (shape m0)) && (0 <=? dim))
        "Dim value is out of range." [];
  s ← vec_at (shape m0) (to_size_t dim);
  c ← div64 (sub64 (add64 s chunks) 1) chunks;
  let r := sub64 s (mul64 c (sub64 chunks 1)) in
  constantChunk_loop (Z.to_nat chunks) 0 chunks dim c r (shape m0) [].

(** [fusedConcat], lines 437-472: the loop over [j] for one further input
    [other], then the loop over the inputs after the first. *)
Fixpoint fusedConcat_inner (n : nat) (j dim : Z) (other out : list Z)
  : Expected (list Z) :=
  match n with
  | O => Value out
  | S n' =>
    if j =? dim then
      a ← vec_at out (to_size_t dim);
      b ← vec_at other (to_size_t dim);
      out' ← vec_set out (to_size_t dim) (add64 a b);
      fusedConcat_inner n' (j + 1) dim other out'
    else
      a ← vec_at out j;
      b ← vec_at other j;
      _ ← RETURN_ERR_IF_NOT (a =? b)
            "Sizes of tensors must match except in dimension %zu." [dim];
      fusedConcat_inner n' (j + 1) dim other out
  end.

Fixpoint fusedConcat_outer (rest : MetaStack) (inDims dim : Z) (out : list Z)
  : Expected (list Z) :=
  match rest with
  | [] => Value out
  | m :: rest' =>
    _ ← RETURN_ERR_IF_NOT (inDims =? size (shape m))
          "All inputs must have the same number of dimensions." [];
    out' ← fusedConcat_inner (Z.to_nat inDims) 0 dim (shape m) out;
    fusedConcat_outer rest' inDims dim out'
  end.

Definition fusedConcat (variableMetas : MetaStack) (dim : Z)
  : Expected (list Z) :=
  _ ← RETURN_ERR_IF_NOT (1 <=? size variableMetas)
        "Expected at least 1 inputs, got %zu." [size variableMetas];
  m0 ← vec_at variableMetas 0;
  if size variableMetas =? 1 then Value (shape m0)
  else
    let inDims := size (shape m0) in
    let dim := if dim <? 0 then add64 dim inDims else dim in
    _ ← RETURN_ERR_IF_NOT ((dim <? inDims) && (0 <=? dim))
          "Dim value is out of range." [];
    fusedConcat_outer (drop 1 variableMetas) inDims dim (shape m0).

(** [slice], lines 478-528. *)
Fixpoint slice_check (idxs : list Z) (variableMetas : MetaStack)
  : Expected unit :=
  match idxs with
  | [] => Value tt
  | i :: rest =>
    m ← vec_at variableMetas i;
    _ ← RETURN_ERR_IF_NOT (size (shape m) =? 1) "Expected int in Slice." [];
    slice_check rest variableMetas
  end.

Definition slice (variableMetas : MetaStack) : Expected (list Z) :=
  _ ← RETURN_ERR_IF_NOT (size variableMetas =? 5)
        "Expected 5 inputs, got %zu." [size variableMetas];
  _ ← slice_check [1; 2; 3; 4] variableMetas;
  m0 ← vec_at variableMetas 0;
  m1 ← vec_at variableMetas 1;
  m2 ← vec_at variableMetas 2;
  m3 ← vec_at variableMetas 3;
  m4 ← vec_at variableMetas 4;
  dim ← vec_at (intValue m1) 0;
  start ← vec_at (intValue m2) 0;
  end_ ← vec_at (intValue m3) 0;
  step ← vec_at (intValue m4) 0;
  inDims ← vec_at (shape m0) (to_size_t dim);
  let out := shape m0 in
  if (inDims <=? start) || (end_ <=? neg64 inDims) then
    vec_set out (to_size_t dim) 0
  else
    let start :=
      if start <=? neg64 inDims then 0
      else if (neg64 inDims <? start) && (start <? 0) then add64 start inDims
      else start in
    let end_ :=
      if inDims <? end_ then inDims
      else if (neg64 inDims <? end_) && (end_ <? 0) then add64 end_ inDims
      else end_ in
    if end_ <=? start then vec_set out (to_size_t dim) 0
    else
      q ← div64 (sub64 end_ start) step;
      out' ← vec_set out (to_size_t dim) q;
      r ← rem64 (sub64 end_ start) step;
      if negb (r =? 0) then vec_set out' (to_size_t dim) (add64 q 1)
      else Value out'.

(** [reshape], lines 534-569.  [reshape_loop] is the loop over the target
    list: it carries [s1] and the flag [negIndex]. *)
Fixpoint reshape_loop (vals : list Z) (i s1 negIndex : Z) : Expected (Z * Z) :=
  match vals with
  | [] => Value (s1, negIndex)
  | v :: rest =>
    let s1 := mul64 s1 v in
    if v =? -1 then
      if negIndex =? -1 then reshape_loop rest (i + 1) s1 i
      else MakeErr "Unable to infer undetermined dimension" []
    else reshape_loop rest (i + 1) s1 negIndex
  end.

Definition reshape (variableMetas : MetaStack) : Expected (list Z) :=
  _ ← RETURN_ERR_IF_NOT (size variableMetas =? 2)
        "Expected two inputs shapes, got %zu." [size variableMetas];
  m0 ← vec_at variableMetas 0;
  m1 ← vec_at variableMetas 1;
  let s0 := fold_left mul64 (shape m0) 1 in
  '(s1, negIndex) ← reshape_loop (intValue m1) 0 1 (-1);
  r ← rem64 s0 s1;
  _ ← RETURN_ERR_IF_NOT (r =? 0) "Reshape size is invalid for input size." [];
  let out := intValue m1 in
  if negb (negIndex =? -1) then
    q ← div64 (neg64 s0) s1;
    vec_set out (to_size_t negIndex) q
  else Value out.

(** [permute], lines 575-599. *)
Fixpoint permute_loop (dims : list Z) (inDims : Z) (self out : list Z)
  : Expected (list Z) :=
  match dims with
  | [] => Value out
  | dim :: rest =>
    _ ← RETURN_ERR_IF_NOT (0 <=? dim)
          "Negative shuffle dimensions not supported by Glow yet." [];
    _ ← RETURN_ERR_IF_NOT (dim <? inDims)
          "All shuffle dimensions must be less than the rank of the input." [];
    x ← vec_at self (to_size_t dim);
    permute_loop rest inDims self (out ++ [x])
  end.

Definition permute (variableMetas : MetaStack) : Expected (list Z) :=
  _ ← RETURN_ERR_IF_NOT (size variableMetas =? 2)
        "Expected two inputs shapes, got %zu." [size variableMetas];
  m0 ← vec_at variableMetas 0;
  m1 ← vec_at variableMetas 1;
  let inDims := size (shape m0) in
  _ ← RETURN_ERR_IF_NOT (inDims =? size (intValue m1))
        "Shuffle for permute must has the same number of dimensions as the input tensor." [];
  permute_loop (intValue m1) inDims (shape m0) [].

(** [listConstruct], lines 606-620. *)
Fixpoint listConstruct_loop (eles : MetaStack) (intValueList : list Z)
  : Expected (list Z) :=
  match eles with
  | [] => Value intValueList
  | ele :: rest =>
    _ ← RETURN_ERR_IF_NOT (size (shape ele) =? 1)
          "Expected int type input in listConstruct." [];
    v ← vec_at (intValue ele) 0;
    listConstruct_loop rest (intValueList ++ [v])
  end.

Definition listConstruct (variableMetas : MetaStack) : Expected (list Z) :=
  _ ← RETURN_ERR_IF_NOT (1 <=? size variableMetas)
        "Expected at least 1 inputs, got %zu." [size variableMetas];
  listConstruct_loop variableMetas [].

(** [fusedStack], lines 626-654. *)
Fixpoint fusedStack_loop (eles : MetaStack) (out : list Z) : Expected unit :=
  match eles with
  | [] => Value tt
  | eleShape :: rest =>
    _ ← RETURN_ERR_IF_NOT (bool_decide (shape eleShape = out))
          "All inputs must have same shape" [];
    fusedStack_loop rest out
  end.

Definition fusedStack (variableMetas : MetaStack) (dim : Z)
  : Expected (list Z) :=
  _ ← RETURN_ERR_IF_NOT (1 <=? size variableMetas)
        "Expected at least 1 inputs, got %zu." [size variableMetas];
  m0 ← vec_at variableMetas 0;
  if size variableMetas =? 1 then Value (shape m0)
  else
    let inDims := size (shape m0) in
    let dim := if dim <? 0 then add64 dim (add64 inDims 1) else dim in
    _ ← RETURN_ERR_IF_NOT ((dim <? add64 inDims 1) && (0 <=? dim))
          "Dim must be less than the rank of inputs plus the added dimension" [];
    let out := shape m0 in
    _ ← fusedStack_loop variableMetas out;
    vec_insert out dim (size variableMetas).

(** [embeddingBag], lines 670-691.  [hasEndOffset_] is a member of the
    engine declared in ShapeInferenceEngine.h; the rules take it as their
    first argument. *)
Definition embeddingBag (hasEndOffset_ : bool) (variableMetas : MetaStack)
  : Expected (list Z) :=
  _ ← RETURN_ERR_IF_NOT (size variableMetas =? 8)
        "Expected 8 inputs, got %zu." [size variableMetas];
  m0 ← vec_at variableMetas 0;
  m1 ← vec_at variableMetas 1;
  m2 ← vec_at variableMetas 2;
  if size (shape m1) =? 1 then
    _ ← RETURN_ERR_IF_NOT (size (shape m2) =? 1)
          "Expected 1D offset, got %zu." [size (shape m2)];
    o ← vec_at (shape m2) 0;
    w ← vec_at (shape m0) 1;
    Value [sub64 o (Z.b2z hasEndOffset_); w]
  else if size (shape m1) =? 2 then
    i0 ← vec_at (shape m1) 0;
    w ← vec_at (shape m0) 1;
    Value [i0; w]
  else MakeErr "Only support 1D and 2D Input in Embedding bag." [].

(** [embeddingBagByteRowwiseOffsets], lines 705-719. *)
Definition embeddingBagByteRowwiseOffsets (hasEndOffset_ : bool)
    (variableMetas : MetaStack) : Expected (list Z) :=
  _ ← RETURN_ERR_IF_NOT (size variableMetas =? 8)
        "Expected 8 inputs, got %zu." [size variableMetas];
  m0 ← vec_at variableMetas 0;
  m2 ← vec_at variableMetas 2;
  o ← vec_at (shape m2) 0;
  w ← vec_at (shape m0) 1;
  Value [sub64 o (Z.b2z hasEndOffset_); sub64 w 8].

(** ** The graph and the concrete inputs (interfaces of torch::jit) *)

(** Modelled from the spec: the graph is an external collaborator; a graph
    value ([torch::jit::Value*]) is known by its identity only. *)
Definition JitValue : Type := nat.

Inductive NodeKind : Type :=
  | glow_fused_stack
  | fb_embedding_bag_byte_rowwise_offsets
  | prim_Constant
  | aten_tanh | aten_relu | aten_sigmoid
  | aten_sub | aten_pow | aten_mul | aten_add
  | aten_mm | aten_addmm | aten_bmm
  | prim_FusedConcat
  | prim_ConstantChunk
  | prim_ListConstruct
  | aten_slice | aten_reshape | aten_permute
  | aten_embedding_bag
  | other_kind (qualString : string).

#[global] Instance NodeKind_eq_dec : EqDecision NodeKind.
Proof. solve_decision. Defined.

(** The declared type of a value, as far as [isSubtypeOf] is asked. *)
Inductive JitType : Type :=
  | FloatType | IntType | BoolType | NoneType | TensorType | OtherType.

(** Modelled from the spec: a node exposes its operator tag, its ordered
    input and output values, the type of its output and typed attribute
    accessors; the attributes are the ones the engine reads
    ([node->i(attr::dim)], [node->i(attr::chunks)], [node->i(attr::value)]
    and the sizes of [node->t(attr::value)]). *)
Record Node : Type := mkNode {
  kind : NodeKind;
  inputs : list JitValue;
  outputs : list JitValue;
  output_type : JitType;
  attr_dim : Z;
  attr_chunks : Z;
  attr_value_i : Z;
  attr_value_t : list Z
}.

(** [node->output()] asserts that the node has exactly one output;
    [node->output(i)] that it has an output [i]. *)
Definition output (node : Node) : Expected JitValue :=
  match outputs node with
  | [o] => Value o
  | _ => Crash CheckFailed
  end.

Definition output_at (node : Node) (i : Z) : Expected JitValue :=
  match vec_at (outputs node) i with
  | Value o => Value o
  | _ => Crash CheckFailed
  end.

Record Graph : Type := mkGraph {
  g_inputs : list JitValue;
  g_outputs : list JitValue;
  g_nodes : list Node
}.

(** Modelled from the spec: a concrete input ([at::IValue]) is a tensor
    with a dimension list, a boolean scalar, an integer scalar, an integer
    list, or something else; [toInt] of a boolean is its raw value. *)
Inductive IValue : Type :=
  | IVTensor (sizes : list Z)
  | IVBool (b : bool)
  | IVInt (i : Z)
  | IVIntList (l : list Z)
  | IVOther.

(** ** The engine *)

(** Modelled from the spec: the members of the class, declared in
    ShapeInferenceEngine.h: the graph, the concrete inputs, the mode flag
    for a trailing entry of the offsets, the map from graph values to their
    metadata and the shapes of the graph outputs. *)
Record Engine : Type := mkEngine {
  graph_ : Graph;
  inputs_ : list IValue;
  hasEndOffset_ : bool;
  shapeMap_ : gmap JitValue VariableMeta;
  outputShape_ : list (list Z)
}.

(** The constructor, lines 16-18: an empty map and no output shape; the
    flag [hasEndOffset_], which the constructor leaves to the header, is a
    parameter. *)
Definition ShapeInferenceEngine (graph : Graph) (inputs : list IValue)
    (hasEndOffset : bool) : Engine :=
  mkEngine graph inputs hasEndOffset ∅ [].

Definition with_shapeMap (e : Engine) (sm : gmap JitValue VariableMeta)
  : Engine :=
  mkEngine (graph_ e) (inputs_ e) (hasEndOffset_ e) sm (outputShape_ e).

(** [shapeMap_[v].shape = s] and [shapeMap_[v].intValue = l]: the subscript
    creates a default entry when [v] has none. *)
Definition set_shape (sm : gmap JitValue VariableMeta) (v : JitValue)
    (s : list Z) : gmap JitValue VariableMeta :=
  <[v := mkMeta s (intValue (default emptyMeta (sm !! v)))]> sm.

Definition set_intValue (sm : gmap JitValue VariableMeta) (v : JitValue)
    (l : list Z) : gmap JitValue VariableMeta :=
  <[v := mkMeta (shape (default emptyMeta (sm !! v))) l]> sm.

(** [getNodeInputShape], lines 20-27. *)
Fixpoint getNodeInputShape_loop (ins : list JitValue)
    (sm : gmap JitValue VariableMeta) (inputMetas : MetaStack)
  : Expected MetaStack :=
  match ins with
  | [] => Value inputMetas
  | input :: rest =>
    match sm !! input with
    | None => Crash CheckFailed
    | Some m => getNodeInputShape_loop rest sm (inputMetas ++ [m])
    end
  end.

Definition getNodeInputShape (node : Node) (sm : gmap JitValue VariableMeta)
  : Expected MetaStack :=
  getNodeInputShape_loop (inputs node) sm [].

(** [primConstant], lines 240-263. *)
Definition primConstant (node : Node) : Expected (list Z) :=
  _ ← output node;
  match output_type node with
  | FloatType => Value [1]
  | IntType => Value [attr_value_i node]
  | BoolType => Value [attr_value_i node]
  | NoneType => Value []
  | TensorType => Value (attr_value_t node)
  | OtherType => Value []
  end.

(** [shapeOnNode], lines 49-129: the rule of the node, giving
    [outputShapesOrValues]. *)
Definition nodeRule (hasEndOffset : bool) (node : Node)
    (inputMetas : MetaStack) : Expected (list (list Z)) :=
  let one (r : Expected (list Z)) := s ← r; Value [s] in
  match kind node with
  | glow_fused_stack => one (fusedStack inputMetas (attr_dim node))
  | fb_embedding_bag_byte_rowwise_offsets =>
      one (embeddingBagByteRowwiseOffsets hasEndOffset inputMetas)
  | prim_Constant => one (primConstant node)
  | aten_tanh | aten_relu | aten_sigmoid =>
      _ ← RETURN_ERR_IF_NOT (size inputMetas =? 1)
            "Expected 1 input shape for operators." [];
      m0 ← vec_at inputMetas 0;
      Value [shape m0]
  | aten_sub | aten_pow | aten_mul | aten_add => one (binaryOp inputMetas)
  | aten_mm => one (mm inputMetas)
  | aten_addmm => one (addmm inputMetas)
  | aten_bmm => one (bmm inputMetas)
  | prim_FusedConcat => one (fusedConcat inputMetas (attr_dim node))
  | prim_ConstantChunk =>
      constantChunk inputMetas (attr_chunks node) (attr_dim node)
  | prim_ListConstruct => one (listConstruct inputMetas)
  | aten_slice => one (slice inputMetas)
  | aten_reshape => one (reshape inputMetas)
  | aten_permute => one (permute inputMetas)
  | aten_embedding_bag => one (embeddingBag hasEndOffset inputMetas)
  | other_kind _ => MakeErr "Node's operator %s is not supported" []
  end.

(** [shapeOnNode], lines 143-160: the results are put into the map. *)
Fixpoint storeShapes (outs : list (list Z)) (os : list JitValue) (i : Z)
    (sm : gmap JitValue VariableMeta)
  : Expected (gmap JitValue VariableMeta) :=
  match os with
  | [] => Value sm
  | o :: rest =>
    s ← vec_at outs i;
    storeShapes outs rest (i + 1) (set_shape sm o s)
  end.

Definition storeOutputs (node : Node) (outs : list (list Z))
    (sm : gmap JitValue VariableMeta)
  : Expected (gmap JitValue VariableMeta) :=
  if decide (kind node = prim_Constant) then
    o ← output node;
    s ← vec_at outs 0;
    match output_type node with
    | TensorType => Value (set_shape sm o s)
    | _ => Value (set_intValue (set_shape sm o [1]) o s)
    end
  else if decide (kind node = prim_ListConstruct) then
    o ← output node;
    s ← vec_at outs 0;
    Value (set_intValue (set_shape sm o [size s; 1]) o s)
  else if decide (kind node = aten_embedding_bag) then
    o ← output_at node 0;
    s ← vec_at outs 0;
    Value (set_shape sm o s)
  else storeShapes outs (outputs node) 0 sm.

Definition shapeOnNode (node : Node) (e : Engine) : Expected unit * Engine :=
  match
    inputMetas ← getNodeInputShape node (shapeMap_ e);
    outs ← nodeRule (hasEndOffset_ e) node inputMetas;
    storeOutputs node outs (shapeMap_ e)
  with
  | Value sm => (Value tt, with_shapeMap e sm)
  | MakeErr msg args => (MakeErr msg args, e)
  | Crash f => (Crash f, e)
  end.

(** [getGraphIntputShape], lines 198-222. *)
Fixpoint getGraphIntputShape_loop (ins : list IValue) (i : Z)
    (gins : list JitValue) (sm : gmap JitValue VariableMeta)
  : Expected unit * gmap JitValue VariableMeta :=
  match ins with
  | [] => (Value tt, sm)
  | input :: rest =>
    match vec_at gins i with
    | Value gInName =>
      let sm0 := set_intValue (set_shape sm gInName []) gInName [] in
      match input with
      | IVTensor sizes =>
          getGraphIntputShape_loop rest (i + 1) gins (set_shape sm0 gInName sizes)
      | IVBool b =>
          getGraphIntputShape_loop rest (i + 1) gins
            (set_intValue (set_shape sm0 gInName [1]) gInName [Z.b2z b])
      | IVInt v =>
          getGraphIntputShape_loop rest (i + 1) gins
            (set_intValue (set_shape sm0 gInName [1]) gInName [v])
      | IVIntList l =>
          getGraphIntputShape_loop rest (i + 1) gins
            (set_intValue (set_shape sm0 gInName [size l; 1]) gInName l)
      | IVOther => (MakeErr "Input type doesn't support yet." [], sm0)
      end
    | MakeErr msg args => (MakeErr msg args, sm)
    | Crash f => (Crash f, sm)
    end
  end.

Definition getGraphIntputShape (e : Engine) : Expected unit * Engine :=
  let '(r, sm) :=
    getGraphIntputShape_loop (inputs_ e) 0 (g_inputs (graph_ e)) (shapeMap_ e) in
  (r, with_shapeMap e sm).

(** [generateGraphOutputShape], lines 224-230. *)
Fixpoint generateGraphOutputShape_loop (outs : list JitValue)
    (sm : gmap JitValue VariableMeta) (outputShape : list (list Z))
  : Expected (list (list Z)) :=
  match outs with
  | [] => Value outputShape
  | o :: rest =>
    match sm !! o with
    | None => Crash CheckFailed
    | Some m => generateGraphOutputShape_loop rest sm (outputShape ++ [shape m])
    end
  end.

Definition generateGraphOutputShape (e : Engine) : Expected unit * Engine :=
  match
    generateGraphOutputShape_loop (g_outputs (graph_ e)) (shapeMap_ e)
      (outputShape_ e)
  with
  | Value os =>
      (Value tt,
       mkEngine (graph_ e) (inputs_ e) (hasEndOffset_ e) (shapeMap_ e) os)
  | MakeErr msg args => (MakeErr msg args, e)
  | Crash f => (Crash f, e)
  end.

(** [run], lines 164-181. *)
Fixpoint run_nodes (nodes : list Node) (e : Engine) : Expected unit * Engine :=
  match nodes with
  | [] => (Value tt, e)
  | node :: rest =>
    match shapeOnNode node e with
    | (Value _, e') => run_nodes rest e'
    | failed => failed
    end
  end.

Definition run (e : Engine) : Expected unit * Engine :=
  if negb (size (inputs_ e) =? size (g_inputs (graph_ e))) then
    (MakeErr "Number of inputs mismatch between Graph and actual inputs" [], e)
  else
    match getGraphIntputShape e with
    | (Value _, e1) =>
      match run_nodes (g_nodes (graph_ e1)) e1 with
      | (Value _, e2) => generateGraphOutputShape e2
      | failed => failed
      end
    | failed => failed
    end.

(** [getGraphOutputShape], lines 29-31. *)
Definition getGraphOutputShape (e : Engine) : list (list Z) := outputShape_ e.

(** ** Specification-side definitions: sums and products *)

Definition sum_list (l : list Z) : Z := fold_right Z.add 0 l.
Definition prod_list (l : list Z) : Z := fold_right Z.mul 1 l.

(** ** Specification-side definitions: broadcasting *)

(** Right-aligned broadcasting of two shapes given from the trailing end:
    where one side is exhausted or 1 the result has the other side's size,
    otherwise the two sizes must be equal. *)
Fixpoint broadcast_aligned (r0 r1 : list Z) : Expected (list Z) :=
  match r0, r1 with
  | [], _ => Value r1
  | _, [] => Value r0
  | a :: r0', b :: r1' =>
      if a =? 1 then rest ← broadcast_aligned r0' r1'; Value (b :: rest)
      else if b =? 1 then rest ← broadcast_aligned r0' r1'; Value (a :: rest)
      else if a =? b then rest ← broadcast_aligned r0' r1'; Value (b :: rest)
      else
        MakeErr "The size of tensor a (%zu) must match the size of tensor b (%zu)at non-singleton dimension 1." [a; b]
  end.

Definition broadcast_shapes (t0 t1 : list Z) : Expected (list Z) :=
  r ← broadcast_aligned (reverse t0) (reverse t1); Value (reverse r).

(** No dimension of [t0] before the ones aligned with [t1] has size 1. *)
Definition no_unit_beyond (t0 t1 : list Z) : Prop :=
  Forall (fun d => d <> 1) (take (length t0 - length t1) t0).

(** ** Specification-side definitions: slice *)

(** A scalar carrier: a shape of length 1 and a value in [intValue]. *)
Definition scalar_carrier (m : VariableMeta) (v : Z) : Prop :=
  size (shape m) = 1 /\ intValue m !! 0%nat = Some v.

(** The normalised bounds and the axis length of a slice, on integers:
    [L] is the length of the axis. *)
Definition slice_start (L start : Z) : Z :=
  if start <=? - L then 0
  else if (- L <? start) && (start <? 0) then start + L
  else start.

Definition slice_end (L end_ : Z) : Z :=
  if L <? end_ then L
  else if (- L <? end_) && (end_ <? 0) then end_ + L
  else end_.

Definition slice_empty (L start end_ : Z) : bool :=
  (L <=? start) || (end_ <=? - L) ||
  (slice_end L end_ <=? slice_start L start).

Definition slice_axis_length (L start end_ step : Z) : Z :=
  if slice_empty L start end_ then 0
  else
    let n := slice_end L end_ - slice_start L start in
    Z.quot n step + (if Z.rem n step =? 0 then 0 else 1).

(** ** Specification-side definitions: reshape *)

(** The number of -1 placeholders of a target list, the product of its
    explicit entries, the position of its first placeholder, and the list
    with every placeholder replaced by [x]. *)
Definition is_placeholder (v : Z) : bool := v =? -1.

Definition placeholders (target : list Z) : nat :=
  length (List.filter is_placeholder target).

Definition explicit_product (target : list Z) : Z :=
  prod_list (List.filter (fun v => negb (is_placeholder v)) target).

Fixpoint first_placeholder (target : list Z) : Z :=
  match target with
  | [] => 0
  | v :: rest => if is_placeholder v then 0 else 1 + first_placeholder rest
  end.

Definition resolve_placeholder (target : list Z) (x : Z) : list Z :=
  map (fun v => if is_placeholder v then x else v) target.

(** ** Specification-side definitions: constant chunking *)

(** A negative dimension index has the rank added. *)
Definition normalize_dim (dim rank : Z) : Z :=
  if dim <? 0 then dim + rank else dim.

(** [ceil = (size + chunks - 1) / chunks]; every piece but the last has
    size [ceil], the last has size [size - ceil * (chunks - 1)]. *)
Definition chunk_ceil (sz chunks : Z) : Z := Z.quot (sz + chunks - 1) chunks.

Definition chunk_sizes (sz chunks : Z) : list Z :=
  replicate (Z.to_nat (chunks - 1)) (chunk_ceil sz chunks)
  ++ [sz - chunk_ceil sz chunks * (chunks - 1)].

(** ** Specification-side definitions: constants *)

(** The metadata of the output of a constant node, by its declared type. *)
Definition constant_meta (node : Node) : VariableMeta :=
  match output_type node with
  | FloatType => mkMeta [1] [1]
  | IntType | BoolType => mkMeta [1] [attr_value_i node]
  | NoneType => mkMeta [1] []
  | TensorType => mkMeta (attr_value_t node) []
  | OtherType => mkMeta [1] []
  end.

(** ** Specification-side definitions: non-negative dimensions *)

Definition nonneg_shape (s : list Z) : Prop := Forall (fun d => 0 <= d) s.

Definition nonneg_metas (metas : MetaStack) : Prop :=
  Forall (fun m => nonneg_shape (shape m)) metas.

Definition nonneg_store (sm : gmap JitValue VariableMeta) : Prop :=
  map_Forall (fun _ m => nonneg_shape (shape m)) sm.

(** The size along axis [nd] of a shape (0 when it has no such axis). *)
Definition dim_at (nd : Z) (m : VariableMeta) : Z :=
  default 0 (shape m !! Z.to_nat nd).

(** What the rules leave unchecked and their results' signs depend on. *)
Definition chunk_guard (metas : MetaStack) (chunks dim : Z) : Prop :=
  match metas with
  | [self] =>
      int64 dim /\ size (shape self) <= int64_max /\
      1 <= chunks <= int_max /\
      let sz := dim_at (normalize_dim dim (size (shape self))) self in
      sz <= 2 ^ 62 /\ chunk_ceil sz chunks * (chunks - 1) <= sz
  | _ => True
  end.

Definition concat_guard (metas : MetaStack) (dim : Z) : Prop :=
  match metas with
  | self :: _ =>
      int64 dim /\ size (shape self) <= int64_max /\
      sum_list (map (dim_at (normalize_dim dim (size (shape self)))) metas)
      <= int64_max
  | [] => True
  end.

Definition slice_guard (metas : MetaStack) : Prop :=
  match metas with
  | [self; dimM; startM; endM; stepM] =>
      size (shape self) <= int64_max /\
      forall dim start end_ step : Z,
        intValue dimM !! 0%nat = Some dim ->
        intValue startM !! 0%nat = Some start ->
        intValue endM !! 0%nat = Some end_ ->
        intValue stepM !! 0%nat = Some step ->
        int64 dim /\ int64 start /\ int64 end_ /\ int64 step /\
        dim_at dim self <= int64_max /\ 0 < step
  | _ => True
  end.

Definition reshape_guard (metas : MetaStack) : Prop :=
  match metas with
  | [self; target] =>
      prod_list (shape self) <= int64_max /\
      Forall (fun v => v = -1 \/ 0 <= v) (intValue target) /\
      prod_list (map Z.abs (intValue target)) <= int64_max /\
      size (intValue target) <= int64_max
  | _ => True
  end.

Definition embedding_guard (adj : bool) (rowwise : bool) (metas : MetaStack)
  : Prop :=
  match metas with
  | weight :: indices :: offsets :: _ =>
      Z.b2z adj <= dim_at 0 offsets <= int64_max /\
      (rowwise = true -> 8 <= dim_at 1 weight <= int64_max)
  | _ => True
  end.

Definition dims_guard (adj : bool) (node : Node) (metas : MetaStack) : Prop :=
  match kind node with
  | prim_Constant => nonneg_shape (attr_value_t node)
  | prim_ConstantChunk => chunk_guard metas (attr_chunks node) (attr_dim node)
  | prim_FusedConcat => concat_guard metas (attr_dim node)
  | aten_slice => slice_guard metas
  | aten_reshape => reshape_guard metas
  | aten_embedding_bag => embedding_guard adj false metas
  | fb_embedding_bag_byte_rowwise_offsets => embedding_guard adj true metas
  | _ => True
  end.

(** The nodes of a run meet [dims_guard], each in the state it is
    processed in. *)
Fixpoint guarded (nodes : list Node) (e : Engine) : Prop :=
  match nodes with
  | [] => True
  | node :: rest =>
      (forall metas,
         getNodeInputShape node (shapeMap_ e) = Value metas ->
         dims_guard (hasEndOffset_ e) node metas) /\
      (forall e', shapeOnNode node e = (Value tt, e') -> guarded rest e')
  end.

Definition nonneg_input (v : IValue) : Prop :=
  match v with
  | IVTensor sizes => nonneg_shape sizes
  | _ => True
  end.

(** ** Definitions for the further properties: permute *)

(** [s] lists the sizes of [self] at the axes named by [order]. *)
Definition gathered (self order s : list Z) : Prop :=
  Forall2 (fun d x => 0 <= d /\ self !! Z.to_nat d = Some x) order s.

(** ** Definitions for the further properties: stacking and concatenation *)

(** The position of the added axis: a negative [dim] has the rank plus one
    added. *)
Definition stack_dim (dim rank : Z) : Z :=
  if dim <? 0 then dim + rank + 1 else dim.

(** All the shapes of [rest] are the shape [s]. *)
Definition same_shapes (s : list Z) (rest : MetaStack) : bool :=
  forallb (fun m => bool_decide (shape m = s)) rest.

(** Two shapes agree off axis [nd]: they are equal once axis [nd] is
    overwritten (so they have the same rank). *)
Definition agree_off_axis (nd : nat) (a b : list Z) : bool :=
  bool_decide (<[nd := 0]> a = <[nd := 0]> b).

(** ** Definitions for the further properties: the engine *)

(** The metadata that the binding of the graph inputs stores for a
    concrete input, by its kind; none for an unsupported kind. *)
Definition input_meta (v : IValue) : option VariableMeta :=
  match v with
  | IVTensor sizes => Some (mkMeta sizes [])
  | IVBool b => Some (mkMeta [1] [Z.b2z b])
  | IVInt i => Some (mkMeta [1] [i])
  | IVIntList l => Some (mkMeta [size l; 1] l)
  | IVOther => None
  end.

(** [ms] are the entries of the map for the values [vs], in order. *)
Definition bound_to (sm : gmap JitValue VariableMeta) (vs : list JitValue)
    (ms : MetaStack) : Prop :=
  Forall2 (fun v m => sm !! v = Some m) vs ms.

(** [shapes] are the shapes that the map holds for the values [vs]. *)
Definition shapes_of (sm : gmap JitValue VariableMeta) (vs : list JitValue)
    (shapes : list (list Z)) : Prop :=
  Forall2 (fun v s => exists m, sm !! v = Some m /\ shape m = s) vs shapes.

(** The kinds whose results [shapeOnNode] stores output by output. *)
Definition stored_by_output (k : NodeKind) : Prop :=
  k <> prim_Constant /\ k <> prim_ListConstruct /\ k <> aten_embedding_bag.

(** ** Definitions for the further properties: chains of activations *)

Definition is_activation (k : NodeKind) : Prop :=
  k = aten_tanh \/ k = aten_relu \/ k = aten_sigmoid.

(** [nodes] is a chain of activation nodes from the value [x] to the value
    [y]: each node has one input, the output of the node before it (or
    [x]), and one output, the last of them [y]. *)
Inductive activation_chain : JitValue -> list Node -> JitValue -> Prop :=
  | chain_nil (x : JitValue) : activation_chain x [] x
  | chain_cons (x z y : JitValue) (node : Node) (rest : list Node) :
      is_activation (kind node) ->
      inputs node = [x] -> outputs node = [z] ->
      activation_chain z rest y ->
      activation_chain x (node :: rest) y.

(** ** Definitions for the further properties: the mode flag *)

(** The engine [e] with the mode flag set to [b]. *)
Definition with_flag (e : Engine) (b : bool) : Engine :=
  mkEngine (graph_ e) (inputs_ e) b (shapeMap_ e) (outputShape_ e).

(** The operators whose rules read the mode flag. *)
Definition reads_flag (k : NodeKind) : Prop :=
  k = aten_embedding_bag \/ k = fb_embedding_bag_byte_rowwise_offsets.

(** * Properties *)

(** ** Machine integers, vectors and the result monad *)

Lemma wrap64_id z : int64 z -> wrap64 z = z.
Proof.
  unfold int64, int64_min, int64_max, wrap64. intros H.
  rewrite Z.mod_small; lia.
Qed.

Lemma to_size_t_id z : 0 <= z < 2 ^ 64 -> to_size_t z = z.
Proof. intros H. unfold to_size_t. apply Z.mod_small. lia. Qed.

Lemma vec_at_lookup {A} (v : list A) (i : nat) (x : A) :
  v !! i = Some x -> vec_at v (Z.of_nat i) = Value x.
Proof.
  intros H. unfold vec_at, size.
  pose proof (lookup_lt_Some _ _ _ H) as Hlt.
  rewrite Nat2Z.id, H.
  destruct (0 <=? Z.of_nat i) eqn:E1; [|lia].
  destruct (Z.of_nat i <? Z.of_nat (length v)) eqn:E2; [done|lia].
Qed.

Lemma vec_at_Value {A} (v : list A) (i : Z) (x : A) :
  vec_at v i = Value x <-> 0 <= i /\ v !! Z.to_nat i = Some x.
Proof.
  unfold vec_at, size. split.
  - destruct (0 <=? i) eqn:E1; simpl; [|done].
    destruct (i <? Z.of_nat (length v)) eqn:E2; [|done].
    destruct (v !! Z.to_nat i) eqn:E3; [|done].
    intros [= ->]. split; [lia|done].
  - intros [H0 H]. pose proof (lookup_lt_Some _ _ _ H) as Hlt.
    rewrite H.
    destruct (0 <=? i) eqn:E1; [|lia].
    destruct (i <? Z.of_nat (length v)) eqn:E2; [done|lia].
Qed.

Lemma vec_at_out {A} (v : list A) (i : Z) :
  ~ (0 <= i < size v) -> vec_at v i = Crash OutOfRange.
Proof.
  unfold vec_at. intros H.
  destruct (0 <=? i) eqn:E1; destruct (i <? size v) eqn:E2; simpl;
    try done. lia.
Qed.

Lemma size_cons {A} (x : A) (l : list A) : size (x :: l) = 1 + size l.
Proof. unfold size. simpl length. lia. Qed.

Lemma size_nil {A} : size (@nil A) = 0.
Proof. reflexivity. Qed.

Lemma size_nonneg {A} (l : list A) : 0 <= size l.
Proof. unfold size. lia. Qed.

Lemma size_app {A} (l k : list A) : size (l ++ k) = size l + size k.
Proof. unfold size. rewrite length_app. lia. Qed.

Lemma vec_at_0 {A} (x : A) (l : list A) : vec_at (x :: l) 0 = Value x.
Proof. apply (vec_at_lookup (x :: l) 0%nat). reflexivity. Qed.

Lemma vec_at_S {A} (x : A) (l : list A) (i : Z) :
  0 < i -> vec_at (x :: l) i = vec_at l (i - 1).
Proof.
  intros Hi. unfold vec_at. rewrite size_cons.
  replace (Z.to_nat i) with (S (Z.to_nat (i - 1))) by lia. simpl lookup.
  destruct (0 <=? i) eqn:E1, (0 <=? i - 1) eqn:E2; try lia.
  destruct (i <? 1 + size l) eqn:E3, (i - 1 <? size l) eqn:E4;
    try lia; reflexivity.
Qed.

Lemma vec_at_1 {A} (x y : A) (l : list A) : vec_at (x :: y :: l) 1 = Value y.
Proof. rewrite vec_at_S by lia. apply vec_at_0. Qed.

Lemma vec_at_2 {A} (x y z : A) (l : list A) :
  vec_at (x :: y :: z :: l) 2 = Value z.
Proof. rewrite vec_at_S by lia. apply vec_at_1. Qed.

Lemma vec_at_3 {A} (x y z u : A) (l : list A) :
  vec_at (x :: y :: z :: u :: l) 3 = Value u.
Proof. rewrite vec_at_S by lia. apply vec_at_2. Qed.

Lemma vec_at_4 {A} (x y z u v : A) (l : list A) :
  vec_at (x :: y :: z :: u :: v :: l) 4 = Value v.
Proof. rewrite vec_at_S by lia. apply vec_at_3. Qed.

Lemma vec_at_nil {A} (i : Z) : vec_at (@nil A) i = Crash OutOfRange.
Proof. apply vec_at_out. unfold size. simpl length. lia. Qed.

(** Comparisons that linear arithmetic decides are replaced by their value. *)
Ltac zdec1 :=
  match goal with
  | |- context [Z.eqb ?a ?b] =>
      first [ rewrite (proj2 (Z.eqb_eq a b)) by lia
            | rewrite (proj2 (Z.eqb_neq a b)) by lia ]
  | |- context [Z.leb ?a ?b] =>
      first [ rewrite (proj2 (Z.leb_le a b)) by lia
            | rewrite (proj2 (Z.leb_gt a b)) by lia ]
  | |- context [Z.ltb ?a ?b] =>
      first [ rewrite (proj2 (Z.ltb_lt a b)) by lia
            | rewrite (proj2 (Z.ltb_ge a b)) by lia ]
  end.

Ltac size_norm :=
  rewrite ?size_cons;
  repeat match goal with
         | |- context [@size ?A []] => change (@size A []) with 0
         end.

Ltac exp_simpl :=
  repeat (progress (
    size_norm;
    rewrite ?vec_at_0, ?vec_at_1, ?vec_at_2, ?vec_at_3, ?vec_at_4, ?vec_at_nil;
    unfold RETURN_ERR_IF_NOT, orelse;
    repeat zdec1;
    cbn [mbind Expected_bind mret Expected_ret negb andb orb
         shape intValue fst snd])).

Lemma size_1_inv {A} (l : list A) : size l = 1 -> exists a, l = [a].
Proof.
  destruct l as [|a [|b l]]; size_norm; try lia; [eauto|].
  pose proof (size_nonneg l). lia.
Qed.

Lemma size_2_inv {A} (l : list A) : size l = 2 -> exists a b, l = [a; b].
Proof.
  destruct l as [|a [|b [|c l]]]; size_norm; try lia; [eauto|].
  pose proof (size_nonneg l). lia.
Qed.

Lemma vec_set_in {A} (v : list A) (i : Z) (x : A) :
  0 <= i < size v -> vec_set v i x = Value (<[Z.to_nat i := x]> v).
Proof. intros H. unfold vec_set. repeat zdec1. reflexivity. Qed.

Lemma size_insert {A} (v : list A) (i : nat) (x : A) :
  size (<[i := x]> v) = size v.
Proof. unfold size. rewrite length_insert. reflexivity. Qed.

Lemma neg64_id z : int64_min < z <= int64_max -> neg64 z = - z.
Proof.
  intros H. unfold neg64. apply wrap64_id.
  unfold int64, int64_min, int64_max in *. lia.
Qed.

Lemma bind_Value_inv {A B} (e : Expected A) (k : A -> Expected B) (b : B) :
  e ≫= k = Value b -> exists a, e = Value a /\ k a = Value b.
Proof.
  destruct e as [a| |]; cbn; [eauto | discriminate | discriminate].
Qed.

Lemma RETURN_ERR_IF_NOT_inv (cond : bool) msg args (u : unit) :
  RETURN_ERR_IF_NOT cond msg args = Value u -> cond = true.
Proof. destruct cond; [reflexivity | discriminate]. Qed.

Lemma vec_at_elem {A} (v : list A) (i : Z) (x : A) :
  vec_at v i = Value x -> x ∈ v.
Proof.
  intros H. apply vec_at_Value in H as [_ H].
  apply list_elem_of_lookup. eauto.
Qed.

Lemma vec_set_inv {A} (v v' : list A) (i : Z) (x : A) :
  vec_set v i x = Value v' ->
  0 <= i < size v /\ v' = <[Z.to_nat i := x]> v.
Proof.
  unfold vec_set.
  destruct (Z.leb_spec 0 i), (Z.ltb_spec i (size v)); cbn; try discriminate.
  intros [= <-]. split; [lia | reflexivity].
Qed.

Lemma vec_set_Forall {A} (P : A -> Prop) (v v' : list A) (i : Z) (x : A) :
  vec_set v i x = Value v' -> Forall P v -> P x -> Forall P v'.
Proof.
  intros H Hv Hx. apply vec_set_inv in H as [_ ->].
  apply Forall_insert; assumption.
Qed.

(** Inversion of one successful bind: [x] is the value, [Hx] its equation. *)
Tactic Notation "bind_inv" hyp(H) "as" ident(x) ident(Hx) :=
  apply bind_Value_inv in H as (x & Hx & H).

Tactic Notation "check_inv" hyp(H) "as" ident(Hc) :=
  let u := fresh "u" in
  apply bind_Value_inv in H as (u & Hc & H);
  apply RETURN_ERR_IF_NOT_inv in Hc.

Lemma wrap64_range (z : Z) : int64 (wrap64 z).
Proof.
  unfold int64, int64_min, int64_max, wrap64.
  pose proof (Z.mod_pos_bound (z + 2 ^ 63) (2 ^ 64)). lia.
Qed.

Lemma wrap64_mul_l (x y : Z) : wrap64 (wrap64 x * y) = wrap64 (x * y).
Proof.
  unfold wrap64. f_equal.
  pose proof (Z.div_mod (x + 2 ^ 63) (2 ^ 64)) as Hdm.
  set (k := (x + 2 ^ 63) / 2 ^ 64) in *.
  replace (((x + 2 ^ 63) mod 2 ^ 64 - 2 ^ 63) * y + 2 ^ 63)
    with (x * y + 2 ^ 63 + (- k * y) * 2 ^ 64) by lia.
  apply Z_mod_plus_full.
Qed.

Lemma prod_list_cons (x : Z) (l : list Z) :
  prod_list (x :: l) = x * prod_list l.
Proof. reflexivity. Qed.

Lemma prod_list_app (l k : list Z) :
  prod_list (l ++ k) = prod_list l * prod_list k.
Proof.
  induction l as [|x l IH]; cbn [app].
  - unfold prod_list at 2. cbn. lia.
  - rewrite !prod_list_cons, IH. lia.
Qed.

Lemma fold_left_mul64 (l : list Z) (a : Z) :
  int64 a -> fold_left mul64 l a = wrap64 (a * prod_list l).
Proof.
  revert a. induction l as [|x l IH]; intros a Ha.
  - cbn [fold_left]. unfold prod_list. cbn [fold_right].
    rewrite Z.mul_1_r. symmetry. apply wrap64_id, Ha.
  - cbn [fold_left]. rewrite IH by apply wrap64_range.
    unfold mul64. rewrite wrap64_mul_l, prod_list_cons. f_equal. lia.
Qed.

Lemma prod_list_nonneg (l : list Z) :
  Forall (fun d => 0 <= d) l -> 0 <= prod_list l.
Proof.
  induction 1 as [|x l Hx _ IH].
  - unfold prod_list. cbn. lia.
  - rewrite prod_list_cons. nia.
Qed.

Lemma prod_list_abs (l : list Z) :
  Z.abs (prod_list l) = prod_list (map Z.abs l).
Proof.
  induction l as [|x l IH]; cbn [map].
  - reflexivity.
  - rewrite !prod_list_cons, Z.abs_mul, IH. reflexivity.
Qed.

Lemma div64_inv (a b q : Z) :
  div64 a b = Value q -> b <> 0 /\ q = Z.quot a b.
Proof.
  unfold div64. destruct (Z.eqb_spec b 0); [discriminate|].
  destruct (_ && _); [discriminate|]. intros [= <-]. auto.
Qed.

Lemma rem64_inv (a b r : Z) :
  rem64 a b = Value r -> b <> 0 /\ r = Z.rem a b.
Proof.
  unfold rem64. destruct (Z.eqb_spec b 0); [discriminate|].
  destruct (_ && _); [discriminate|]. intros [= <-]. auto.
Qed.

Lemma to_size_t_neg (z : Z) : - 2 ^ 64 <= z < 0 -> to_size_t z = z + 2 ^ 64.
Proof.
  intros H. unfold to_size_t.
  rewrite <- (Z.mod_small (z + 2 ^ 64) (2 ^ 64)) by lia.
  rewrite <- (Z_mod_plus_full z 1 (2 ^ 64)). f_equal; lia.
Qed.


(** ** The rules on the inputs the specification lists *)

Example mm_2x3_3x4 :
  mm [mkMeta [2; 3] []; mkMeta [3; 4] []] = Value [2; 4].
Proof. reflexivity. Qed.

Example mm_inner_mismatch :
  is_err (mm [mkMeta [2; 3] []; mkMeta [4; 5] []]) = true.
Proof. reflexivity. Qed.

Example bmm_batched :
  bmm [mkMeta [7; 2; 3] []; mkMeta [7; 3; 4] []] = Value [7; 2; 4].
Proof. reflexivity. Qed.

Example permute_rank3 :
  permute [mkMeta [2; 3; 4] []; mkMeta [3; 1] [2; 0; 1]] = Value [4; 2; 3].
Proof. reflexivity. Qed.

Example permute_axis_out_of_range :
  is_err (permute [mkMeta [2; 3; 4] []; mkMeta [3; 1] [0; 1; 3]]) = true.
Proof. reflexivity. Qed.

Example fusedStack_three :
  fusedStack [mkMeta [5; 6] []; mkMeta [5; 6] []; mkMeta [5; 6] []] 1
  = Value [5; 3; 6].
Proof. reflexivity. Qed.

Example fusedConcat_three :
  fusedConcat [mkMeta [2; 3] []; mkMeta [2; 5] []; mkMeta [2; 1] []] (-1)
  = Value [2; 9].
Proof. reflexivity. Qed.

(** A tensor input of shape [2,3] through an activation and a reshape to
    the list constructed from the constants 3 and 2. *)
Example run_relu_reshape :
  let graph :=
    mkGraph [0%nat] [5%nat]
      [mkNode aten_relu [0%nat] [1%nat] TensorType 0 0 0 [];
       mkNode prim_Constant [] [2%nat] IntType 0 0 3 [];
       mkNode prim_Constant [] [3%nat] IntType 0 0 2 [];
       mkNode prim_ListConstruct [2%nat; 3%nat] [4%nat] OtherType 0 0 0 [];
       mkNode aten_reshape [1%nat; 4%nat] [5%nat] TensorType 0 0 0 []] in
  let e := ShapeInferenceEngine graph [IVTensor [2; 3]] true in
  fst (run e) = Value tt /\
  getGraphOutputShape (snd (run e)) = [[3; 2]] /\
  shapeMap_ (snd (run e)) !! 4%nat = Some (mkMeta [2; 1] [3; 2]).
Proof. repeat split; reflexivity. Qed.

(** A node whose input has no entry in the map fails the [CHECK] of
    [getNodeInputShape]. *)
Example run_unbound_value :
  let graph :=
    mkGraph [0%nat] [2%nat]
      [mkNode aten_relu [1%nat] [2%nat] TensorType 0 0 0 []] in
  fst (run (ShapeInferenceEngine graph [IVTensor [2; 3]] true))
  = Crash CheckFailed.
Proof. reflexivity. Qed.

(** ** binaryOp *)

Lemma broadcast_aligned_nil_r (r0 : list Z) :
  broadcast_aligned r0 [] = Value r0.
Proof. destruct r0; reflexivity. Qed.

Lemma vec_at_reverse (t : list Z) (i : Z) (a : Z) :
  size t < 2 ^ 64 -> 0 <= i ->
  reverse t !! Z.to_nat i = Some a ->
  vec_at t (to_size_t (size t + (-1 - i))) = Value a.
Proof.
  intros Hsz Hi Hlk.
  pose proof (lookup_lt_Some _ _ _ Hlk) as Hlt.
  rewrite length_reverse in Hlt.
  rewrite reverse_lookup in Hlk by exact Hlt.
  unfold size in *. rewrite to_size_t_id by lia.
  apply vec_at_Value. split; [lia|].
  rewrite <- Hlk. f_equal. lia.
Qed.

Lemma drop_insert_same {A} (l : list A) (n : nat) (x : A) :
  (n < length l)%nat -> drop n (<[n := x]> l) = x :: drop (S n) l.
Proof.
  intros Hn. rewrite drop_insert_ge by lia. rewrite Nat.sub_diag.
  destruct (lookup_lt_is_Some_2 l n Hn) as [y Hy].
  rewrite (drop_S l y n Hy). reflexivity.
Qed.

Section BroadcastLoop.

(** Two shapes of ranks below 2^64, the first with no dimension of size 1
    at a position (from the trailing end) where the second is exhausted. *)
Variables t0 t1 : list Z.
Hypothesis Hs0 : size t0 < 2 ^ 64.
Hypothesis Hs1 : size t1 < 2 ^ 64.
Hypothesis Hunit :
  forall (k : nat) (a : Z),
    (length t1 <= k)%nat -> reverse t0 !! k = Some a -> a <> 1.

(** The loop of binaryOp from index [i] on, against the specification on
    the reversed shapes: the loop fills [out] from its end. *)
Lemma binaryOp_loop_broadcast (n i : nat) (out : list Z) :
  (i + n = Nat.max (length t0) (length t1))%nat ->
  length out = Nat.max (length t0) (length t1) ->
  binaryOp_loop n (Z.of_nat i) t0 t1 out =
    (res ← broadcast_aligned (drop i (reverse t0)) (drop i (reverse t1));
     Value (reverse res ++ drop n out)).
Proof.
  revert i out.
  induction n as [|n IH]; intros i out Hin Hout.
  - cbn [binaryOp_loop].
    rewrite (drop_ge (reverse t0)) by (rewrite length_reverse; lia).
    rewrite (drop_ge (reverse t1)) by (rewrite length_reverse; lia).
    reflexivity.
  - cbn [binaryOp_loop].
    assert (Hdim : Z.max (size t0) (size t1)
                   = Z.of_nat (Nat.max (length t0) (length t1)))
      by (unfold size; lia).
    rewrite Hdim.
    assert (Hidx : to_size_t
                     (Z.of_nat (Nat.max (length t0) (length t1))
                      + (-1 - Z.of_nat i)) = Z.of_nat n).
    { rewrite to_size_t_id; unfold size in *; lia. }
    rewrite Hidx.
    assert (Hset : forall x,
      vec_set out (Z.of_nat n) x = Value (<[n := x]> out)).
    { intros x. rewrite vec_set_in by (unfold size; lia).
      rewrite Nat2Z.id. reflexivity. }
    assert (Hnext : forall x,
      binaryOp_loop n (Z.of_nat i + 1) t0 t1 (<[n := x]> out) =
        (res ← broadcast_aligned (drop (S i) (reverse t0))
                 (drop (S i) (reverse t1));
         Value (reverse res ++ x :: drop (S n) out))).
    { intros x. replace (Z.of_nat i + 1) with (Z.of_nat (S i)) by lia.
      rewrite IH by (rewrite ?length_insert; lia).
      rewrite drop_insert_same by lia. reflexivity. }
    assert (Hcons : forall (b : Z) (res : list Z),
      reverse res ++ b :: drop (S n) out
      = reverse (b :: res) ++ drop (S n) out).
    { intros b res. rewrite reverse_cons, <- app_assoc. reflexivity. }
    set (I0 := to_size_t (size t0 + (-1 - Z.of_nat i))).
    set (I1 := to_size_t (size t1 + (-1 - Z.of_nat i))).
    destruct (reverse t0 !! i) as [a|] eqn:E0;
      destruct (reverse t1 !! i) as [b|] eqn:E1.
    + (* both sides present *)
      pose proof (lookup_lt_Some _ _ _ E0) as L0.
      pose proof (lookup_lt_Some _ _ _ E1) as L1.
      rewrite length_reverse in L0, L1.
      assert (Hv0 : vec_at t0 I0 = Value a).
      { apply vec_at_reverse; [exact Hs0|lia|]. rewrite Nat2Z.id. exact E0. }
      assert (Hv1 : vec_at t1 I1 = Value b).
      { apply vec_at_reverse; [exact Hs1|lia|]. rewrite Nat2Z.id. exact E1. }
      assert (Hl0 : (size t0 <=? Z.of_nat i) = false)
        by (apply Z.leb_gt; unfold size; lia).
      assert (Hl1 : (size t1 <=? Z.of_nat i) = false)
        by (apply Z.leb_gt; unfold size; lia).
      rewrite Hl0, Hl1, Hv0, Hv1. unfold orelse.
      cbn [mbind Expected_bind]. rewrite !Hset. cbn [mbind Expected_bind].
      rewrite !Hnext.
      rewrite (drop_S _ _ _ E0), (drop_S _ _ _ E1).
      cbn [broadcast_aligned]. rewrite (Z.eqb_sym b a).
      destruct (a =? 1); [|destruct (b =? 1); [|destruct (a =? b)]];
        cbn [negb]; try reflexivity;
        destruct (broadcast_aligned _ _); cbn [mbind Expected_bind];
        rewrite ?Hcons; reflexivity.
    + (* the second operand is exhausted *)
      pose proof (lookup_lt_Some _ _ _ E0) as L0.
      apply lookup_ge_None in E1.
      rewrite length_reverse in L0, E1.
      pose proof (Hunit i a E1 E0) as Ha.
      assert (Hv0 : vec_at t0 I0 = Value a).
      { apply vec_at_reverse; [exact Hs0|lia|]. rewrite Nat2Z.id. exact E0. }
      assert (Hl0 : (size t0 <=? Z.of_nat i) = false)
        by (apply Z.leb_gt; unfold size; lia).
      assert (Hl1 : (size t1 <=? Z.of_nat i) = true)
        by (apply Z.leb_le; unfold size; lia).
      rewrite Hl0, Hl1, Hv0. unfold orelse.
      cbn [mbind Expected_bind].
      replace (a =? 1) with false by (symmetry; apply Z.eqb_neq; exact Ha).
      cbn [mbind Expected_bind]. rewrite Hset. cbn [mbind Expected_bind].
      rewrite Hnext.
      rewrite (drop_S _ _ _ E0).
      rewrite !(drop_ge (reverse t1)) by (rewrite length_reverse; lia).
      rewrite !broadcast_aligned_nil_r. cbn [mbind Expected_bind].
      rewrite Hcons. reflexivity.
    + (* the first operand is exhausted *)
      pose proof (lookup_lt_Some _ _ _ E1) as L1.
      apply lookup_ge_None in E0.
      rewrite length_reverse in L1, E0.
      assert (Hv1 : vec_at t1 I1 = Value b).
      { apply vec_at_reverse; [exact Hs1|lia|]. rewrite Nat2Z.id. exact E1. }
      assert (Hl0 : (size t0 <=? Z.of_nat i) = true)
        by (apply Z.leb_le; unfold size; lia).
      rewrite Hl0, Hv1. unfold orelse.
      cbn [mbind Expected_bind]. rewrite Hset. cbn [mbind Expected_bind].
      rewrite Hnext.
      rewrite (drop_S _ _ _ E1).
      rewrite !(drop_ge (reverse t0)) by (rewrite length_reverse; lia).
      cbn [broadcast_aligned mbind Expected_bind].
      rewrite Hcons. reflexivity.
    + apply lookup_ge_None in E0, E1.
      rewrite length_reverse in E0, E1. lia.
Qed.

End BroadcastLoop.

Lemma broadcast_aligned_length (r0 r1 res : list Z) :
  broadcast_aligned r0 r1 = Value res ->
  length res = Nat.max (length r0) (length r1).
Proof.
  revert r1 res. induction r0 as [|a r0 IH]; intros r1 res H.
  - cbn in H. injection H as <-. reflexivity.
  - destruct r1 as [|b r1].
    + cbn in H. injection H as <-. cbn. lia.
    + cbn [broadcast_aligned] in H.
      destruct (a =? 1); [|destruct (b =? 1); [|destruct (a =? b)]];
        try discriminate;
        bind_inv H as rest Hrest; injection H as <-;
        apply IH in Hrest; cbn [length]; lia.
Qed.

(** The elementwise-binary rule is right-aligned broadcasting on every
    pair of shapes in which no dimension of the first operand that lies
    before the dimensions aligned with the second operand has size 1; the
    result has the larger of the two ranks. *)
Lemma binaryOp_broadcast (m0 m1 : VariableMeta) (rest : MetaStack) :
  size rest <= 1 ->
  size (shape m0) < 2 ^ 64 -> size (shape m1) < 2 ^ 64 ->
  no_unit_beyond (shape m0) (shape m1) ->
  binaryOp (m0 :: m1 :: rest) =
    (if size (shape m1) =? 1 then Value (shape m0)
     else broadcast_shapes (shape m0) (shape m1)) /\
  (forall s,
     size (shape m1) <> 1 -> binaryOp (m0 :: m1 :: rest) = Value s ->
     size s = Z.max (size (shape m0)) (size (shape m1))).
Proof.
  intros Hrest Hs0 Hs1 Hunit. pose proof (size_nonneg rest) as Hr.
  assert (Heq : binaryOp (m0 :: m1 :: rest) =
    (if size (shape m1) =? 1 then Value (shape m0)
     else broadcast_shapes (shape m0) (shape m1))).
  { unfold binaryOp. size_norm.
    assert ((negb (1 + (1 + size rest) =? 2)
             && negb (1 + (1 + size rest) =? 3)) = false) as ->.
    { destruct (Z.eqb_spec (1 + (1 + size rest)) 2),
        (Z.eqb_spec (1 + (1 + size rest)) 3); cbn; try reflexivity; lia. }
    rewrite vec_at_0, vec_at_1. cbn [mbind Expected_bind].
    destruct (size (shape m1) =? 1); [reflexivity|].
    replace (Z.to_nat (Z.max (size (shape m0)) (size (shape m1))))
      with (Nat.max (length (shape m0)) (length (shape m1)))
      by (unfold size; lia).
    assert (Hbeyond : forall (k : nat) (a : Z),
      (length (shape m1) <= k)%nat ->
      reverse (shape m0) !! k = Some a -> a <> 1).
    { intros k a Hk Ha.
      pose proof (lookup_lt_Some _ _ _ Ha) as Hlt.
      rewrite length_reverse in Hlt.
      rewrite reverse_lookup in Ha by exact Hlt.
      unfold no_unit_beyond in Hunit. rewrite Forall_lookup in Hunit.
      apply (Hunit (length (shape m0) - S k)%nat).
      rewrite lookup_take_lt by lia. exact Ha. }
    rewrite (binaryOp_loop_broadcast (shape m0) (shape m1) Hs0 Hs1 Hbeyond
               _ 0%nat) by (lia || apply length_replicate).
    unfold broadcast_shapes. rewrite !drop_0.
    rewrite drop_ge by (rewrite length_replicate; lia).
    destruct (broadcast_aligned _ _); cbn [mbind Expected_bind];
      rewrite ?app_nil_r; reflexivity. }
  split; [exact Heq|].
  intros s Hne H. rewrite Heq in H.
  replace (size (shape m1) =? 1) with false in H
    by (symmetry; apply Z.eqb_neq; exact Hne).
  unfold broadcast_shapes in H. bind_inv H as r Hr'. injection H as <-.
  apply broadcast_aligned_length in Hr'.
  unfold size. rewrite length_reverse, Hr', !length_reverse. lia.
Qed.

(** C1.  On the shapes [1,3,4] and [3,4] the elementwise-binary rule, at
    the leading dimension of the first operand (size 1, the second operand
    exhausted), reads the second operand's shape outside its elements
    instead of returning [1,3,4]; the two examples of the claim hold. *)
Theorem binaryOp_reads_past_exhausted_operand :
  binaryOp [mkMeta [1; 3; 4] []; mkMeta [3; 4] []] = Crash OutOfRange /\
  binaryOp [mkMeta [1] []; mkMeta [] []] = Crash OutOfRange /\
  binaryOp [mkMeta [3; 4] []; mkMeta [1; 3; 4] []] = Value [1; 3; 4] /\
  binaryOp [mkMeta [2; 1; 4] []; mkMeta [3; 4] []] = Value [2; 3; 4] /\
  is_err (binaryOp [mkMeta [2; 3] []; mkMeta [2; 4] []]) = true.
Proof. repeat split; reflexivity. Qed.

(** ** addmm *)

(** The addmm rule in terms of the elementwise-binary rule: when the shape
    of mat2 has length 1 it is that rule applied to bias and mat1;
    otherwise, when mat1 and mat2 have rank 2 and mat1.dim1 = mat2.dim0, it
    is that rule applied to bias and the shape {mat1.dim0, mat2.dim1}; and
    otherwise the rule fails. *)
Lemma addmm_as_binaryOp
    (bias mat1 mat2 : VariableMeta) (scalars : MetaStack) :
  let metas := bias :: mat1 :: mat2 :: scalars in
  (size (shape mat2) = 1 -> addmm metas = binaryOp [bias; mat1]) /\
  (size (shape mat2) <> 1 ->
   forall a0 a1 b0 b1,
     shape mat1 = [a0; a1] -> shape mat2 = [b0; b1] -> a1 = b0 ->
     addmm metas = binaryOp [bias; mkMeta [a0; b1] []]) /\
  (size (shape mat2) <> 1 ->
   size (shape mat1) <> 2 \/ size (shape mat2) <> 2 \/
   (exists a0 a1 b0 b1,
      shape mat1 = [a0; a1] /\ shape mat2 = [b0; b1] /\ a1 <> b0) ->
   is_err (addmm metas) = true).
Proof.
  intros metas. pose proof (size_nonneg scalars) as Hs.
  split; [|split].
  - intros H1. unfold addmm, metas. exp_simpl. reflexivity.
  - intros H1 a0 a1 b0 b1 Hm1 Hm2 Heq.
    unfold addmm, metas, mm. exp_simpl. rewrite Hm1, Hm2. exp_simpl.
    reflexivity.
  - intros H1 Hbad.
    unfold addmm, metas, mm. exp_simpl.
    destruct (Z.eq_dec (size (shape mat2)) 2) as [E2|E2];
      [|exp_simpl; reflexivity].
    destruct (Z.eq_dec (size (shape mat1)) 2) as [E1|E1];
      [|exp_simpl; reflexivity].
    destruct Hbad as [Hb|[Hb|(a0 & a1 & b0 & b1 & Hm1 & Hm2 & Hne)]];
      try lia.
    rewrite Hm1, Hm2. exp_simpl. reflexivity.
Qed.

(** The addmm rule is the right-aligned broadcasting of the shape of bias
    against the product shape on every input on which no dimension of bias
    that lies before the dimensions aligned with the product shape has
    size 1: with mat2 of a shape of length 1 the product shape is the shape
    of mat1 (and bias is returned as it is when that shape has length 1);
    with mat1 and mat2 of rank 2 and mat1.dim1 = mat2.dim0 the product
    shape is {mat1.dim0, mat2.dim1}; otherwise the rule fails. *)
Lemma addmm_broadcast
    (bias mat1 mat2 : VariableMeta) (scalars : MetaStack) :
  let metas := bias :: mat1 :: mat2 :: scalars in
  size (shape bias) < 2 ^ 64 ->
  (size (shape mat2) = 1 -> size (shape mat1) < 2 ^ 64 ->
   no_unit_beyond (shape bias) (shape mat1) ->
   addmm metas =
     if size (shape mat1) =? 1 then Value (shape bias)
     else broadcast_shapes (shape bias) (shape mat1)) /\
  (size (shape mat2) <> 1 ->
   forall a0 a1 b0 b1,
     shape mat1 = [a0; a1] -> shape mat2 = [b0; b1] -> a1 = b0 ->
     no_unit_beyond (shape bias) [a0; b1] ->
     addmm metas = broadcast_shapes (shape bias) [a0; b1] /\
     forall s, addmm metas = Value s -> size s = Z.max (size (shape bias)) 2)
  /\
  (size (shape mat2) <> 1 ->
   size (shape mat1) <> 2 \/ size (shape mat2) <> 2 \/
   (exists a0 a1 b0 b1,
      shape mat1 = [a0; a1] /\ shape mat2 = [b0; b1] /\ a1 <> b0) ->
   is_err (addmm metas) = true).
Proof.
  intros metas Hbias.
  destruct (addmm_as_binaryOp bias mat1 mat2 scalars) as (H1 & H2 & H3).
  fold metas in H1, H2, H3.
  assert (Hnil : size (@nil VariableMeta) <= 1)
    by (change (@size VariableMeta []) with 0; lia).
  split; [|split].
  - intros Hs Hm1 Hunit. rewrite (H1 Hs).
    exact (proj1 (binaryOp_broadcast bias mat1 [] Hnil Hbias Hm1 Hunit)).
  - intros Hs a0 a1 b0 b1 Hm1 Hm2 Heq Hunit.
    rewrite (H2 Hs a0 a1 b0 b1 Hm1 Hm2 Heq).
    assert (Hsz : size (shape (mkMeta [a0; b1] [])) = 2) by reflexivity.
    destruct (binaryOp_broadcast bias (mkMeta [a0; b1] []) [] Hnil Hbias)
      as [Heq' Hrank]; [rewrite Hsz; lia | exact Hunit |].
    rewrite Hsz in Heq', Hrank. cbn [shape] in Heq'.
    change (2 =? 1) with false in Heq'. split; [exact Heq'|].
    intros s Hval. apply Hrank; [lia|exact Hval].
  - exact H3.
Qed.

(** C5.  On bias [1,2,4], mat1 [2,3] and mat2 [3,4] the product shape is
    {2,4} and the broadcast of bias against it is [1,2,4], but the addmm
    rule, at the leading dimension of bias (size 1, the product shape
    exhausted), reads the product shape outside its elements; so it does
    with a third operand of a shape of length 1.  On a bias of shape [4]
    the rule returns the broadcast [2,4], and it fails when mat1.dim1 and
    mat2.dim0 differ. *)
Theorem addmm_reads_past_exhausted_product :
  mm [mkMeta [2; 3] []; mkMeta [3; 4] []] = Value [2; 4] /\
  broadcast_shapes [1; 2; 4] [2; 4] = Value [1; 2; 4] /\
  addmm [mkMeta [1; 2; 4] []; mkMeta [2; 3] []; mkMeta [3; 4] []]
  = Crash OutOfRange /\
  addmm [mkMeta [1; 2; 4] []; mkMeta [2; 4] []; mkMeta [1] [1]]
  = Crash OutOfRange /\
  addmm [mkMeta [4] []; mkMeta [2; 3] []; mkMeta [3; 4] []; mkMeta [1] [1];
         mkMeta [1] [1]] = Value [2; 4] /\
  is_err (addmm [mkMeta [4] []; mkMeta [2; 3] []; mkMeta [5; 4] []]) = true.
Proof. repeat split; reflexivity. Qed.

(** ** slice *)

Lemma scalar_carrier_at (m : VariableMeta) (v : Z) :
  scalar_carrier m v -> vec_at (intValue m) 0 = Value v.
Proof. intros [_ H]. apply (vec_at_lookup _ 0%nat). exact H. Qed.

Lemma slice_check_carriers (self m1 m2 m3 m4 : VariableMeta) :
  size (shape m1) = 1 -> size (shape m2) = 1 ->
  size (shape m3) = 1 -> size (shape m4) = 1 ->
  slice_check [1; 2; 3; 4] [self; m1; m2; m3; m4] = Value tt.
Proof.
  intros H1 H2 H3 H4. unfold slice_check. exp_simpl. reflexivity.
Qed.

Lemma quot_small_of_rem (n step : Z) :
  0 < n -> step <> 0 -> Z.rem n step <> 0 -> Z.quot n step + 1 <= n.
Proof.
  intros Hn Hstep Hrem.
  pose proof (Z.quot_rem' n step) as Hqr.
  destruct (Z_lt_le_dec step 0) as [Hneg|Hpos].
  - assert (Z.quot n step <= 0).
    { rewrite <- (Z.opp_involutive step), Z.quot_opp_r by lia.
      pose proof (Z.quot_pos n (- step)). lia. }
    lia.
  - pose proof (Z.rem_bound_pos n step) as Hb.
    pose proof (Z.quot_pos n step) as Hq.
    assert (0 <= Z.quot n step) by lia.
    assert (0 < Z.rem n step < step) by lia.
    nia.
Qed.

Lemma quot_bounds (n step : Z) :
  0 < n -> step <> 0 -> - n <= Z.quot n step <= n.
Proof.
  intros Hn Hstep.
  pose proof (Z.quot_rem' n step) as Hqr.
  destruct (Z_lt_le_dec step 0) as [Hneg|Hpos].
  - assert (Z.quot n step <= 0).
    { rewrite <- (Z.opp_involutive step), Z.quot_opp_r by lia.
      pose proof (Z.quot_pos n (- step)). lia. }
    assert (0 <= Z.rem n step).
    { apply Z.rem_nonneg; lia. }
    nia.
  - pose proof (Z.rem_bound_pos n step) as Hb.
    pose proof (Z.quot_pos n step) as Hq.
    assert (0 <= Z.quot n step) by lia.
    nia.
Qed.

Lemma slice_prefix (self dimM startM endM stepM : VariableMeta)
    (dim start end_ step L : Z) :
  scalar_carrier dimM dim -> scalar_carrier startM start ->
  scalar_carrier endM end_ -> scalar_carrier stepM step ->
  int64 dim -> 0 <= dim < size (shape self) ->
  shape self !! Z.to_nat dim = Some L ->
  int64_min < L <= int64_max ->
  slice [self; dimM; startM; endM; stepM] =
    let out := shape self in
    if (L <=? start) || (end_ <=? - L) then vec_set out dim 0
    else
      let start' :=
        if start <=? - L then 0
        else if (- L <? start) && (start <? 0) then add64 start L
        else start in
      let end' :=
        if L <? end_ then L
        else if (- L <? end_) && (end_ <? 0) then add64 end_ L
        else end_ in
      if end' <=? start' then vec_set out dim 0
      else
        q ← div64 (sub64 end' start') step;
        out' ← vec_set out dim q;
        r ← rem64 (sub64 end' start') step;
        if negb (r =? 0) then vec_set out' dim (add64 q 1)
        else Value out'.
Proof.
  intros Hd Hs He Ht Hdim Hrange HL HL64.
  unfold slice.
  rewrite (slice_check_carriers self dimM startM endM stepM)
    by (apply Hd || apply Hs || apply He || apply Ht).
  exp_simpl.
  rewrite (scalar_carrier_at _ _ Hd), (scalar_carrier_at _ _ Hs),
    (scalar_carrier_at _ _ He), (scalar_carrier_at _ _ Ht).
  exp_simpl.
  rewrite to_size_t_id by (unfold int64, int64_min, int64_max in Hdim; lia).
  assert (vec_at (shape self) dim = Value L) as ->.
  { apply vec_at_Value. split; [lia|exact HL]. }
  exp_simpl. rewrite neg64_id by exact HL64. reflexivity.
Qed.

Lemma slice_value
    (self dimM startM endM stepM : VariableMeta) (dim start end_ step L : Z) :
  scalar_carrier dimM dim -> scalar_carrier startM start ->
  scalar_carrier endM end_ -> scalar_carrier stepM step ->
  int64 dim -> int64 start -> int64 end_ -> int64 step ->
  0 <= dim < size (shape self) ->
  shape self !! Z.to_nat dim = Some L ->
  int64_min < L <= int64_max ->
  let metas := [self; dimM; startM; endM; stepM] in
  (slice_empty L start end_ = true ->
   slice metas = Value (<[Z.to_nat dim := 0]> (shape self))) /\
  (step <> 0 ->
   slice metas =
     Value (<[Z.to_nat dim := slice_axis_length L start end_ step]>
              (shape self))) /\
  (step = 0 -> slice_empty L start end_ = false ->
   slice metas = Crash DivideByZero).
Proof.
  intros Hd Hs He Ht Hdim Hstart Hend Hstep Hrange HL HL64 metas.
  unfold metas.
  rewrite (slice_prefix self dimM startM endM stepM dim start end_ step L)
    by assumption.
  cbv zeta.
  unfold slice_axis_length, slice_empty, slice_start, slice_end.
  unfold int64, int64_min, int64_max in *.
  destruct (Z.leb_spec L start) as [H1|H1]; cbn [orb].
  { rewrite vec_set_in by lia.
    split; [reflexivity|split; [reflexivity|discriminate]]. }
  destruct (Z.leb_spec end_ (- L)) as [H2|H2]; cbn [orb].
  { rewrite vec_set_in by lia.
    split; [reflexivity|split; [reflexivity|discriminate]]. }
  assert (Hadd_s : - L < start < 0 -> add64 start L = start + L).
  { intros H. unfold add64. apply wrap64_id.
    unfold int64, int64_min, int64_max. lia. }
  assert (Hadd_e : - L < end_ < 0 -> add64 end_ L = end_ + L).
  { intros H. unfold add64. apply wrap64_id.
    unfold int64, int64_min, int64_max. lia. }
  set (s := if start <=? - L then 0
            else if (- L <? start) && (start <? 0) then start + L
            else start).
  set (e := if L <? end_ then L
            else if (- L <? end_) && (end_ <? 0) then end_ + L
            else end_).
  assert (Hs' : (if start <=? - L then 0
                 else if (- L <? start) && (start <? 0) then add64 start L
                 else start) = s).
  { unfold s. destruct (Z.leb_spec start (- L)); [reflexivity|].
    destruct (Z.ltb_spec (- L) start), (Z.ltb_spec start 0);
      cbn [andb]; try reflexivity. apply Hadd_s. lia. }
  assert (He' : (if L <? end_ then L
                 else if (- L <? end_) && (end_ <? 0) then add64 end_ L
                 else end_) = e).
  { unfold e. destruct (Z.ltb_spec L end_); [reflexivity|].
    destruct (Z.ltb_spec (- L) end_), (Z.ltb_spec end_ 0);
      cbn [andb]; try reflexivity. apply Hadd_e. lia. }
  rewrite Hs', He'.
  assert (Hs0 : 0 <= s).
  { unfold s. destruct (Z.leb_spec start (- L)); [lia|].
    destruct (Z.ltb_spec (- L) start), (Z.ltb_spec start 0);
      cbn [andb]; lia. }
  assert (HeL : e <= 2 ^ 63 - 1).
  { unfold e. destruct (Z.ltb_spec L end_); [lia|].
    destruct (Z.ltb_spec (- L) end_), (Z.ltb_spec end_ 0);
      cbn [andb]; lia. }
  destruct (Z.leb_spec e s) as [H3|H3].
  { rewrite vec_set_in by lia.
    split; [reflexivity|split; [reflexivity|discriminate]]. }
  assert (Hn : sub64 e s = e - s).
  { unfold sub64. apply wrap64_id. unfold int64, int64_min, int64_max. lia. }
  rewrite Hn. set (n := e - s) in *.
  assert (Hnpos : 0 < n) by (unfold n; lia).
  split; [discriminate|]. split; [intros Hnz|].
  2:{ intros -> _. reflexivity. }
  unfold div64, rem64, int64_min. repeat zdec1. cbn [andb].
  exp_simpl. rewrite vec_set_in by lia. exp_simpl.
  pose proof (quot_bounds n step Hnpos Hnz) as Hqb.
  destruct (Z.eqb_spec (Z.rem n step) 0) as [Hr|Hr]; cbn [negb].
  - rewrite Z.add_0_r. reflexivity.
  - pose proof (quot_small_of_rem n step Hnpos Hnz Hr) as Hq1.
    rewrite vec_set_in by (rewrite size_insert; lia).
    rewrite list_insert_insert_eq.
    unfold add64. rewrite wrap64_id
      by (unfold int64, int64_min, int64_max; unfold n in *; lia).
    reflexivity.
Qed.

(** C2.  For a slice node with inputs self and the scalar carriers dim,
    start, end and step, where dim is an axis of self of length L: the
    result is the shape of self with axis dim replaced by the axis length
    of the specification, which is 0 when start >= L, when end <= -L, or
    when the normalised start is not below the normalised end, and
    otherwise the quotient of their difference by step plus one when there
    is a remainder; at step 0 that quotient is a division by zero. *)
Theorem slice_axis_length_correct
    (self dimM startM endM stepM : VariableMeta) (dim start end_ step L : Z) :
  scalar_carrier dimM dim -> scalar_carrier startM start ->
  scalar_carrier endM end_ -> scalar_carrier stepM step ->
  int64 dim -> int64 start -> int64 end_ -> int64 step ->
  0 <= dim < size (shape self) ->
  shape self !! Z.to_nat dim = Some L ->
  int64_min < L <= int64_max ->
  let metas := [self; dimM; startM; endM; stepM] in
  (slice_empty L start end_ = true ->
   slice metas = Value (<[Z.to_nat dim := 0]> (shape self))) /\
  (step <> 0 ->
   slice metas =
     Value (<[Z.to_nat dim := slice_axis_length L start end_ step]>
              (shape self))) /\
  (step = 0 -> slice_empty L start end_ = false ->
   slice metas = Crash DivideByZero).
Proof.
  exact (slice_value self dimM startM endM stepM dim start end_ step L).
Qed.


Lemma slice_axis_length_correct_witness :
  slice [mkMeta [10] []; mkMeta [1] [0]; mkMeta [1] [-12]; mkMeta [1] [100];
         mkMeta [1] [1]] = Value [10].
Proof.
  refine (proj1 (proj2 (slice_axis_length_correct
            (mkMeta [10] []) (mkMeta [1] [0]) (mkMeta [1] [-12])
            (mkMeta [1] [100]) (mkMeta [1] [1]) 0 (-12) 100 1 10
            _ _ _ _ _ _ _ _ _ _ _)) _);
    try (split; reflexivity);
    try (unfold int64, int64_min, int64_max; lia);
    try reflexivity; try discriminate.
Defined.

(** ** reshape *)

Lemma placeholders_cons (v : Z) (rest : list Z) :
  placeholders (v :: rest)
  = if is_placeholder v then S (placeholders rest) else placeholders rest.
Proof.
  unfold placeholders. cbn [List.filter].
  destruct (is_placeholder v); reflexivity.
Qed.

(** The loop of reshape, in closed form. *)
Lemma reshape_loop_closed (vals : list Z) (i s1 k : Z) :
  0 <= i ->
  reshape_loop vals i s1 k =
    match placeholders vals with
    | O => Value (fold_left mul64 vals s1, k)
    | S O =>
        if k =? -1
        then Value (fold_left mul64 vals s1, i + first_placeholder vals)
        else MakeErr "Unable to infer undetermined dimension" []
    | _ => MakeErr "Unable to infer undetermined dimension" []
    end.
Proof.
  revert i s1 k. induction vals as [|v rest IH]; intros i s1 k Hi.
  - reflexivity.
  - cbn [reshape_loop fold_left first_placeholder].
    rewrite placeholders_cons. unfold is_placeholder.
    destruct (v =? -1) eqn:Ev.
    + destruct (k =? -1) eqn:Ek.
      * rewrite IH by lia.
        destruct (placeholders rest) as [|[|p]].
        -- rewrite Z.add_0_r. reflexivity.
        -- replace (i =? -1) with false
             by (symmetry; apply Z.eqb_neq; lia). reflexivity.
        -- reflexivity.
      * destruct (placeholders rest) as [|[|p]]; reflexivity.
    + rewrite IH by lia.
      destruct (placeholders rest) as [|[|p]]; try reflexivity.
      destruct (k =? -1); [|reflexivity]. do 2 f_equal. lia.
Qed.

Lemma explicit_product_cons (v : Z) (rest : list Z) :
  explicit_product (v :: rest)
  = if is_placeholder v then explicit_product rest
    else v * explicit_product rest.
Proof.
  unfold explicit_product. cbn [List.filter].
  destruct (is_placeholder v); reflexivity.
Qed.

Lemma prod_list_placeholders (target : list Z) :
  (placeholders target = 0%nat ->
   prod_list target = explicit_product target) /\
  (placeholders target = 1%nat ->
   prod_list target = - explicit_product target).
Proof.
  induction target as [|v rest [IH0 IH1]].
  - split; [reflexivity|discriminate].
  - rewrite placeholders_cons, explicit_product_cons, prod_list_cons.
    unfold is_placeholder.
    destruct (Z.eqb_spec v (-1)) as [->|Hv]; split; intros Hp.
    + discriminate.
    + rewrite IH0 by lia. lia.
    + rewrite IH0 by exact Hp. reflexivity.
    + rewrite IH1 by exact Hp. lia.
Qed.

Lemma resolve_placeholder_none (target : list Z) (x : Z) :
  placeholders target = 0%nat -> resolve_placeholder target x = target.
Proof.
  induction target as [|v rest IH]; [reflexivity|].
  rewrite placeholders_cons. unfold resolve_placeholder in *. cbn [map].
  destruct (is_placeholder v); [discriminate|].
  intros Hp. rewrite IH by exact Hp. reflexivity.
Qed.

Lemma resolve_placeholder_one (target : list Z) (x : Z) :
  placeholders target = 1%nat ->
  0 <= first_placeholder target < size target /\
  <[Z.to_nat (first_placeholder target) := x]> target
  = resolve_placeholder target x.
Proof.
  induction target as [|v rest IH]; [discriminate|].
  rewrite placeholders_cons, size_cons. pose proof (size_nonneg rest) as Hr.
  unfold resolve_placeholder in *. cbn [map first_placeholder].
  destruct (is_placeholder v) eqn:Ev; intros Hp.
  - injection Hp as Hp. split; [lia|]. cbn.
    fold (resolve_placeholder rest x).
    rewrite (resolve_placeholder_none rest x Hp). reflexivity.
  - destruct (IH Hp) as [Hrange Hins]. split; [lia|].
    replace (Z.to_nat (1 + first_placeholder rest))
      with (S (Z.to_nat (first_placeholder rest))) by lia.
    cbn. f_equal. exact Hins.
Qed.

(** The reshape rule on every input without overflow: with S0 the product
    of the dimensions of self and S1 the product of the explicit entries of
    the target, it fails when the target has more than one placeholder;
    otherwise it divides by zero when S1 = 0, fails when S1 does not divide
    S0, and else returns the target with its placeholder replaced by
    S0 / S1. *)
Lemma reshape_cases (self target : VariableMeta) :
  let S0 := prod_list (shape self) in
  let S1 := explicit_product (intValue target) in
  Z.abs S0 <= int64_max -> Z.abs S1 <= int64_max ->
  size (intValue target) <= int64_max ->
  reshape [self; target] =
    if (2 <=? placeholders (intValue target))%nat then
      MakeErr "Unable to infer undetermined dimension" []
    else if S1 =? 0 then Crash DivideByZero
    else if Z.rem S0 S1 =? 0 then
      Value (resolve_placeholder (intValue target) (Z.quot S0 S1))
    else MakeErr "Reshape size is invalid for input size." [].
Proof.
  intros S0 S1 H0 H1 Hsz. unfold reshape. exp_simpl.
  rewrite reshape_loop_closed by lia.
  rewrite fold_left_mul64 by (unfold int64, int64_min, int64_max; lia).
  rewrite (fold_left_mul64 (intValue target))
    by (unfold int64, int64_min, int64_max; lia).
  rewrite !Z.mul_1_l. fold S0.
  rewrite (wrap64_id S0) by (unfold int64, int64_min, int64_max in *; lia).
  destruct (prod_list_placeholders (intValue target)) as [P0 P1].
  destruct (placeholders (intValue target)) as [|[|p]] eqn:Ep;
    rewrite ?Z.eqb_refl; cbn [Nat.leb mbind Expected_bind];
    [| |reflexivity].
  - rewrite P0 by reflexivity. fold S1.
    rewrite (wrap64_id S1) by (unfold int64, int64_min, int64_max in *; lia).
    unfold rem64, int64_min.
    destruct (Z.eqb_spec S1 0) as [|Hnz]; [reflexivity|].
    replace (S0 =? - 2 ^ 63) with false
      by (symmetry; apply Z.eqb_neq; unfold int64_max in *; lia).
    cbn [andb mbind Expected_bind]. unfold RETURN_ERR_IF_NOT.
    destruct (Z.rem S0 S1 =? 0); cbn [mbind Expected_bind]; [|reflexivity].
    rewrite resolve_placeholder_none by exact Ep. reflexivity.
  - rewrite P1 by reflexivity. fold S1.
    rewrite (wrap64_id (- S1))
      by (unfold int64, int64_min, int64_max in *; lia).
    unfold rem64, div64, int64_min.
    destruct (Z.eqb_spec S1 0) as [Hz|Hnz].
    { replace (- S1 =? 0) with true by (symmetry; apply Z.eqb_eq; lia).
      reflexivity. }
    replace (- S1 =? 0) with false by (symmetry; apply Z.eqb_neq; lia).
    replace (S0 =? - 2 ^ 63) with false
      by (symmetry; apply Z.eqb_neq; unfold int64_max in *; lia).
    cbn [andb mbind Expected_bind]. unfold RETURN_ERR_IF_NOT.
    rewrite Z.rem_opp_r by lia.
    destruct (Z.rem S0 S1 =? 0); cbn [mbind Expected_bind]; [|reflexivity].
    destruct (resolve_placeholder_one (intValue target) (Z.quot S0 S1) Ep)
      as [Hrange Hins].
    pose proof (size_nonneg (intValue target)) as Hsz0.
    replace (0 + first_placeholder (intValue target) =? -1) with false
      by (symmetry; apply Z.eqb_neq; lia).
    cbn [negb]. rewrite neg64_id by (unfold int64_min, int64_max in *; lia).
    replace (- S0 =? - 2 ^ 63) with false
      by (symmetry; apply Z.eqb_neq; unfold int64_max in *; lia).
    cbn [andb mbind Expected_bind]. rewrite Z.quot_opp_opp by lia.
    rewrite Z.add_0_l.
    rewrite to_size_t_id by (unfold int64_max in *; lia).
    rewrite vec_set_in by lia. rewrite Hins. reflexivity.
Qed.

(** C3.  On an input of shape [0,4] and the target [0,4] (no placeholder,
    both products 0) reshape evaluates [0 % 0] instead of returning the
    target; the example of the claim and its two failures hold. *)
Theorem reshape_divides_by_zero_target :
  reshape [mkMeta [0; 4] []; mkMeta [2; 1] [0; 4]] = Crash DivideByZero /\
  reshape [mkMeta [5] []; mkMeta [1; 1] [0]] = Crash DivideByZero /\
  reshape [mkMeta [2; 3; 4] []; mkMeta [2; 1] [-1; 4]] = Value [6; 4] /\
  is_err (reshape [mkMeta [6] []; mkMeta [2; 1] [-1; -1]]) = true /\
  is_err (reshape [mkMeta [7] []; mkMeta [2; 1] [2; 3]]) = true.
Proof. repeat split; reflexivity. Qed.

(** ** constantChunk *)

Lemma chunk_no_overflow (sz chunks : Z) :
  1 <= chunks <= int_max -> Z.abs sz <= 2 ^ 62 ->
  let a := sz + chunks - 1 in
  let c := Z.quot a chunks in
  int64 (sz + chunks) /\ int64 a /\ int64 (chunks - 1) /\
  int64 (c * (chunks - 1)) /\ int64 (sz - c * (chunks - 1)) /\
  a <> int64_min.
Proof.
  intros Hc Hsz a c. unfold int64, int64_min, int64_max, int_max in *.
  pose proof (Z.quot_rem' a chunks) as Hqr. fold c in Hqr.
  assert (Ha : Z.abs a <= 2 ^ 62 + 2 ^ 31) by (unfold a; lia).
  destruct (Z_lt_le_dec a 0) as [Hneg|Hpos].
  - pose proof (Z.rem_bound_pos_neg a chunks) as Hb.
    assert (Hc0 : c <= 0).
    { unfold c. rewrite <- (Z.opp_involutive a), Z.quot_opp_l by lia.
      pose proof (Z.quot_pos (- a) chunks). lia. }
    assert (a <= chunks * c) by lia.
    assert (chunks * c <= c * (chunks - 1) <= 0) by nia.
    unfold a in *. lia.
  - pose proof (Z.rem_bound_pos a chunks) as Hb.
    pose proof (Z.quot_pos a chunks) as Hq.
    assert (Hc0 : 0 <= c) by (unfold c; lia).
    assert (chunks * c <= a) by lia.
    assert (0 <= c * (chunks - 1) <= chunks * c) by nia.
    unfold a in *. lia.
Qed.

Lemma constantChunk_loop_value (n : nat) (i chunks dim c r : Z)
    (self : list Z) (acc : list (list Z)) :
  0 <= dim < size self -> dim < 2 ^ 64 ->
  constantChunk_loop n i chunks dim c r self acc =
    Value (acc ++
           map (fun k : nat =>
                  <[Z.to_nat dim :=
                      if i + Z.of_nat k =? sub64 chunks 1 then r else c]> self)
               (seq 0 n)).
Proof.
  intros Hdim Hlt. revert i acc.
  induction n as [|n IH]; intros i acc.
  - cbn. rewrite app_nil_r. reflexivity.
  - cbn [constantChunk_loop]. rewrite to_size_t_id by lia.
    rewrite vec_set_in by lia. exp_simpl. rewrite IH.
    rewrite <- app_assoc. cbn [app seq map].
    rewrite <- seq_shift, map_map. rewrite Z.add_0_r.
    do 3 f_equal. apply map_ext. intros k.
    replace (i + 1 + Z.of_nat k) with (i + Z.of_nat (S k)) by lia.
    reflexivity.
Qed.

Lemma chunk_sizes_seq (chunks c r : Z) (f : Z -> list Z) :
  1 <= chunks ->
  map (fun k : nat => f (if 0 + Z.of_nat k =? chunks - 1 then r else c))
      (seq 0 (Z.to_nat chunks))
  = map f (replicate (Z.to_nat (chunks - 1)) c ++ [r]).
Proof.
  intros Hc.
  replace (Z.to_nat chunks) with (Z.to_nat (chunks - 1) + 1)%nat by lia.
  rewrite seq_app, !map_app. cbn [seq map Nat.add]. f_equal.
  - assert (H : forall (m : nat) (s : nat),
      (s + m <= Z.to_nat (chunks - 1))%nat ->
      map (fun k : nat => f (if 0 + Z.of_nat k =? chunks - 1 then r else c))
          (seq s m) = map f (replicate m c)).
    { induction m as [|m IH]; intros s Hs; [reflexivity|].
      cbn [seq map replicate]. rewrite IH by lia. f_equal.
      repeat zdec1. reflexivity. }
    apply H. lia.
  - repeat zdec1. reflexivity.
Qed.

Lemma constantChunk_prefix (self : VariableMeta) (chunks dim : Z) :
  int64 dim -> size (shape self) <= int64_max ->
  let nd := normalize_dim dim (size (shape self)) in
  constantChunk [self] chunks dim =
    if (0 <=? nd) && (nd <? size (shape self)) then
      s ← vec_at (shape self) nd;
      c ← div64 (sub64 (add64 s chunks) 1) chunks;
      let r := sub64 s (mul64 c (sub64 chunks 1)) in
      constantChunk_loop (Z.to_nat chunks) 0 chunks nd c r (shape self) []
    else MakeErr "Dim value is out of range." [].
Proof.
  intros Hdim Hrank nd. pose proof (size_nonneg (shape self)) as Hs.
  unfold int64, int64_min, int64_max in *.
  unfold constantChunk. exp_simpl.
  assert (Hnd : (if dim <? 0 then add64 dim (size (shape self)) else dim) = nd).
  { unfold nd, normalize_dim. destruct (Z.ltb_spec dim 0); [|reflexivity].
    unfold add64. apply wrap64_id. unfold int64, int64_min, int64_max. lia. }
  rewrite Hnd.
  assert (Hnd64 : - 2 ^ 63 <= nd <= 2 ^ 63 - 1).
  { unfold nd, normalize_dim. destruct (Z.ltb_spec dim 0); lia. }
  destruct (Z.leb_spec 0 nd) as [H0|H0]; cbn [andb].
  - rewrite to_size_t_id by lia. rewrite andb_true_r.
    destruct (Z.ltb_spec nd (size (shape self))); exp_simpl; reflexivity.
  - rewrite andb_false_r. reflexivity.
Qed.

Lemma constantChunk_value (self : VariableMeta) (chunks dim : Z) :
  int64 dim -> size (shape self) <= int64_max ->
  let rank := size (shape self) in
  let nd := normalize_dim dim rank in
  (is_err (constantChunk [self] chunks dim) = true <-> ~ (0 <= nd < rank)) /\
  (forall sz : Z,
     0 <= nd -> shape self !! Z.to_nat nd = Some sz ->
     1 <= chunks <= int_max -> Z.abs sz <= 2 ^ 62 ->
     constantChunk [self] chunks dim =
       Value (map (fun s => <[Z.to_nat nd := s]> (shape self))
                  (chunk_sizes sz chunks)) /\
     size (chunk_sizes sz chunks) = chunks) /\
  (chunks = 0 -> 0 <= nd < rank ->
   constantChunk [self] chunks dim = Crash DivideByZero).
Proof.
  intros Hdim Hrank rank nd.
  rewrite (constantChunk_prefix self chunks dim Hdim Hrank).
  fold rank. fold nd.
  assert (Hrank64 : rank < 2 ^ 64) by (unfold int64_max in Hrank; lia).
  split; [|split].
  - destruct (Z.leb_spec 0 nd) as [H0|H0]; cbn [andb];
      [|split; [lia|reflexivity]].
    destruct (Z.ltb_spec nd rank) as [H1|H1];
      [|split; [lia|reflexivity]].
    split; [|lia]. intros Herr. exfalso.
    destruct (lookup_lt_is_Some_2 (shape self) (Z.to_nat nd)) as [sz Hsz].
    { unfold rank, size in H1. lia. }
    rewrite (proj2 (vec_at_Value (shape self) nd sz)) in Herr by (split; [lia|exact Hsz]).
    exp_simpl. cbn [mbind Expected_bind] in Herr.
    destruct (div64 (sub64 (add64 sz chunks) 1) chunks) as [c| |] eqn:Ediv;
      cbn [mbind Expected_bind is_err] in Herr; try discriminate.
    + rewrite constantChunk_loop_value in Herr by (fold rank; lia).
      discriminate.
    + unfold div64 in Ediv.
      destruct (chunks =? 0); [discriminate|].
      destruct ((sub64 (add64 sz chunks) 1 =? int64_min) && (chunks =? -1));
        discriminate.
  - intros sz H0 Hsz Hchunks Hsize.
    pose proof (lookup_lt_Some _ _ _ Hsz) as Hlt.
    assert (H1 : nd < rank) by (unfold rank, size; lia).
    repeat zdec1. cbn [andb].
    rewrite (proj2 (vec_at_Value (shape self) nd sz)) by (split; [lia|exact Hsz]).
    exp_simpl.
    destruct (chunk_no_overflow sz chunks Hchunks Hsize)
      as (Ha1 & Ha2 & Ha3 & Ha4 & Ha5 & Ha6).
    unfold add64, sub64, mul64.
    rewrite (wrap64_id (sz + chunks)) by exact Ha1.
    rewrite (wrap64_id (sz + chunks - 1)) by exact Ha2.
    unfold div64. repeat zdec1. cbn [andb].
    exp_simpl. rewrite (wrap64_id (chunks - 1)) by exact Ha3.
    rewrite (wrap64_id (_ * _)) by exact Ha4.
    rewrite (wrap64_id (sz - _)) by exact Ha5.
    rewrite constantChunk_loop_value by (fold rank; lia).
    cbn [app]. unfold sub64. rewrite (wrap64_id (chunks - 1)) by exact Ha3.
    split.
    + f_equal. unfold chunk_sizes, chunk_ceil.
      apply (chunk_sizes_seq chunks _ _
               (fun s => <[Z.to_nat nd := s]> (shape self))). lia.
    + unfold chunk_sizes. rewrite size_app. unfold size.
      rewrite length_replicate. cbn [length]. lia.
  - intros -> Hnd. repeat zdec1. cbn [andb].
    destruct (lookup_lt_is_Some_2 (shape self) (Z.to_nat nd)) as [sz Hsz].
    { unfold rank, size in Hnd. lia. }
    rewrite (proj2 (vec_at_Value (shape self) nd sz))
      by (split; [lia|exact Hsz]).
    reflexivity.
Qed.

(** C4.  For a ConstantChunk node with one input: the rule fails exactly
    when the normalised dim is outside [0, rank); otherwise, for a chunk
    count of at least 1, it returns exactly [chunks] shapes, each the input
    shape except at dim, where every piece but the last has size
    [ceil = (size + chunks - 1) / chunks] and the last has size
    [size - ceil * (chunks - 1)]; for a chunk count of 0 the quotient is a
    division by zero. *)
Theorem constantChunk_pieces (self : VariableMeta) (chunks dim : Z) :
  int64 dim -> size (shape self) <= int64_max ->
  let rank := size (shape self) in
  let nd := normalize_dim dim rank in
  (is_err (constantChunk [self] chunks dim) = true <-> ~ (0 <= nd < rank)) /\
  (forall sz : Z,
     0 <= nd -> shape self !! Z.to_nat nd = Some sz ->
     1 <= chunks <= int_max -> Z.abs sz <= 2 ^ 62 ->
     constantChunk [self] chunks dim =
       Value (map (fun s => <[Z.to_nat nd := s]> (shape self))
                  (chunk_sizes sz chunks)) /\
     size (chunk_sizes sz chunks) = chunks) /\
  (chunks = 0 -> 0 <= nd < rank ->
   constantChunk [self] chunks dim = Crash DivideByZero).
Proof.
  exact (constantChunk_value self chunks dim).
Qed.


Lemma constantChunk_pieces_witness :
  constantChunk [mkMeta [10] []] 3 0 = Value [[4]; [4]; [2]].
Proof.
  refine (proj1 (proj1 (proj2 (constantChunk_pieces (mkMeta [10] []) 3 0
                                  _ _))
                   10 _ _ _ _));
    try reflexivity;
    try (unfold int64, int64_min, int64_max, int_max; cbn; lia);
    try (vm_compute; intro; discriminate).
Defined.

(** ** embeddingBag and embeddingBagByteRowwiseOffsets *)

(** C6, as amended.  Both embedding rules fail unless there are exactly 8
    inputs.  With 8 inputs (weight, indices, offsets and five more) and a
    weight of rank at least 2: embeddingBag with indices of rank 1 fails
    unless offsets has rank 1, and then returns
    {offsets.dim0 - endOffsetAdjustment, weight.dim1}; with indices of rank
    2 it returns {indices.dim0, weight.dim1}; with any other rank of
    indices it fails; the row-wise-quantized rule returns
    {offsets.dim0 - endOffsetAdjustment, weight.dim1 - 8} when offsets has
    rank at least 1.  An embedding_bag node stores the returned shape for
    its first output only. *)
Theorem embeddingBag_shapes (adj : bool) (metas : MetaStack) :
  (size metas <> 8 ->
   is_err (embeddingBag adj metas) = true /\
   is_err (embeddingBagByteRowwiseOffsets adj metas) = true) /\
  (forall (weight indices offsets : VariableMeta) (flags : MetaStack),
     metas = weight :: indices :: offsets :: flags -> size metas = 8 ->
     (size (shape indices) = 1 -> size (shape offsets) <> 1 ->
      is_err (embeddingBag adj metas) = true) /\
     (size (shape indices) <> 1 -> size (shape indices) <> 2 ->
      is_err (embeddingBag adj metas) = true) /\
     (forall (w0 w1 : Z) (ws : list Z),
        shape weight = w0 :: w1 :: ws ->
        (forall n : Z,
           size (shape indices) = 1 -> shape offsets = [n] ->
           int64 (n - Z.b2z adj) ->
           embeddingBag adj metas = Value [n - Z.b2z adj; w1]) /\
        (forall i0 i1 : Z,
           shape indices = [i0; i1] ->
           embeddingBag adj metas = Value [i0; w1]) /\
        (forall (n : Z) (ns : list Z),
           shape offsets = n :: ns ->
           int64 (n - Z.b2z adj) -> int64 (w1 - 8) ->
           embeddingBagByteRowwiseOffsets adj metas
           = Value [n - Z.b2z adj; w1 - 8]))) /\
  (forall (node : Node) (e : Engine) (o : JitValue) (os : list JitValue)
          (s : list Z),
     kind node = aten_embedding_bag -> outputs node = o :: os ->
     getNodeInputShape node (shapeMap_ e) = Value metas ->
     embeddingBag (hasEndOffset_ e) metas = Value s ->
     shapeOnNode node e
     = (Value tt, with_shapeMap e (set_shape (shapeMap_ e) o s))).
Proof.
  split; [|split].
  - intros Hne. unfold embeddingBag, embeddingBagByteRowwiseOffsets.
    exp_simpl. split; reflexivity.
  - intros weight indices offsets flags -> Hsize.
    unfold embeddingBag, embeddingBagByteRowwiseOffsets.
    rewrite Hsize. exp_simpl. split; [|split].
    + intros H1 H2. exp_simpl. reflexivity.
    + intros H1 H2. exp_simpl. reflexivity.
    + intros w0 w1 ws Hw. rewrite Hw. split; [|split].
      * intros n H1 Ho Hn. rewrite Ho. exp_simpl.
        unfold sub64. rewrite wrap64_id by exact Hn. reflexivity.
      * intros i0 i1 Hi. rewrite Hi. exp_simpl. reflexivity.
      * intros n ns Ho Hn Hw8. rewrite Ho. exp_simpl.
        unfold sub64. rewrite !wrap64_id by assumption. reflexivity.
  - intros node e o os s Hkind Hout Hin Hrule.
    unfold shapeOnNode. rewrite Hin. cbn [mbind Expected_bind].
    unfold nodeRule. rewrite Hkind, Hrule. cbn [mbind Expected_bind].
    unfold storeOutputs, output_at. rewrite Hkind, Hout.
    destruct (decide (aten_embedding_bag = prim_Constant)); [done|].
    destruct (decide (aten_embedding_bag = prim_ListConstruct)); [done|].
    destruct (decide (aten_embedding_bag = aten_embedding_bag)); [|done].
    exp_simpl. reflexivity.
Qed.

Lemma embeddingBag_shapes_witness :
  embeddingBag true
    [mkMeta [10; 16] []; mkMeta [5] []; mkMeta [3] []; mkMeta [1] [0];
     mkMeta [1] [0]; mkMeta [1] [0]; mkMeta [1] []; mkMeta [1] [1]]
  = Value [2; 16] /\
  embeddingBagByteRowwiseOffsets true
    [mkMeta [10; 16] []; mkMeta [5] []; mkMeta [3] []; mkMeta [1] [0];
     mkMeta [1] [0]; mkMeta [1] [0]; mkMeta [1] []; mkMeta [1] [1]]
  = Value [2; 8].
Proof.
  pose proof (proj1 (proj2 (embeddingBag_shapes true
    [mkMeta [10; 16] []; mkMeta [5] []; mkMeta [3] []; mkMeta [1] [0];
     mkMeta [1] [0]; mkMeta [1] [0]; mkMeta [1] []; mkMeta [1] [1]]))
    _ _ _ _ eq_refl eq_refl) as (_ & _ & H).
  destruct (H 10 16 [] eq_refl) as (H1 & _ & H3).
  split.
  - apply (H1 3); [reflexivity | reflexivity |].
    unfold int64, int64_min, int64_max. cbn. lia.
  - apply (H3 3 []); [reflexivity | |];
      unfold int64, int64_min, int64_max; cbn; lia.
Defined.

(** C6 as stated does not hold: with 8 inputs and indices of rank 1 the
    rule fails when offsets is not of rank 1. *)
Lemma embeddingBag_offsets_rank_counterexample :
  let weight := mkMeta [10; 16] [] in
  let indices := mkMeta [5] [] in
  let offsets := mkMeta [3; 1] [0; 2; 5] in
  let flag := mkMeta [1] [0] in
  let metas := [weight; indices; offsets; flag; flag; flag; flag; flag] in
  size metas = 8 /\ size (shape indices) = 1 /\
  embeddingBag true metas = MakeErr "Expected 1D offset, got %zu." [2] /\
  embeddingBag true metas <> Value [3 - Z.b2z true; 16].
Proof.
  intros. repeat split; try reflexivity. vm_compute. discriminate.
Qed.

(** ** prim::Constant *)

Lemma getNodeInputShape_loop_present (ins : list JitValue)
    (sm : gmap JitValue VariableMeta) (acc : MetaStack) :
  Forall (fun v => is_Some (sm !! v)) ins ->
  exists metas, getNodeInputShape_loop ins sm acc = Value metas.
Proof.
  intros H. revert acc. induction H as [|v ins [m Hm] _ IH]; intros acc.
  - exists acc. reflexivity.
  - cbn [getNodeInputShape_loop]. rewrite Hm. apply IH.
Qed.

Lemma set_shape_fresh (sm : gmap JitValue VariableMeta) (o : JitValue)
    (s : list Z) :
  sm !! o = None -> set_shape sm o s = <[o := mkMeta s []]> sm.
Proof. intros H. unfold set_shape. rewrite H. reflexivity. Qed.

Lemma set_intValue_set_shape (sm : gmap JitValue VariableMeta) (o : JitValue)
    (s l : list Z) :
  sm !! o = None ->
  set_intValue (set_shape sm o s) o l = <[o := mkMeta s l]> sm.
Proof.
  intros H. rewrite set_shape_fresh by exact H.
  unfold set_intValue. rewrite lookup_insert_eq. cbn.
  apply insert_insert_eq.
Qed.

(** C7, as amended.  A constant node with one output [o] not yet in the
    map is processed without failure and changes the map at [o] only, where
    it stores: for a float type shape {1} and value 1; for an integer or
    boolean type shape {1} and the literal; for the none type shape {1} and
    no value; for a tensor type the sizes of the literal tensor and no
    value. *)
Theorem constant_stored_meta (node : Node) (e : Engine) (o : JitValue) :
  kind node = prim_Constant ->
  outputs node = [o] ->
  Forall (fun v => is_Some (shapeMap_ e !! v)) (inputs node) ->
  shapeMap_ e !! o = None ->
  shapeOnNode node e
  = (Value tt, with_shapeMap e (<[o := constant_meta node]> (shapeMap_ e))).
Proof.
  intros Hkind Hout Hins Hfresh.
  unfold shapeOnNode, getNodeInputShape.
  destruct (getNodeInputShape_loop_present _ _ [] Hins) as [metas ->].
  cbn [mbind Expected_bind].
  unfold nodeRule, storeOutputs. rewrite Hkind.
  unfold primConstant, output, constant_meta. rewrite Hout.
  destruct (decide (prim_Constant = prim_Constant)) as [_|Hne]; [|done].
  destruct (output_type node); exp_simpl;
    rewrite ?set_intValue_set_shape, ?set_shape_fresh by exact Hfresh;
    reflexivity.
Qed.

Lemma constant_stored_meta_witness :
  let node := mkNode prim_Constant [] [0%nat] IntType 0 0 7 [] in
  let e := ShapeInferenceEngine (mkGraph [] [] [node]) [] true in
  shapeOnNode node e
  = (Value tt, with_shapeMap e (<[0%nat := mkMeta [1] [7]]> ∅)).
Proof.
  intros node e.
  apply (constant_stored_meta node e 0%nat);
    [reflexivity | reflexivity | constructor | reflexivity].
Defined.

(** C7 as stated does not hold: the output of a none-typed constant is
    stored with shape {1}, not with an empty shape. *)
Lemma constant_none_shape_counterexample :
  let node := mkNode prim_Constant [] [0%nat] NoneType 0 0 0 [] in
  let e := ShapeInferenceEngine (mkGraph [] [] [node]) [] true in
  fst (shapeOnNode node e) = Value tt /\
  shapeMap_ (snd (shapeOnNode node e)) !! 0%nat = Some (mkMeta [1] []) /\
  shape <$> shapeMap_ (snd (shapeOnNode node e)) !! 0%nat <> Some [].
Proof.
  intros node e. split; [reflexivity|]. split; [reflexivity|].
  vm_compute. discriminate.
Qed.

(** ** run *)

Lemma shapeOnNode_frame (node : Node) (e : Engine) :
  outputShape_ (snd (shapeOnNode node e)) = outputShape_ e /\
  graph_ (snd (shapeOnNode node e)) = graph_ e /\
  inputs_ (snd (shapeOnNode node e)) = inputs_ e /\
  hasEndOffset_ (snd (shapeOnNode node e)) = hasEndOffset_ e.
Proof.
  unfold shapeOnNode.
  destruct (_ ≫= _) as [sm|msg args|f]; cbn; repeat split; reflexivity.
Qed.

Lemma run_nodes_frame (nodes : list Node) (e : Engine) :
  outputShape_ (snd (run_nodes nodes e)) = outputShape_ e /\
  graph_ (snd (run_nodes nodes e)) = graph_ e /\
  inputs_ (snd (run_nodes nodes e)) = inputs_ e /\
  hasEndOffset_ (snd (run_nodes nodes e)) = hasEndOffset_ e.
Proof.
  revert e. induction nodes as [|node rest IH]; intros e.
  - cbn. repeat split; reflexivity.
  - cbn [run_nodes].
    pose proof (shapeOnNode_frame node e) as Hf.
    destruct (shapeOnNode node e) as [[u|msg args|f] e']; cbn [snd] in Hf.
    + specialize (IH e'). destruct Hf as (<- & <- & <- & <-). exact IH.
    + exact Hf.
    + exact Hf.
Qed.

Lemma getGraphIntputShape_frame (e : Engine) :
  outputShape_ (snd (getGraphIntputShape e)) = outputShape_ e /\
  graph_ (snd (getGraphIntputShape e)) = graph_ e.
Proof.
  unfold getGraphIntputShape.
  destruct (getGraphIntputShape_loop _ _ _ _) as [r sm]. cbn.
  split; reflexivity.
Qed.





(** ** Non-negative dimensions *)

Lemma nonneg_at (v : list Z) (i x : Z) :
  nonneg_shape v -> vec_at v i = Value x -> 0 <= x.
Proof.
  intros Hv H. apply vec_at_elem in H.
  unfold nonneg_shape in Hv. rewrite Forall_forall in Hv. auto.
Qed.

Lemma binaryOp_loop_nonneg (n : nat) (i : Z) (t0 t1 out out' : list Z) :
  nonneg_shape t0 -> nonneg_shape t1 -> nonneg_shape out ->
  binaryOp_loop n i t0 t1 out = Value out' -> nonneg_shape out'.
Proof.
  intros H0 H1. revert i out.
  induction n as [|n IH]; intros i out Hout H.
  - cbn in H. injection H as <-. exact Hout.
  - cbn [binaryOp_loop] in H.
    bind_inv H as c0 Hc0. destruct c0.
    + bind_inv H as x Hx. bind_inv H as o Ho.
      eapply IH; [|exact H].
      eapply vec_set_Forall; eauto using nonneg_at.
    + bind_inv H as c1 Hc1. destruct c1.
      * bind_inv H as x Hx. bind_inv H as o Ho.
        eapply IH; [|exact H].
        eapply vec_set_Forall; eauto using nonneg_at.
      * bind_inv H as a Ha. bind_inv H as b Hb.
        destruct (negb (a =? b)); [discriminate|].
        bind_inv H as o Ho. eapply IH; [|exact H].
        eapply vec_set_Forall; eauto using nonneg_at.
Qed.

Lemma nonneg_metas_at (metas : MetaStack) (i : Z) (m : VariableMeta) :
  nonneg_metas metas -> vec_at metas i = Value m -> nonneg_shape (shape m).
Proof.
  intros Hm H. apply vec_at_elem in H.
  unfold nonneg_metas in Hm. rewrite Forall_forall in Hm. auto.
Qed.

Lemma replicate_nonneg (n : nat) : nonneg_shape (replicate n 0).
Proof. apply Forall_replicate. lia. Qed.

Lemma binaryOp_nonneg (metas : MetaStack) (s : list Z) :
  nonneg_metas metas -> binaryOp metas = Value s -> nonneg_shape s.
Proof.
  intros Hm H. unfold binaryOp in H.
  destruct (negb (size metas =? 2) && negb (size metas =? 3));
    [discriminate|].
  bind_inv H as m0 Hm0. bind_inv H as m1 Hm1.
  pose proof (nonneg_metas_at _ _ _ Hm Hm0) as H0.
  pose proof (nonneg_metas_at _ _ _ Hm Hm1) as H1.
  destruct (size (shape m1) =? 1).
  - injection H as <-. exact H0.
  - eapply binaryOp_loop_nonneg; [exact H0 | exact H1 | | exact H].
    apply replicate_nonneg.
Qed.

Lemma mm_nonneg (metas : MetaStack) (s : list Z) :
  nonneg_metas metas -> mm metas = Value s -> nonneg_shape s.
Proof.
  intros Hm H. unfold mm in H. check_inv H as Hc.
  bind_inv H as m0 Hm0. bind_inv H as m1 Hm1.
  pose proof (nonneg_metas_at _ _ _ Hm Hm0) as H0.
  pose proof (nonneg_metas_at _ _ _ Hm Hm1) as H1.
  destruct (negb _); [discriminate|].
  bind_inv H as a1 Ha1. bind_inv H as b0 Hb0.
  destruct (negb _); [discriminate|].
  bind_inv H as a0 Ha0. bind_inv H as b1 Hb1.
  injection H as <-.
  repeat constructor; eauto using nonneg_at.
Qed.

Lemma bmm_nonneg (metas : MetaStack) (s : list Z) :
  nonneg_metas metas -> bmm metas = Value s -> nonneg_shape s.
Proof.
  intros Hm H. unfold bmm in H.
  destruct (negb _); [discriminate|].
  bind_inv H as m0 Hm0. bind_inv H as m1 Hm1.
  pose proof (nonneg_metas_at _ _ _ Hm Hm0) as H0.
  pose proof (nonneg_metas_at _ _ _ Hm Hm1) as H1.
  destruct (negb _); [discriminate|].
  bind_inv H as a0 Ha0. bind_inv H as b0 Hb0.
  destruct (negb _); [discriminate|].
  bind_inv H as a2 Ha2. bind_inv H as b1 Hb1.
  destruct (negb _); [discriminate|].
  bind_inv H as a1 Ha1. bind_inv H as b2 Hb2.
  injection H as <-.
  repeat constructor; eauto using nonneg_at.
Qed.

Lemma addmm_nonneg (metas : MetaStack) (s : list Z) :
  nonneg_metas metas -> addmm metas = Value s -> nonneg_shape s.
Proof.
  intros Hm H. unfold addmm in H. check_inv H as Hc.
  bind_inv H as t0 Ht0. bind_inv H as t1 Ht1. bind_inv H as t2 Ht2.
  bind_inv H as t Ht.
  pose proof (nonneg_metas_at _ _ _ Hm Ht0) as H0.
  pose proof (nonneg_metas_at _ _ _ Hm Ht1) as H1.
  pose proof (nonneg_metas_at _ _ _ Hm Ht2) as H2.
  apply binaryOp_nonneg in H; [exact H|].
  constructor; [exact H0|]. constructor; [|constructor].
  destruct (size (shape t2) =? 1).
  - injection Ht as <-. exact H1.
  - bind_inv Ht as p Hp. injection Ht as <-. cbn.
    eapply mm_nonneg; [|exact Hp].
    constructor; [exact H1|]. constructor; [exact H2|constructor].
Qed.

Lemma permute_loop_nonneg (dims : list Z) (inDims : Z)
    (self out out' : list Z) :
  nonneg_shape self -> nonneg_shape out ->
  permute_loop dims inDims self out = Value out' -> nonneg_shape out'.
Proof.
  intros Hself. revert out.
  induction dims as [|d dims IH]; intros out Hout H.
  - cbn in H. injection H as <-. exact Hout.
  - cbn [permute_loop] in H.
    check_inv H as Hc1. check_inv H as Hc2. bind_inv H as x Hx.
    eapply IH; [|exact H].
    apply Forall_app. split; [exact Hout|].
    constructor; [|constructor]. exact (nonneg_at _ _ _ Hself Hx).
Qed.

Lemma permute_nonneg (metas : MetaStack) (s : list Z) :
  nonneg_metas metas -> permute metas = Value s -> nonneg_shape s.
Proof.
  intros Hm H. unfold permute in H. check_inv H as Hc.
  bind_inv H as m0 Hm0. bind_inv H as m1 Hm1. check_inv H as Hc2.
  eapply permute_loop_nonneg; [| |exact H].
  - exact (nonneg_metas_at _ _ _ Hm Hm0).
  - constructor.
Qed.

Lemma vec_insert_Forall {A} (P : A -> Prop) (v v' : list A) (i : Z) (x : A) :
  vec_insert v i x = Value v' -> Forall P v -> P x -> Forall P v'.
Proof.
  unfold vec_insert. destruct (_ && _); [|discriminate].
  intros [= <-] Hv Hx. apply Forall_app. split.
  - apply Forall_take. exact Hv.
  - constructor; [exact Hx|]. apply Forall_drop. exact Hv.
Qed.

Lemma fusedStack_nonneg (metas : MetaStack) (dim : Z) (s : list Z) :
  nonneg_metas metas -> fusedStack metas dim = Value s -> nonneg_shape s.
Proof.
  intros Hm H. unfold fusedStack in H. check_inv H as Hc.
  bind_inv H as m0 Hm0.
  pose proof (nonneg_metas_at _ _ _ Hm Hm0) as H0.
  destruct (size metas =? 1).
  - injection H as <-. exact H0.
  - check_inv H as Hc2. bind_inv H as same Hsame.
    eapply vec_insert_Forall; [exact H | exact H0 | apply size_nonneg].
Qed.

Lemma unary_nonneg (metas : MetaStack) (outs : list (list Z)) :
  nonneg_metas metas ->
  (_ ← RETURN_ERR_IF_NOT (size metas =? 1)
         "Expected 1 input shape for operators." [];
   m0 ← vec_at metas 0; Value [shape m0]) = Value outs ->
  Forall nonneg_shape outs.
Proof.
  intros Hm H. check_inv H as Hc. bind_inv H as m0 Hm0.
  injection H as <-. constructor; [|constructor].
  exact (nonneg_metas_at _ _ _ Hm Hm0).
Qed.

Lemma dim_at_lookup (nd x : Z) (m : VariableMeta) :
  shape m !! Z.to_nat nd = Some x -> dim_at nd m = x.
Proof. intros H. unfold dim_at. rewrite H. reflexivity. Qed.

Lemma vec_at_dim_at (m : VariableMeta) (i x : Z) :
  vec_at (shape m) i = Value x -> dim_at i m = x.
Proof. intros H. apply vec_at_Value in H as [_ H]. apply dim_at_lookup, H. Qed.

Lemma size_3_cons_inv {A} (l : list A) (a b c : A) :
  vec_at l 0 = Value a -> vec_at l 1 = Value b -> vec_at l 2 = Value c ->
  exists rest, l = a :: b :: c :: rest.
Proof.
  intros H0 H1 H2.
  apply vec_at_Value in H0 as [_ H0], H1 as [_ H1], H2 as [_ H2].
  destruct l as [|a' [|b' [|c' rest]]]; try discriminate.
  change (Z.to_nat 0) with 0%nat in H0.
  change (Z.to_nat 1) with 1%nat in H1.
  change (Z.to_nat 2) with 2%nat in H2.
  cbn in H0, H1, H2. injection H0 as ->. injection H1 as ->.
  injection H2 as ->. eauto.
Qed.

Lemma embeddingBag_nonneg (adj : bool) (metas : MetaStack) (s : list Z) :
  nonneg_metas metas -> embedding_guard adj false metas ->
  embeddingBag adj metas = Value s -> nonneg_shape s.
Proof.
  intros Hm Hg H. unfold embeddingBag in H. check_inv H as Hc.
  bind_inv H as m0 Hm0. bind_inv H as m1 Hm1. bind_inv H as m2 Hm2.
  pose proof (nonneg_metas_at _ _ _ Hm Hm0) as H0.
  pose proof (nonneg_metas_at _ _ _ Hm Hm1) as H1.
  destruct (size_3_cons_inv _ _ _ _ Hm0 Hm1 Hm2) as [rest ->].
  cbn [embedding_guard] in Hg. destruct Hg as [Hg _].
  destruct (size (shape m1) =? 1).
  - check_inv H as Hc2. bind_inv H as o Ho. bind_inv H as w Hw.
    injection H as <-. rewrite (vec_at_dim_at _ _ _ Ho) in Hg.
    constructor; [|constructor; [exact (nonneg_at _ _ _ H0 Hw)|constructor]].
    unfold sub64. rewrite wrap64_id; [lia|].
    unfold int64, int64_min, int64_max in *. destruct adj; cbn in *; lia.
  - destruct (size (shape m1) =? 2); [|discriminate].
    bind_inv H as i0 Hi0. bind_inv H as w Hw. injection H as <-.
    constructor; [exact (nonneg_at _ _ _ H1 Hi0)|].
    constructor; [exact (nonneg_at _ _ _ H0 Hw)|constructor].
Qed.

Lemma embeddingBagByteRowwiseOffsets_nonneg (adj : bool) (metas : MetaStack)
    (s : list Z) :
  nonneg_metas metas -> embedding_guard adj true metas ->
  embeddingBagByteRowwiseOffsets adj metas = Value s -> nonneg_shape s.
Proof.
  intros Hm Hg H. unfold embeddingBagByteRowwiseOffsets in H.
  check_inv H as Hc.
  bind_inv H as m0 Hm0. bind_inv H as m2 Hm2.
  bind_inv H as o Ho. bind_inv H as w Hw. injection H as <-.
  assert (exists m1, vec_at metas 1 = Value m1) as [m1 Hm1].
  { apply Z.eqb_eq in Hc.
    destruct (lookup_lt_is_Some_2 metas 1) as [m1 Hm1].
    { unfold size in Hc. lia. }
    exists m1. apply (vec_at_lookup metas 1%nat). exact Hm1. }
  destruct (size_3_cons_inv _ _ _ _ Hm0 Hm1 Hm2) as [rest ->].
  cbn [embedding_guard] in Hg. destruct Hg as [Hg1 Hg2].
  specialize (Hg2 eq_refl).
  rewrite (vec_at_dim_at _ _ _ Ho) in Hg1.
  rewrite (vec_at_dim_at _ _ _ Hw) in Hg2.
  unfold sub64, int64_max in *.
  rewrite !wrap64_id
    by (unfold int64, int64_min, int64_max; destruct adj; cbn in *; lia).
  repeat constructor; destruct adj; cbn in *; lia.
Qed.

Lemma chunk_sizes_nonneg (sz chunks : Z) :
  0 <= sz -> 1 <= chunks -> chunk_ceil sz chunks * (chunks - 1) <= sz ->
  Forall (fun d => 0 <= d) (chunk_sizes sz chunks).
Proof.
  intros Hsz Hc Hlast. unfold chunk_sizes. apply Forall_app. split.
  - apply Forall_replicate. unfold chunk_ceil. apply Z.quot_pos; lia.
  - constructor; [lia|constructor].
Qed.

Lemma constantChunk_nonneg (metas : MetaStack) (chunks dim : Z)
    (outs : list (list Z)) :
  nonneg_metas metas -> chunk_guard metas chunks dim ->
  constantChunk metas chunks dim = Value outs -> Forall nonneg_shape outs.
Proof.
  intros Hm Hg H.
  assert (exists self, metas = [self]) as [self ->].
  { unfold constantChunk in H. check_inv H as Hc.
    apply Z.eqb_eq in Hc. apply size_1_inv in Hc. exact Hc. }
  cbn [chunk_guard] in Hg.
  destruct Hg as (Hdim & Hrank & Hchunks & Hsz & Hlast).
  apply Forall_inv in Hm.
  rewrite (constantChunk_prefix self chunks dim Hdim Hrank) in H.
  set (nd := normalize_dim dim (size (shape self))) in *.
  destruct (Z.leb_spec 0 nd) as [H0|H0]; [|discriminate].
  destruct (Z.ltb_spec nd (size (shape self))) as [H1|H1]; [|discriminate].
  destruct (lookup_lt_is_Some_2 (shape self) (Z.to_nat nd)) as [sz Hlk].
  { unfold size in H1. lia. }
  rewrite (dim_at_lookup _ _ _ Hlk) in Hsz, Hlast.
  assert (Hsz0 : 0 <= sz).
  { unfold nonneg_shape in Hm. rewrite Forall_forall in Hm.
    apply Hm. apply list_elem_of_lookup. eauto. }
  assert (Habs : Z.abs sz <= 2 ^ 62) by lia.
  destruct (proj1 (proj2 (constantChunk_value self chunks dim Hdim Hrank))
              sz H0 Hlk Hchunks Habs) as [Hval _].
  rewrite (constantChunk_prefix self chunks dim Hdim Hrank) in Hval.
  fold nd in Hval.
  destruct (Z.leb_spec 0 nd); [|lia].
  destruct (Z.ltb_spec nd (size (shape self))); [|lia].
  cbn [andb] in H, Hval. rewrite Hval in H. injection H as <-.
  apply List.Forall_map.
  eapply Forall_impl; [apply chunk_sizes_nonneg; [exact Hsz0|lia|exact Hlast]|].
  intros x Hx. apply Forall_insert; [exact Hm|exact Hx].
Qed.

Lemma size_5_inv {A} (l : list A) :
  size l = 5 -> exists a b c d e, l = [a; b; c; d; e].
Proof.
  destruct l as [|a [|b [|c [|d [|e [|f l]]]]]]; size_norm; try lia.
  - eauto 6.
  - pose proof (size_nonneg l). lia.
Qed.

Lemma slice_check_inv (self m1 m2 m3 m4 : VariableMeta) (u : unit) :
  slice_check [1; 2; 3; 4] [self; m1; m2; m3; m4] = Value u ->
  size (shape m1) = 1 /\ size (shape m2) = 1 /\
  size (shape m3) = 1 /\ size (shape m4) = 1.
Proof.
  intros H. cbn [slice_check] in H.
  rewrite vec_at_1, vec_at_2, vec_at_3, vec_at_4 in H.
  cbn [mbind Expected_bind] in H.
  check_inv H as H1. check_inv H as H2. check_inv H as H3. check_inv H as H4.
  apply Z.eqb_eq in H1, H2, H3, H4. auto.
Qed.

Lemma slice_axis_length_nonneg (L start end_ step : Z) :
  0 < step -> 0 <= slice_axis_length L start end_ step.
Proof.
  intros Hstep. unfold slice_axis_length.
  destruct (slice_empty L start end_) eqn:E; [lia|].
  unfold slice_empty in E.
  apply orb_false_iff in E as [_ E]. apply Z.leb_gt in E.
  pose proof (Z.quot_pos (slice_end L end_ - slice_start L start) step).
  destruct (_ =? 0); lia.
Qed.

Lemma slice_nonneg (metas : MetaStack) (s : list Z) :
  nonneg_metas metas -> slice_guard metas ->
  slice metas = Value s -> nonneg_shape s.
Proof.
  intros Hm Hg H. pose proof H as H'.
  unfold slice in H'. check_inv H' as Hc.
  apply Z.eqb_eq, size_5_inv in Hc
    as (self & dimM & startM & endM & stepM & ->).
  bind_inv H' as u1 Hsc. apply slice_check_inv in Hsc as (S1 & S2 & S3 & S4).
  rewrite vec_at_0, vec_at_1, vec_at_2, vec_at_3, vec_at_4 in H'.
  cbn [mbind Expected_bind] in H'.
  bind_inv H' as dim Hdim. bind_inv H' as start Hstart.
  bind_inv H' as end_ Hend. bind_inv H' as step Hstep.
  bind_inv H' as L HL. clear H'.
  apply vec_at_Value in Hdim as [_ Hdim], Hstart as [_ Hstart],
    Hend as [_ Hend], Hstep as [_ Hstep].
  change (Z.to_nat 0) with 0%nat in *.
  cbn [slice_guard] in Hg.
  destruct Hg as (Hrank & Hg).
  destruct (Hg dim start end_ step Hdim Hstart Hend Hstep)
    as (Id & Is & Ie & It & HLmax & Hpos).
  apply Forall_inv in Hm.
  assert (Hd0 : 0 <= dim).
  { destruct (Z_lt_le_dec dim 0) as [Hneg|]; [exfalso|assumption].
    apply vec_at_Value in HL as [_ HL]. apply lookup_lt_Some in HL.
    unfold int64, int64_min, int64_max, size in *.
    rewrite to_size_t_neg in HL by lia. lia. }
  unfold int64, int64_min, int64_max in Id.
  rewrite to_size_t_id in HL by lia.
  apply vec_at_Value in HL as [_ HL].
  pose proof (lookup_lt_Some _ _ _ HL) as Hlt.
  rewrite (dim_at_lookup _ _ _ HL) in HLmax.
  assert (HL0 : 0 <= L).
  { unfold nonneg_shape in Hm. rewrite Forall_forall in Hm.
    apply Hm. apply list_elem_of_lookup. eauto. }
  rewrite (proj1 (proj2 (slice_value self dimM startM endM stepM
                    dim start end_ step L
                    (conj S1 Hdim) (conj S2 Hstart) (conj S3 Hend)
                    (conj S4 Hstep)
                    ltac:(unfold int64, int64_min, int64_max; lia)
                    Is Ie It ltac:(unfold size; lia) HL
                    ltac:(unfold int64_min; lia)))) in H by lia.
  injection H as <-.
  apply Forall_insert; [exact Hm|].
  apply slice_axis_length_nonneg. exact Hpos.
Qed.

Lemma fusedConcat_inner_after (n : nat) (j nd : Z) (other out out' : list Z) :
  nd < j -> fusedConcat_inner n j nd other out = Value out' -> out' = out.
Proof.
  revert j. induction n as [|n IH]; intros j Hj H.
  - cbn in H. injection H as <-. reflexivity.
  - cbn [fusedConcat_inner] in H. repeat zdec1.
    replace (j =? nd) with false in H by (symmetry; apply Z.eqb_neq; lia).
    bind_inv H as a Ha. bind_inv H as b Hb. check_inv H as Hc.
    apply (IH (j + 1)); [lia|exact H].
Qed.

Lemma nonneg_default (v : list Z) (i : nat) :
  nonneg_shape v -> 0 <= default 0 (v !! i).
Proof.
  intros Hv. destruct (v !! i) as [x|] eqn:E; cbn; [|lia].
  unfold nonneg_shape in Hv. rewrite Forall_forall in Hv.
  apply Hv. apply list_elem_of_lookup. eauto.
Qed.

Lemma fusedConcat_inner_nonneg (n : nat) (j nd : Z)
    (other out out' : list Z) :
  0 <= j -> 0 <= nd < 2 ^ 64 ->
  nonneg_shape out -> nonneg_shape other ->
  default 0 (out !! Z.to_nat nd) + default 0 (other !! Z.to_nat nd)
    <= int64_max ->
  fusedConcat_inner n j nd other out = Value out' ->
  nonneg_shape out' /\
  default 0 (out' !! Z.to_nat nd)
    <= default 0 (out !! Z.to_nat nd) + default 0 (other !! Z.to_nat nd).
Proof.
  intros Hj Hnd Hout Hother Hsum. revert j Hj.
  induction n as [|n IH]; intros j Hj H.
  - cbn in H. injection H as <-. split; [exact Hout|].
    pose proof (nonneg_default other (Z.to_nat nd) Hother). lia.
  - cbn [fusedConcat_inner] in H.
    destruct (Z.eqb_spec j nd) as [->|Hne].
    + rewrite to_size_t_id in H by lia.
      bind_inv H as a Ha. bind_inv H as b Hb. bind_inv H as out1 Hout1.
      apply fusedConcat_inner_after in H; [|lia]. subst out'.
      pose proof (nonneg_at _ _ _ Hout Ha) as Ha0.
      pose proof (nonneg_at _ _ _ Hother Hb) as Hb0.
      apply vec_at_Value in Ha as [_ Ha], Hb as [_ Hb].
      rewrite Ha, Hb in Hsum. cbn in Hsum.
      assert (Hadd : add64 a b = a + b).
      { unfold add64. apply wrap64_id.
        unfold int64, int64_min, int64_max in *. lia. }
      rewrite Hadd in Hout1.
      apply vec_set_inv in Hout1 as [Hr ->]. split.
      * apply Forall_insert; [exact Hout|lia].
      * rewrite list_lookup_insert_eq by (unfold size in Hr; lia).
        rewrite Ha, Hb. cbn. lia.
    + bind_inv H as a Ha. bind_inv H as b Hb. check_inv H as Hc.
      apply (IH (j + 1)); [lia|exact H].
Qed.

Lemma dim_at_nonneg (nd : Z) (m : VariableMeta) :
  nonneg_shape (shape m) -> 0 <= dim_at nd m.
Proof. apply nonneg_default. Qed.

Lemma sum_list_cons (x : Z) (l : list Z) :
  sum_list (x :: l) = x + sum_list l.
Proof. reflexivity. Qed.

Lemma sum_dim_at_nonneg (nd : Z) (metas : MetaStack) :
  nonneg_metas metas -> 0 <= sum_list (map (dim_at nd) metas).
Proof.
  induction 1 as [|m metas Hm _ IH]; cbn [map].
  - unfold sum_list. cbn. lia.
  - rewrite sum_list_cons. pose proof (dim_at_nonneg nd m Hm). lia.
Qed.

Lemma fusedConcat_outer_nonneg (rest : MetaStack) (inDims nd : Z)
    (out out' : list Z) :
  0 <= nd < 2 ^ 64 -> nonneg_shape out -> nonneg_metas rest ->
  default 0 (out !! Z.to_nat nd) + sum_list (map (dim_at nd) rest)
    <= int64_max ->
  fusedConcat_outer rest inDims nd out = Value out' -> nonneg_shape out'.
Proof.
  intros Hnd Hout Hrest. revert out Hout.
  induction Hrest as [|m rest Hm Hrest IH]; intros out Hout Hsum H.
  - cbn in H. injection H as <-. exact Hout.
  - cbn [fusedConcat_outer] in H. check_inv H as Hc.
    bind_inv H as out1 Hout1.
    cbn [map] in Hsum. rewrite sum_list_cons in Hsum.
    pose proof (sum_dim_at_nonneg nd rest Hrest) as Hs0.
    pose proof (dim_at_nonneg nd m Hm) as Hd0.
    apply fusedConcat_inner_nonneg in Hout1 as [Hn1 Hb1];
      [| lia | exact Hnd | exact Hout | exact Hm
       | unfold dim_at in *; lia].
    apply (IH out1 Hn1); [|exact H]. unfold dim_at in *. lia.
Qed.

Lemma fusedConcat_nonneg (metas : MetaStack) (dim : Z) (s : list Z) :
  nonneg_metas metas -> concat_guard metas dim ->
  fusedConcat metas dim = Value s -> nonneg_shape s.
Proof.
  intros Hm Hg H. unfold fusedConcat in H. check_inv H as Hc.
  bind_inv H as m0 Hm0.
  destruct metas as [|m rest]; [rewrite vec_at_nil in Hm0; discriminate|].
  rewrite vec_at_0 in Hm0. injection Hm0 as ->.
  pose proof (Forall_inv Hm) as H0. pose proof (Forall_inv_tail Hm) as Hrest.
  destruct (size (m0 :: rest) =? 1); [injection H as <-; exact H0|].
  cbn [concat_guard] in Hg. destruct Hg as (Hdim & Hrank & Hsum).
  pose proof (size_nonneg (shape m0)) as Hs.
  assert (Hnd : (if dim <? 0 then add64 dim (size (shape m0)) else dim)
                = normalize_dim dim (size (shape m0))).
  { unfold normalize_dim. destruct (Z.ltb_spec dim 0); [|reflexivity].
    unfold add64. apply wrap64_id.
    unfold int64, int64_min, int64_max in *. lia. }
  rewrite Hnd in H. set (nd := normalize_dim dim (size (shape m0))) in *.
  check_inv H as Hc2. apply andb_true_iff in Hc2 as [Hlt Hge].
  apply Z.ltb_lt in Hlt. apply Z.leb_le in Hge.
  cbn [drop] in H. cbn [map] in Hsum. rewrite sum_list_cons in Hsum.
  eapply fusedConcat_outer_nonneg; [| exact H0 | exact Hrest | | exact H].
  - unfold int64_max in Hrank. lia.
  - exact Hsum.
Qed.

(** The flag [negIndex] of the loop of reshape. *)
Lemma reshape_loop_inv (vals : list Z) (i s1 k s1' k' : Z) :
  reshape_loop vals i s1 k = Value (s1', k') -> 0 <= i -> k < i ->
  s1' = fold_left mul64 vals s1 /\
  (k <> -1 -> k' = k /\ Forall (fun v => v <> -1) vals) /\
  (k = -1 ->
   (k' = -1 /\ Forall (fun v => v <> -1) vals) \/
   (exists pre post,
      vals = pre ++ (-1) :: post /\ k' = i + size pre /\
      Forall (fun v => v <> -1) pre /\ Forall (fun v => v <> -1) post)).
Proof.
  revert i s1 k. induction vals as [|v rest IH]; intros i s1 k H Hi Hk.
  - cbn in H. injection H as <- <-. split; [reflexivity|].
    split; [intros _; split; [reflexivity|constructor]|].
    intros Hk1. left. split; [exact Hk1|constructor].
  - cbn [reshape_loop fold_left] in H |- *.
    destruct (v =? -1) eqn:Ev;
      [apply Z.eqb_eq in Ev as -> | apply Z.eqb_neq in Ev as Hv].
    + destruct (k =? -1) eqn:Ek; [apply Z.eqb_eq in Ek as ->|discriminate].
      apply IH in H as (Hs & Hne & _); [|lia|lia].
      destruct (Hne ltac:(lia)) as [-> Hrest].
      split; [exact Hs|]. split; [intros Hc; lia|].
      intros _. right. exists [], rest. size_norm.
      repeat split; [lia | constructor | exact Hrest].
    + apply IH in H as (Hs & Hne & Heq); [|lia|lia].
      split; [exact Hs|]. split.
      * intros Hk1. destruct (Hne Hk1) as [-> Hrest].
        split; [reflexivity|]. constructor; assumption.
      * intros Hk1. destruct (Heq Hk1)
          as [[-> Hrest]|(pre & post & -> & -> & Hpre & Hpost)].
        -- left. split; [reflexivity|]. constructor; assumption.
        -- right. exists (v :: pre), post. size_norm.
           repeat split; [lia | constructor; assumption | exact Hpost].
Qed.

Lemma explicit_nonneg (l : list Z) :
  Forall (fun v => v = -1 \/ 0 <= v) l -> Forall (fun v => v <> -1) l ->
  Forall (fun d => 0 <= d) l.
Proof.
  intros H1 H2. rewrite Forall_forall in *. intros x Hx.
  destruct (H1 x Hx); [exfalso; apply (H2 x Hx); assumption|assumption].
Qed.

Lemma reshape_nonneg (metas : MetaStack) (s : list Z) :
  nonneg_metas metas -> reshape_guard metas ->
  reshape metas = Value s -> nonneg_shape s.
Proof.
  intros Hm Hg H. unfold reshape in H. check_inv H as Hc.
  apply Z.eqb_eq, size_2_inv in Hc as (self & target & ->).
  rewrite vec_at_0, vec_at_1 in H. cbn [mbind Expected_bind] in H.
  bind_inv H as p Hp. destruct p as [s1 k].
  bind_inv H as r Hr. check_inv H as Hr0.
  cbn [reshape_guard] in Hg. destruct Hg as (Hp0 & Hvals & Hpabs & Hsz).
  apply Forall_inv in Hm.
  apply reshape_loop_inv in Hp as (Hs1 & _ & Hk); [|lia|lia].
  specialize (Hk eq_refl).
  destruct Hk as [[-> Hall]|(pre & post & Hv & -> & Hpre & Hpost)].
  - cbn in H. injection H as <-.
    apply explicit_nonneg; assumption.
  - pose proof (size_nonneg pre) as Hpre0.
    replace (0 + size pre =? -1) with false in H
      by (symmetry; apply Z.eqb_neq; lia).
    cbn [negb] in H. bind_inv H as q Hq.
    apply rem64_inv in Hr as [Hs1nz _].
    apply div64_inv in Hq as [_ ->].
    (* the two products *)
    pose proof (prod_list_nonneg _ Hm) as Hs0.
    rewrite fold_left_mul64 in H
      by (unfold int64, int64_min, int64_max; lia).
    rewrite fold_left_mul64 in Hs1
      by (unfold int64, int64_min, int64_max; lia).
    rewrite !Z.mul_1_l in *.
    rewrite (wrap64_id (prod_list (shape self))) in H
      by (unfold int64, int64_min, int64_max in *; lia).
    rewrite neg64_id in H by (unfold int64_min, int64_max in *; lia).
    rewrite <- prod_list_abs in Hpabs.
    rewrite wrap64_id in Hs1
      by (unfold int64, int64_min, int64_max in *; lia).
    subst s1.
    assert (Hneg : prod_list (intValue target) < 0).
    { assert (Hle : prod_list (intValue target) <= 0); [|lia].
      rewrite Hv in Hvals |- *.
      apply Forall_app in Hvals as [Hv1 Hv2]. apply Forall_inv_tail in Hv2.
      pose proof (prod_list_nonneg _ (explicit_nonneg _ Hv1 Hpre)).
      pose proof (prod_list_nonneg _ (explicit_nonneg _ Hv2 Hpost)).
      rewrite prod_list_app, prod_list_cons. nia. }
    assert (Hq0 : 0 <= Z.quot (- prod_list (shape self))
                          (prod_list (intValue target))).
    { rewrite <- (Z.opp_involutive (prod_list (intValue target))).
      rewrite Z.quot_opp_opp by lia. apply Z.quot_pos; lia. }
    rewrite Hv in Hsz. rewrite size_app, size_cons in Hsz.
    pose proof (size_nonneg post) as Hpost0.
    rewrite to_size_t_id in H by (unfold int64_max in Hsz; lia).
    apply vec_set_inv in H as [_ ->].
    rewrite Hv in Hvals, Hq0 |- *.
    replace (Z.to_nat (0 + size pre)) with (length pre + 0)%nat
      by (unfold size; lia).
    rewrite insert_app_r. cbn [insert list_insert].
    apply Forall_app in Hvals as [Hv1 Hv2]. apply Forall_inv_tail in Hv2.
    apply Forall_app. split; [apply explicit_nonneg; assumption|].
    constructor; [exact Hq0|apply explicit_nonneg; assumption].
Qed.

Lemma getNodeInputShape_loop_nonneg (ins : list JitValue)
    (sm : gmap JitValue VariableMeta) (acc metas : MetaStack) :
  nonneg_store sm -> nonneg_metas acc ->
  getNodeInputShape_loop ins sm acc = Value metas -> nonneg_metas metas.
Proof.
  intros Hsm. revert acc.
  induction ins as [|v ins IH]; intros acc Hacc H.
  - cbn in H. injection H as <-. exact Hacc.
  - cbn [getNodeInputShape_loop] in H.
    destruct (sm !! v) as [m|] eqn:E; [|discriminate].
    apply IH in H; [exact H|].
    apply Forall_app. split; [exact Hacc|].
    constructor; [|constructor]. exact (Hsm v m E).
Qed.

Lemma set_shape_nonneg (sm : gmap JitValue VariableMeta) (o : JitValue)
    (s : list Z) :
  nonneg_store sm -> nonneg_shape s -> nonneg_store (set_shape sm o s).
Proof.
  intros Hsm Hs. unfold set_shape, nonneg_store.
  apply map_Forall_insert_2; [exact Hs|exact Hsm].
Qed.

Lemma set_intValue_nonneg (sm : gmap JitValue VariableMeta) (o : JitValue)
    (l : list Z) :
  nonneg_store sm -> nonneg_store (set_intValue sm o l).
Proof.
  intros Hsm. unfold set_intValue, nonneg_store.
  apply map_Forall_insert_2; [|exact Hsm]. cbn.
  destruct (sm !! o) as [m|] eqn:E; cbn; [exact (Hsm o m E)|constructor].
Qed.

Lemma storeShapes_nonneg (outs : list (list Z)) (os : list JitValue) (i : Z)
    (sm sm' : gmap JitValue VariableMeta) :
  Forall nonneg_shape outs -> nonneg_store sm ->
  storeShapes outs os i sm = Value sm' -> nonneg_store sm'.
Proof.
  intros Houts. revert i sm.
  induction os as [|o os IH]; intros i sm Hsm H.
  - cbn in H. injection H as <-. exact Hsm.
  - cbn [storeShapes] in H. bind_inv H as s Hs.
    apply IH in H; [exact H|]. apply set_shape_nonneg; [exact Hsm|].
    apply vec_at_elem in Hs. rewrite Forall_forall in Houts. auto.
Qed.

Lemma one_nonneg (r : Expected (list Z)) (outs : list (list Z)) :
  (forall s, r = Value s -> nonneg_shape s) ->
  (s ← r; Value [s]) = Value outs -> Forall nonneg_shape outs.
Proof.
  intros Hr H. bind_inv H as s Hs. injection H as <-.
  constructor; [apply Hr, Hs|constructor].
Qed.

Create HintDb nonneg_rules.

#[local] Hint Resolve fusedStack_nonneg embeddingBagByteRowwiseOffsets_nonneg
  binaryOp_nonneg mm_nonneg addmm_nonneg bmm_nonneg fusedConcat_nonneg
  slice_nonneg reshape_nonneg permute_nonneg embeddingBag_nonneg
  : nonneg_rules.

Lemma nodeRule_nonneg (adj : bool) (node : Node) (metas : MetaStack)
    (outs : list (list Z)) :
  nonneg_metas metas -> dims_guard adj node metas ->
  kind node <> prim_ListConstruct ->
  (kind node = prim_Constant -> output_type node = TensorType) ->
  nodeRule adj node metas = Value outs -> Forall nonneg_shape outs.
Proof.
  intros Hm Hg Hlist Hconst H. unfold nodeRule, dims_guard in *.
  destruct (kind node) eqn:K; try (discriminate || congruence);
    try (eapply unary_nonneg; [exact Hm|exact H]);
    try (eapply constantChunk_nonneg; [exact Hm|exact Hg|exact H]);
    try (eapply one_nonneg; [|exact H]; intros s;
         solve [eauto with nonneg_rules]).
  eapply one_nonneg; [|exact H]. intros s Hs.
  unfold primConstant in Hs. bind_inv Hs as o Ho.
  rewrite (Hconst eq_refl) in Hs. injection Hs as <-. exact Hg.
Qed.

Lemma shapeOnNode_nonneg (node : Node) (e e' : Engine) :
  nonneg_store (shapeMap_ e) ->
  (forall metas,
     getNodeInputShape node (shapeMap_ e) = Value metas ->
     dims_guard (hasEndOffset_ e) node metas) ->
  shapeOnNode node e = (Value tt, e') -> nonneg_store (shapeMap_ e').
Proof.
  intros Hsm Hg H. unfold shapeOnNode in H.
  destruct (_ ≫= _) as [sm'| |] eqn:E; try discriminate.
  injection H as <-. cbn [shapeMap_ with_shapeMap].
  bind_inv E as metas Hmetas. bind_inv E as outs Houts.
  specialize (Hg metas Hmetas).
  assert (Hm : nonneg_metas metas).
  { eapply getNodeInputShape_loop_nonneg; [exact Hsm| |exact Hmetas].
    constructor. }
  unfold storeOutputs in E.
  destruct (decide (kind node = prim_Constant)) as [Kc|Kc].
  { bind_inv E as o Ho. bind_inv E as s Hs.
    destruct (output_type node) eqn:T;
      try (injection E as <-; apply set_intValue_nonneg, set_shape_nonneg;
           [exact Hsm|repeat constructor; lia]).
    injection E as <-. apply set_shape_nonneg; [exact Hsm|].
    assert (Houts' : Forall nonneg_shape outs).
    { eapply nodeRule_nonneg; [exact Hm|exact Hg|congruence| |exact Houts].
      intros _. exact T. }
    apply vec_at_elem in Hs. rewrite Forall_forall in Houts'. auto. }
  destruct (decide (kind node = prim_ListConstruct)) as [Kl|Kl].
  { bind_inv E as o Ho. bind_inv E as s Hs. injection E as <-.
    apply set_intValue_nonneg, set_shape_nonneg; [exact Hsm|].
    repeat constructor; [apply size_nonneg|lia]. }
  assert (Houts' : Forall nonneg_shape outs).
  { eapply nodeRule_nonneg; [exact Hm|exact Hg|exact Kl| |exact Houts].
    intros K. contradiction. }
  destruct (decide (kind node = aten_embedding_bag)) as [Ke|Ke].
  { bind_inv E as o Ho. bind_inv E as s Hs. injection E as <-.
    apply set_shape_nonneg; [exact Hsm|].
    apply vec_at_elem in Hs. rewrite Forall_forall in Houts'. auto. }
  eapply storeShapes_nonneg; [exact Houts'|exact Hsm|exact E].
Qed.

Lemma getGraphIntputShape_loop_nonneg (ins : list IValue) (i : Z)
    (gins : list JitValue) (sm : gmap JitValue VariableMeta) :
  Forall nonneg_input ins -> nonneg_store sm ->
  nonneg_store (snd (getGraphIntputShape_loop ins i gins sm)).
Proof.
  intros Hins. revert i sm.
  induction Hins as [|input ins Hin _ IH]; intros i sm Hsm.
  - exact Hsm.
  - cbn [getGraphIntputShape_loop].
    destruct (vec_at gins i) as [g|msg args|f]; [|exact Hsm|exact Hsm].
    assert (H0 : nonneg_store (set_intValue (set_shape sm g []) g [])).
    { apply set_intValue_nonneg, set_shape_nonneg; [exact Hsm|constructor]. }
    destruct input as [sizes|b|v|l|]; cbn [snd].
    + apply IH, set_shape_nonneg; [exact H0|exact Hin].
    + apply IH, set_intValue_nonneg, set_shape_nonneg; [exact H0|].
      repeat constructor. lia.
    + apply IH, set_intValue_nonneg, set_shape_nonneg; [exact H0|].
      repeat constructor. lia.
    + apply IH, set_intValue_nonneg, set_shape_nonneg; [exact H0|].
      repeat constructor; [apply size_nonneg|lia].
    + exact H0.
Qed.

Lemma run_nodes_nonneg (nodes : list Node) (e e' : Engine) :
  nonneg_store (shapeMap_ e) -> guarded nodes e ->
  run_nodes nodes e = (Value tt, e') -> nonneg_store (shapeMap_ e').
Proof.
  revert e. induction nodes as [|node rest IH]; intros e Hsm Hg H.
  - cbn in H. injection H as <-. exact Hsm.
  - cbn [run_nodes] in H. cbn [guarded] in Hg. destruct Hg as [Hg1 Hg2].
    destruct (shapeOnNode node e) as [[[]|msg args|f] e1] eqn:E;
      [|discriminate|discriminate].
    apply (IH e1); [|apply Hg2; reflexivity|exact H].
    eapply shapeOnNode_nonneg; [exact Hsm|exact Hg1|exact E].
Qed.

Lemma generateGraphOutputShape_loop_nonneg (outs : list JitValue)
    (sm : gmap JitValue VariableMeta) (acc os : list (list Z)) :
  nonneg_store sm -> Forall nonneg_shape acc ->
  generateGraphOutputShape_loop outs sm acc = Value os ->
  Forall nonneg_shape os.
Proof.
  intros Hsm. revert acc.
  induction outs as [|o outs IH]; intros acc Hacc H.
  - cbn in H. injection H as <-. exact Hacc.
  - cbn [generateGraphOutputShape_loop] in H.
    destruct (sm !! o) as [m|] eqn:E; [|discriminate].
    apply IH in H; [exact H|].
    apply Forall_app. split; [exact Hacc|].
    constructor; [exact (Hsm o m E)|constructor].
Qed.

(** C9, as amended.  After a successful run on an engine whose tensor
    inputs have non-negative sizes and whose nodes meet [dims_guard] when
    they are processed (a chunk count that leaves the last chunk
    non-negative, a reshape target without negative explicit entries, a
    positive slice step, offsets no shorter than the end-offset adjustment,
    literal tensors of non-negative sizes, and no overflow of the 64-bit
    arithmetic), every shape in the map and every graph output shape has
    non-negative dimensions only. *)
Theorem run_stores_nonneg_dims (graph : Graph) (inputs : list IValue)
    (flag : bool) :
  let e := ShapeInferenceEngine graph inputs flag in
  Forall nonneg_input inputs ->
  guarded (g_nodes graph) (snd (getGraphIntputShape e)) ->
  fst (run e) = Value tt ->
  nonneg_store (shapeMap_ (snd (run e))) /\
  Forall nonneg_shape (getGraphOutputShape (snd (run e))).
Proof.
  intros e Hins Hg Hrun. unfold run in *.
  destruct (negb _); [discriminate|].
  pose proof (getGraphIntputShape_frame e) as [Ho1 Hgr1].
  assert (Hsm1 : nonneg_store (shapeMap_ (snd (getGraphIntputShape e)))).
  { unfold getGraphIntputShape.
    pose proof (getGraphIntputShape_loop_nonneg (inputs_ e) 0
                  (g_inputs (graph_ e)) (shapeMap_ e) Hins) as H.
    destruct (getGraphIntputShape_loop _ _ _ _) as [r sm]. cbn in *.
    apply H. apply map_Forall_empty. }
  destruct (getGraphIntputShape e) as [[[]|msg args|f] e1];
    cbn [fst snd] in *; try discriminate.
  rewrite Hgr1 in *. cbn [graph_ e ShapeInferenceEngine] in *.
  pose proof (run_nodes_nonneg (g_nodes graph) e1) as Hnodes.
  pose proof (run_nodes_frame (g_nodes graph) e1) as (Ho2 & Hgr2 & _).
  destruct (run_nodes (g_nodes graph) e1) as [[[]|msg args|f] e2];
    cbn [fst snd] in *; try discriminate.
  specialize (Hnodes e2 Hsm1 Hg eq_refl).
  unfold generateGraphOutputShape, getGraphOutputShape in *.
  pose proof (generateGraphOutputShape_loop_nonneg
                (g_outputs (graph_ e2)) (shapeMap_ e2) (outputShape_ e2))
    as Hgen.
  destruct (generateGraphOutputShape_loop _ _ _) as [os|msg args|f];
    cbn [fst snd] in *; try discriminate.
  cbn [shapeMap_ outputShape_]. split; [exact Hnodes|].
  apply (Hgen os Hnodes); [|reflexivity].
  rewrite Ho2, Ho1. constructor.
Qed.

Lemma run_stores_nonneg_dims_witness :
  let node :=
    mkNode prim_ConstantChunk [0%nat] [1%nat; 2%nat; 3%nat] TensorType
      0 3 0 [] in
  let e :=
    ShapeInferenceEngine (mkGraph [0%nat] [1%nat; 2%nat; 3%nat] [node])
      [IVTensor [10]] true in
  nonneg_store (shapeMap_ (snd (run e))) /\
  Forall nonneg_shape (getGraphOutputShape (snd (run e))).
Proof.
  intros node e.
  apply (run_stores_nonneg_dims
           (mkGraph [0%nat] [1%nat; 2%nat; 3%nat] [node])
           [IVTensor [10]] true).
  - repeat constructor. lia.
  - split.
    + intros metas H. vm_compute in H. injection H as <-.
      unfold dims_guard, chunk_guard, node. cbn [kind attr_chunks attr_dim].
      unfold int64, int64_min, int64_max, int_max.
      repeat split; try (vm_compute; intro; discriminate).
    + intros e' _. exact I.
  - reflexivity.
Defined.

(** C9 as stated does not hold: a run over non-negative input sizes
    succeeds and stores a negative dimension for the last chunk when the
    chunk count exceeds the size of the dimension, and reshape returns the
    negative explicit entries of its target. *)
Lemma negative_dimension_counterexample :
  let node :=
    mkNode prim_ConstantChunk [0%nat] [1%nat; 2%nat; 3%nat; 4%nat] TensorType
      0 4 0 [] in
  let e :=
    ShapeInferenceEngine (mkGraph [0%nat] [4%nat] [node]) [IVTensor [2]] true in
  fst (run e) = Value tt /\
  shapeMap_ (snd (run e)) !! 4%nat = Some (mkMeta [-1] []) /\
  getGraphOutputShape (snd (run e)) = [[-1]] /\
  ~ nonneg_store (shapeMap_ (snd (run e))) /\
  reshape [mkMeta [6] []; mkMeta [2; 1] [-2; -3]] = Value [-2; -3].
Proof.
  intros node e.
  assert (H4 : shapeMap_ (snd (run e)) !! 4%nat = Some (mkMeta [-1] []))
    by reflexivity.
  repeat split; try reflexivity.
  intros Hnn. specialize (Hnn _ _ H4). cbn in Hnn.
  apply Forall_inv in Hnn. lia.
Qed.

(** ** listConstruct and the scalar-carrier check *)

Lemma listConstruct_loop_carriers (metas : MetaStack) (vals acc : list Z) :
  Forall2 scalar_carrier metas vals ->
  listConstruct_loop metas acc = Value (acc ++ vals).
Proof.
  intros H. revert acc.
  induction H as [|m v metas vals [Hm Hv] _ IH]; intros acc.
  - cbn. rewrite app_nil_r. reflexivity.
  - cbn [listConstruct_loop]. exp_simpl.
    rewrite (scalar_carrier_at m v (conj Hm Hv)). cbn [mbind Expected_bind].
    rewrite IH, <- app_assoc. reflexivity.
Qed.

(** On scalar carriers the list-construction rule returns their values. *)
Lemma listConstruct_carriers (metas : MetaStack) (vals : list Z) :
  metas <> [] -> Forall2 scalar_carrier metas vals ->
  listConstruct metas = Value vals.
Proof.
  intros Hne H. unfold listConstruct.
  destruct metas as [|m metas]; [contradiction|].
  pose proof (size_nonneg metas). exp_simpl.
  apply (listConstruct_loop_carriers _ _ [] H).
Qed.

(** An entry with a shape of length 1 and no value passes the check of the
    rule and is then read outside its (empty) [intValue]. *)
Lemma listConstruct_empty_intValue (pre post : MetaStack)
    (ele : VariableMeta) (vals : list Z) :
  Forall2 scalar_carrier pre vals ->
  size (shape ele) = 1 -> intValue ele = [] ->
  listConstruct (pre ++ ele :: post) = Crash OutOfRange.
Proof.
  intros Hpre Hshape Hval. unfold listConstruct.
  assert ((1 <=? size (pre ++ ele :: post)) = true) as ->.
  { rewrite size_app, size_cons.
    pose proof (size_nonneg pre). pose proof (size_nonneg post). lia. }
  cbn [RETURN_ERR_IF_NOT mbind Expected_bind].
  generalize (@nil Z) as acc.
  induction Hpre as [|m v pre vals [Hm Hv] _ IH]; intros acc.
  - cbn [app listConstruct_loop]. exp_simpl. rewrite Hval, vec_at_nil.
    reflexivity.
  - cbn [app listConstruct_loop]. exp_simpl.
    rewrite (scalar_carrier_at m v (conj Hm Hv)). cbn [mbind Expected_bind].
    apply IH.
Qed.

(** C10.  A graph input bound to a one-element tensor is stored with shape
    {1} and an empty [intValue]; the list-construction rule and the slice
    rule accept it as an integer and read the first element of the empty
    sequence. *)
Theorem carrier_check_admits_empty_intValue :
  let list_node :=
    mkNode prim_ListConstruct [0%nat] [1%nat] OtherType 0 0 0 [] in
  let e1 :=
    ShapeInferenceEngine (mkGraph [0%nat] [1%nat] [list_node])
      [IVTensor [1]] true in
  let slice_node :=
    mkNode aten_slice [0%nat; 1%nat; 2%nat; 3%nat; 4%nat] [5%nat]
      TensorType 0 0 0 [] in
  let e2 :=
    ShapeInferenceEngine
      (mkGraph [0%nat; 1%nat; 2%nat; 3%nat; 4%nat] [5%nat] [slice_node])
      [IVTensor [10]; IVInt 0; IVInt 0; IVTensor [1]; IVInt 1] true in
  shapeMap_ (snd (getGraphIntputShape e1)) !! 0%nat = Some (mkMeta [1] []) /\
  listConstruct [mkMeta [1] []] = Crash OutOfRange /\
  fst (run e1) = Crash OutOfRange /\
  slice [mkMeta [10] []; mkMeta [1] [0]; mkMeta [1] [0]; mkMeta [1] [];
         mkMeta [1] [1]] = Crash OutOfRange /\
  fst (run e2) = Crash OutOfRange.
Proof. repeat split; reflexivity. Qed.

(** * Further properties of the rules and of the engine *)

(** ** mm and bmm: results, failures, composition *)

(** [exp_simpl] in a hypothesis. *)
Ltac exp_simpl_in H :=
  repeat (progress (
    rewrite ?size_cons, ?vec_at_0, ?vec_at_1, ?vec_at_2, ?vec_at_3,
      ?vec_at_4, ?vec_at_nil in H;
    unfold RETURN_ERR_IF_NOT, orelse in H;
    cbn [mbind Expected_bind mret Expected_ret negb andb orb
         shape intValue fst snd] in H)).

Lemma mm_inv (metas : MetaStack) (s : list Z) :
  mm metas = Value s <->
  exists (m0 m1 : VariableMeta) (a b c : Z),
    metas = [m0; m1] /\ shape m0 = [a; b] /\ shape m1 = [b; c] /\ s = [a; c].
Proof.
  split.
  - intros H. unfold mm in H. check_inv H as Hc.
    apply Z.eqb_eq, size_2_inv in Hc as (m0 & m1 & ->).
    exp_simpl_in H.
    destruct (size (shape m1) =? 2) eqn:E1; [|discriminate].
    destruct (size (shape m0) =? 2) eqn:E0; [|discriminate].
    apply Z.eqb_eq, size_2_inv in E1 as (b' & c & E1).
    apply Z.eqb_eq, size_2_inv in E0 as (a & b & E0).
    rewrite E0, E1 in H. exp_simpl_in H.
    destruct (b =? b') eqn:Eb; [|discriminate].
    apply Z.eqb_eq in Eb as <-.
    cbn [negb] in H. injection H as <-.
    exists m0, m1, a, b, c. repeat split; assumption.
  - intros (m0 & m1 & a & b & c & -> & H0 & H1 & ->).
    unfold mm. exp_simpl. rewrite H0, H1. exp_simpl. reflexivity.
Qed.

Lemma mm_no_crash (metas : MetaStack) (f : Fault) : mm metas <> Crash f.
Proof.
  unfold mm.
  destruct (size metas =? 2) eqn:E; [|discriminate].
  apply Z.eqb_eq, size_2_inv in E as (m0 & m1 & ->). exp_simpl.
  destruct (size (shape m1) =? 2) eqn:E1; [|discriminate].
  destruct (size (shape m0) =? 2) eqn:E0; [|discriminate].
  apply Z.eqb_eq, size_2_inv in E1 as (b' & c & ->).
  apply Z.eqb_eq, size_2_inv in E0 as (a & b & ->).
  exp_simpl. destruct (b =? b'); exp_simpl; discriminate.
Qed.

(** X1.  The matrix-product rule returns a shape exactly on two inputs of
    rank 2 whose inner sizes agree, the shape being {rows of the first,
    columns of the second}; on every other input it reports an error: it
    never reads outside a vector. *)
Theorem mm_value_iff (metas : MetaStack) (s : list Z) :
  (mm metas = Value s <->
   exists (m0 m1 : VariableMeta) (a b c : Z),
     metas = [m0; m1] /\ shape m0 = [a; b] /\ shape m1 = [b; c] /\
     s = [a; c]) /\
  (forall f : Fault, mm metas <> Crash f).
Proof. split; [apply mm_inv | apply mm_no_crash]. Qed.

Lemma mm_value_iff_witness :
  mm [mkMeta [2; 3] []; mkMeta [3; 4] []] = Value [2; 4].
Proof.
  refine (proj2 (proj1 (mm_value_iff _ _)) _).
  exists (mkMeta [2; 3] []), (mkMeta [3; 4] []), 2, 3, 4. repeat split.
Defined.

Lemma bmm_inv (metas : MetaStack) (s : list Z) :
  bmm metas = Value s <->
  exists (m0 m1 : VariableMeta) (n a b c : Z),
    metas = [m0; m1] /\ shape m0 = [n; a; b] /\ shape m1 = [n; b; c] /\
    s = [n; a; c].
Proof.
  split.
  - intros H. unfold bmm in H.
    destruct (size metas =? 2) eqn:Hc; [|discriminate].
    apply Z.eqb_eq, size_2_inv in Hc as (m0 & m1 & ->).
    exp_simpl_in H.
    destruct (size (shape m0) =? 3) eqn:E0; [|discriminate].
    destruct (size (shape m1) =? 3) eqn:E1; [|discriminate].
    apply Z.eqb_eq in E0, E1.
    destruct (shape m0) as [|n [|a [|b [|x t0]]]] eqn:S0;
      revert E0; size_norm; try (pose proof (size_nonneg t0)); try lia.
    intros _.
    destruct (shape m1) as [|n' [|b' [|c [|y t1]]]] eqn:S1;
      revert E1; size_norm; try (pose proof (size_nonneg t1)); try lia.
    intros _.
    exp_simpl_in H.
    destruct (n =? n') eqn:En; [|discriminate].
    apply Z.eqb_eq in En as <-. cbn [negb] in H.
    destruct (b =? b') eqn:Eb; [|discriminate].
    apply Z.eqb_eq in Eb as <-. cbn [negb] in H. injection H as <-.
    exists m0, m1, n, a, b, c. repeat split; assumption.
  - intros (m0 & m1 & n & a & b & c & -> & H0 & H1 & ->).
    unfold bmm. exp_simpl. rewrite H0, H1. exp_simpl. reflexivity.
Qed.

(** X2.  The batched matrix-product rule is the matrix-product rule under a
    common batch size: it returns a shape exactly on two inputs of rank 3
    with the same leading size whose remaining two dimensions the
    matrix-product rule accepts, and the result is that leading size
    followed by the matrix-product shape. *)
Theorem bmm_batches_mm (metas : MetaStack) (s : list Z) :
  bmm metas = Value s <->
  exists (m0 m1 : VariableMeta) (n : Z) (t0 t1 p : list Z),
    metas = [m0; m1] /\ shape m0 = n :: t0 /\ shape m1 = n :: t1 /\
    mm [mkMeta t0 []; mkMeta t1 []] = Value p /\ s = n :: p.
Proof.
  rewrite bmm_inv. split.
  - intros (m0 & m1 & n & a & b & c & -> & H0 & H1 & ->).
    exists m0, m1, n, [a; b], [b; c], [a; c].
    repeat split; try assumption.
    apply mm_inv. exists (mkMeta [a; b] []), (mkMeta [b; c] []), a, b, c.
    repeat split.
  - intros (m0 & m1 & n & t0 & t1 & p & -> & H0 & H1 & Hp & ->).
    apply mm_inv in Hp as (x0 & x1 & a & b & c & Hx & Ha & Hb & ->).
    injection Hx as <- <-. cbn [shape] in Ha, Hb. subst t0 t1.
    exists m0, m1, n, a, b, c. repeat split; assumption.
Qed.

Lemma bmm_batches_mm_witness :
  bmm [mkMeta [5; 2; 3] []; mkMeta [5; 3; 4] []] = Value [5; 2; 4].
Proof.
  refine (proj2 (bmm_batches_mm _ _) _).
  exists (mkMeta [5; 2; 3] []), (mkMeta [5; 3; 4] []), 5, [2; 3], [3; 4],
    [2; 4].
  repeat split.
Defined.

(** X3.  The shape of a chain of two matrix products does not depend on the
    bracketing: when A*B and B*C have shapes, (A*B)*C and A*(B*C) have the
    same shape, {rows of A, columns of C}. *)
Theorem mm_chain_bracketing (A B C : VariableMeta) (sAB sBC : list Z) :
  mm [A; B] = Value sAB -> mm [B; C] = Value sBC ->
  exists a d : Z,
    shape A !! 0%nat = Some a /\ shape C !! 1%nat = Some d /\
    mm [mkMeta sAB []; C] = Value [a; d] /\
    mm [A; mkMeta sBC []] = Value [a; d].
Proof.
  intros H1 H2.
  apply mm_inv in H1 as (x0 & x1 & a & b & c & Hx & Ha & Hb & ->).
  injection Hx as <- <-.
  apply mm_inv in H2 as (y0 & y1 & b' & c' & d & Hy & Hb' & Hc & ->).
  injection Hy as <- <-.
  rewrite Hb in Hb'. injection Hb' as <- <-.
  exists a, d. rewrite Ha, Hc. repeat split.
  - apply mm_inv. exists (mkMeta [a; c] []), C, a, c, d. repeat split.
    exact Hc.
  - apply mm_inv. exists A, (mkMeta [b; d] []), a, b, d. repeat split.
    exact Ha.
Qed.

Lemma mm_chain_bracketing_witness :
  exists a d : Z,
    [2; 3] !! 0%nat = Some a /\ [4; 5] !! 1%nat = Some d /\
    mm [mkMeta [2; 4] []; mkMeta [4; 5] []] = Value [a; d] /\
    mm [mkMeta [2; 3] []; mkMeta [3; 5] []] = Value [a; d].
Proof.
  exact (mm_chain_bracketing (mkMeta [2; 3] []) (mkMeta [3; 4] [])
           (mkMeta [4; 5] []) [2; 4] [3; 5] eq_refl eq_refl).
Defined.

(** ** permute: the gathered sizes, rearrangement, inverse orders *)

Lemma permute_loop_inv (dims : list Z) (self out out' : list Z) :
  size self <= int64_max ->
  permute_loop dims (size self) self out = Value out' <->
  exists res, out' = out ++ res /\ gathered self dims res.
Proof.
  intros Hmax. unfold int64_max in Hmax. revert out.
  induction dims as [|d dims IH]; intros out.
  - cbn [permute_loop]. split.
    + intros [= <-]. exists []. rewrite app_nil_r. split; [reflexivity|].
      constructor.
    + intros (res & -> & Hres). inversion Hres. rewrite app_nil_r.
      reflexivity.
  - cbn [permute_loop]. unfold RETURN_ERR_IF_NOT.
    destruct (Z.leb_spec 0 d) as [H0|H0]; cbn [mbind Expected_bind].
    2:{ split; [discriminate|]. intros (res & _ & Hres).
        inversion Hres; subst. lia. }
    destruct (Z.ltb_spec d (size self)) as [H1|H1]; cbn [mbind Expected_bind].
    2:{ split; [discriminate|]. intros (res & _ & Hres).
        inversion Hres as [|? x ? ? [_ Hx]]; subst.
        apply lookup_lt_Some in Hx. unfold size in H1. lia. }
    rewrite to_size_t_id by lia.
    destruct (lookup_lt_is_Some_2 self (Z.to_nat d)) as [x Hx].
    { unfold size in H1. lia. }
    rewrite (proj2 (vec_at_Value self d x)) by (split; [lia|exact Hx]).
    cbn [mbind Expected_bind]. rewrite IH. split.
    + intros (res & -> & Hres). exists (x :: res).
      rewrite <- app_assoc. split; [reflexivity|].
      constructor; [split; [lia|exact Hx] | exact Hres].
    + intros (res & -> & Hres).
      inversion Hres as [|? y ? res' [_ Hy] Hres']; subst.
      rewrite Hx in Hy. injection Hy as <-.
      exists res'. rewrite <- app_assoc. split; [reflexivity|exact Hres'].
Qed.

Lemma permute_loop_no_crash (dims : list Z) (self out : list Z) (f : Fault) :
  size self <= int64_max ->
  permute_loop dims (size self) self out <> Crash f.
Proof.
  intros Hmax. unfold int64_max in Hmax. revert out.
  induction dims as [|d dims IH]; intros out; [discriminate|].
  cbn [permute_loop]. unfold RETURN_ERR_IF_NOT.
  destruct (Z.leb_spec 0 d) as [H0|H0]; cbn [mbind Expected_bind];
    [|discriminate].
  destruct (Z.ltb_spec d (size self)) as [H1|H1]; cbn [mbind Expected_bind];
    [|discriminate].
  rewrite to_size_t_id by lia.
  destruct (lookup_lt_is_Some_2 self (Z.to_nat d)) as [x Hx].
  { unfold size in H1. lia. }
  rewrite (proj2 (vec_at_Value self d x)) by (split; [lia|exact Hx]).
  cbn [mbind Expected_bind]. apply IH.
Qed.

Lemma permute_inv (self order : VariableMeta) (s : list Z) :
  size (shape self) <= int64_max ->
  permute [self; order] = Value s <->
  size (intValue order) = size (shape self) /\
  gathered (shape self) (intValue order) s.
Proof.
  intros Hmax. unfold permute. exp_simpl.
  destruct (Z.eqb_spec (size (shape self)) (size (intValue order)))
    as [Heq|Hne]; cbn [mbind Expected_bind].
  - rewrite permute_loop_inv by exact Hmax. split.
    + intros (res & -> & Hres). split; [lia|exact Hres].
    + intros [_ Hres]. exists s. split; [reflexivity|exact Hres].
  - split; [discriminate|]. intros [Heq _]. lia.
Qed.

(** X4.  The permute rule on a tensor and an order list returns a shape
    exactly when the order has as many entries as the tensor has axes and
    each entry is an axis of the tensor; the shape lists the sizes of those
    axes in the order given. Entries may repeat: the rule does not ask for a
    permutation. On every other pair it reports an error. *)
Theorem permute_value_iff (self order : VariableMeta) (s : list Z) :
  size (shape self) <= int64_max ->
  (permute [self; order] = Value s <->
   size (intValue order) = size (shape self) /\
   gathered (shape self) (intValue order) s) /\
  (forall f : Fault, permute [self; order] <> Crash f).
Proof.
  intros Hmax. split; [apply permute_inv; exact Hmax|].
  intros f. unfold permute. exp_simpl.
  destruct (size (shape self) =? size (intValue order));
    cbn [mbind Expected_bind]; [|discriminate].
  apply permute_loop_no_crash. exact Hmax.
Qed.

Lemma permute_value_iff_witness :
  permute [mkMeta [2; 3; 4] []; mkMeta [3; 1] [2; 0; 0]] = Value [4; 2; 2].
Proof.
  refine (proj2 (proj1 (permute_value_iff (mkMeta [2; 3; 4] [])
                          (mkMeta [3; 1] [2; 0; 0]) [4; 2; 2] _)) _).
  - vm_compute. discriminate.
  - split; [reflexivity|].
    repeat constructor; vm_compute; discriminate.
Defined.

Lemma prod_list_Permutation (l k : list Z) :
  l ≡ₚ k -> prod_list l = prod_list k.
Proof.
  induction 1 as [|x l k _ IH|x y l|l k m _ IH1 _ IH2];
    rewrite ?prod_list_cons; lia.
Qed.

Lemma gathered_fmap (self order s : list Z) :
  gathered self order s ->
  s = (fun k : nat => default 0 (self !! k)) <$> (Z.to_nat <$> order).
Proof.
  induction 1 as [|d x order s [_ Hx] _ IH]; [reflexivity|].
  cbn [fmap list_fmap]. rewrite Hx. cbn [default]. f_equal. exact IH.
Qed.

Lemma fmap_lookup_seq (self : list Z) :
  (fun k : nat => default 0 (self !! k)) <$> seq 0 (length self) = self.
Proof.
  apply list_eq. intros i. rewrite list_lookup_fmap.
  destruct (decide (i < length self)%nat) as [Hlt|Hge].
  - rewrite lookup_seq_lt by exact Hlt. cbn.
    destruct (lookup_lt_is_Some_2 self i Hlt) as [x Hx].
    rewrite Hx. reflexivity.
  - rewrite lookup_seq_ge by lia. rewrite lookup_ge_None_2 by lia.
    reflexivity.
Qed.

(** X5.  When the order list of a permute node has no repeated entry, the
    returned shape is a rearrangement of the input shape: the same sizes,
    each as often, and so the same number of elements. *)
Theorem permute_rearranges (self order : VariableMeta) (s : list Z) :
  size (shape self) <= int64_max ->
  NoDup (intValue order) ->
  permute [self; order] = Value s ->
  s ≡ₚ shape self /\ prod_list s = prod_list (shape self).
Proof.
  intros Hmax Hnd H. apply permute_inv in H as [Hlen Hg]; [|exact Hmax].
  assert (Hperm : s ≡ₚ shape self).
  { rewrite (gathered_fmap _ _ _ Hg).
    transitivity ((fun k : nat => default 0 (shape self !! k))
                    <$> seq 0 (length (shape self)));
      [|rewrite fmap_lookup_seq; reflexivity].
    apply fmap_Permutation.
    apply submseteq_length_Permutation.
    - apply NoDup_submseteq.
      + apply NoDup_fmap_2_strong; [|exact Hnd].
        intros x y Hx Hy Hxy.
        apply list_elem_of_lookup in Hx as [i Hi], Hy as [j Hj].
        destruct (Forall2_lookup_l _ _ _ _ _ Hg Hi) as (? & _ & Hx0 & _).
        destruct (Forall2_lookup_l _ _ _ _ _ Hg Hj) as (? & _ & Hy0 & _).
        lia.
      + intros k Hk. apply list_elem_of_fmap in Hk as (d & -> & Hd).
        apply list_elem_of_lookup in Hd as [i Hi].
        destruct (Forall2_lookup_l _ _ _ _ _ Hg Hi) as (x & _ & _ & Hx).
        apply lookup_lt_Some in Hx. apply elem_of_seq. lia.
    - rewrite length_seq, length_fmap. unfold size in Hlen. lia. }
  split; [exact Hperm | apply prod_list_Permutation; exact Hperm].
Qed.

Lemma permute_rearranges_witness :
  [4; 2; 3] ≡ₚ [2; 3; 4] /\ prod_list [4; 2; 3] = prod_list [2; 3; 4].
Proof.
  refine (permute_rearranges (mkMeta [2; 3; 4] [])
            (mkMeta [3; 1] [2; 0; 1]) [4; 2; 3] _ _ _).
  - vm_compute. discriminate.
  - apply (bool_decide_unpack _). vm_compute. exact I.
  - reflexivity.
Defined.

(** X6.  Permuting by an order and then by its inverse gives the input shape
    back: when [inv] names, for each axis [i] of the input, the position at
    which [order] holds [i], the permute rule applied to the permuted shape
    and [inv] returns the shape of the input. *)
Theorem permute_inverse_round_trip (self order inv : VariableMeta)
    (s : list Z) :
  size (shape self) <= int64_max ->
  permute [self; order] = Value s ->
  size (intValue inv) = size (shape self) ->
  (forall (i : nat) (k : Z),
     intValue inv !! i = Some k ->
     0 <= k /\ intValue order !! Z.to_nat k = Some (Z.of_nat i)) ->
  permute [mkMeta s []; inv] = Value (shape self).
Proof.
  intros Hmax H Hlen Hinv. apply permute_inv in H as [Hlo Hg]; [|exact Hmax].
  pose proof (Forall2_length _ _ _ Hg) as Hls.
  apply permute_inv; cbn [shape].
  { unfold size in *. lia. }
  split; [unfold size in *; lia|].
  apply Forall2_same_length_lookup. split; [unfold size in *; lia|].
  intros i k x Hk Hx. destruct (Hinv i k Hk) as [H0 Hord].
  split; [exact H0|].
  destruct (Forall2_lookup_l _ _ _ _ _ Hg Hord) as (y & Hy & _ & Hself).
  rewrite Nat2Z.id in Hself. rewrite Hy. congruence.
Qed.

Lemma permute_inverse_round_trip_witness :
  permute [mkMeta [4; 2; 3] []; mkMeta [3; 1] [1; 2; 0]] = Value [2; 3; 4].
Proof.
  refine (permute_inverse_round_trip (mkMeta [2; 3; 4] [])
            (mkMeta [3; 1] [2; 0; 1]) (mkMeta [3; 1] [1; 2; 0]) [4; 2; 3]
            _ _ _ _).
  - vm_compute. discriminate.
  - reflexivity.
  - reflexivity.
  - intros [|[|[|i]]] k Hk; cbn in Hk; try discriminate;
      injection Hk as <-; (split; [lia|reflexivity]).
Defined.

(** ** fusedStack: the added axis *)

Lemma fusedStack_loop_closed (metas : MetaStack) (out : list Z) :
  fusedStack_loop metas out =
    if same_shapes out metas then Value tt
    else MakeErr "All inputs must have same shape" [].
Proof.
  induction metas as [|m metas IH]; [reflexivity|].
  cbn [fusedStack_loop same_shapes forallb]. unfold RETURN_ERR_IF_NOT.
  destruct (bool_decide (shape m = out)); cbn [mbind Expected_bind andb];
    [exact IH | reflexivity].
Qed.

Lemma fusedStack_closed (m0 : VariableMeta) (rest : MetaStack) (dim : Z) :
  rest <> [] -> int64 dim -> size (shape m0) < int64_max ->
  let r := size (shape m0) in
  let nd := stack_dim dim r in
  fusedStack (m0 :: rest) dim =
    if (0 <=? nd) && (nd <=? r) then
      if same_shapes (shape m0) rest then
        Value (take (Z.to_nat nd) (shape m0)
               ++ (1 + size rest) :: drop (Z.to_nat nd) (shape m0))
      else MakeErr "All inputs must have same shape" []
    else
      MakeErr
        "Dim must be less than the rank of inputs plus the added dimension" [].
Proof.
  intros Hrest Hdim Hmax r nd.
  pose proof (size_nonneg (shape m0)) as Hr. fold r in Hr, Hmax.
  assert (Hsz : 1 <= size rest).
  { destruct rest; [done|]. rewrite size_cons.
    pose proof (size_nonneg rest). lia. }
  unfold int64, int64_min, int64_max in *.
  unfold fusedStack. exp_simpl. fold r.
  assert (Hr1 : add64 r 1 = r + 1).
  { unfold add64. apply wrap64_id. unfold int64, int64_min, int64_max. lia. }
  rewrite Hr1.
  assert (Hnd : (if dim <? 0 then add64 dim (r + 1) else dim) = nd).
  { unfold nd, stack_dim. destruct (Z.ltb_spec dim 0); [|reflexivity].
    unfold add64. rewrite wrap64_id
      by (unfold int64, int64_min, int64_max; lia). lia. }
  rewrite Hnd.
  replace ((nd <? r + 1) && (0 <=? nd)) with ((0 <=? nd) && (nd <=? r))
    by (destruct (Z.leb_spec 0 nd), (Z.leb_spec nd r), (Z.ltb_spec nd (r + 1));
        cbn; try reflexivity; lia).
  destruct (Z.leb_spec 0 nd) as [H0|H0]; cbn [andb];
    [|cbn [mbind Expected_bind]; reflexivity].
  destruct (Z.leb_spec nd r) as [H1|H1]; cbn [mbind Expected_bind];
    [|reflexivity].
  rewrite fusedStack_loop_closed. cbn [same_shapes forallb].
  rewrite bool_decide_eq_true_2 by reflexivity. cbn [andb].
  fold (same_shapes (shape m0) rest).
  destruct (same_shapes (shape m0) rest); cbn [mbind Expected_bind];
    [|reflexivity].
  unfold vec_insert. fold r. repeat zdec1. reflexivity.
Qed.

(** X7.  The stack rule on two or more inputs: with [nd] the position of the
    added axis ([dim], plus the rank plus one when negative), it fails when
    [nd] is outside [0, rank], fails when some input has another shape than
    the first, and otherwise returns the first shape with the number of
    inputs inserted at position [nd]; the result has one more axis, and its
    element count is that of one input times the number of inputs. On a
    single input the rule returns the shape of that input as it is, whatever
    [dim] is: no axis is added. *)
Theorem fusedStack_inserts_count (m0 : VariableMeta) (rest : MetaStack)
    (dim : Z) :
  int64 dim -> size (shape m0) < int64_max ->
  let r := size (shape m0) in
  let nd := stack_dim dim r in
  (rest = [] -> fusedStack [m0] dim = Value (shape m0)) /\
  (rest <> [] ->
   fusedStack (m0 :: rest) dim =
     (if (0 <=? nd) && (nd <=? r) then
        if same_shapes (shape m0) rest then
          Value (take (Z.to_nat nd) (shape m0)
                 ++ (1 + size rest) :: drop (Z.to_nat nd) (shape m0))
        else MakeErr "All inputs must have same shape" []
      else
        MakeErr
          "Dim must be less than the rank of inputs plus the added dimension"
          []) /\
   (forall s, fusedStack (m0 :: rest) dim = Value s ->
      size s = r + 1 /\
      prod_list s = (1 + size rest) * prod_list (shape m0))).
Proof.
  intros Hdim Hmax r nd. split.
  - intros _. unfold fusedStack. exp_simpl. reflexivity.
  - intros Hrest.
    pose proof (fusedStack_closed m0 rest dim Hrest Hdim Hmax) as Hc.
    cbv zeta in Hc. fold r nd in Hc. fold r in Hc. split; [exact Hc|].
    intros s Hs. rewrite Hc in Hs.
    destruct (Z.leb_spec 0 nd) as [H0|H0]; [|discriminate].
    destruct (Z.leb_spec nd r) as [H1|H1]; [|discriminate].
    cbn [andb] in Hs.
    destruct (same_shapes (shape m0) rest); [|discriminate].
    injection Hs as <-. split.
    + unfold r, size in *. rewrite length_app. cbn [length].
      rewrite length_take, length_drop. lia.
    + rewrite prod_list_app, prod_list_cons.
      rewrite <- (take_drop (Z.to_nat nd) (shape m0)) at 3.
      rewrite prod_list_app. lia.
Qed.

Lemma fusedStack_inserts_count_witness :
  fusedStack [mkMeta [2; 3] []; mkMeta [2; 3] []; mkMeta [2; 3] []] (-1)
  = Value [2; 3; 3].
Proof.
  refine (proj1 (proj2 (fusedStack_inserts_count (mkMeta [2; 3] [])
            [mkMeta [2; 3] []; mkMeta [2; 3] []] (-1) _ _) _)).
  - unfold int64, int64_min, int64_max. lia.
  - vm_compute. reflexivity.
  - discriminate.
Defined.

(** ** fusedConcat: the summed axis; chunking and concatenating back *)

Lemma wrap64_add_l (x y : Z) : wrap64 (wrap64 x + y) = wrap64 (x + y).
Proof.
  unfold wrap64. f_equal.
  replace ((x + 2 ^ 63) mod 2 ^ 64 - 2 ^ 63 + y + 2 ^ 63)
    with ((x + 2 ^ 63) mod 2 ^ 64 + y) by lia.
  rewrite Zplus_mod_idemp_l. f_equal. lia.
Qed.

Lemma fold_left_add64 (f : VariableMeta -> Z) (l : MetaStack) (a : Z) :
  fold_left (fun acc m => add64 acc (f m)) l (wrap64 a)
  = wrap64 (a + sum_list (map f l)).
Proof.
  revert a. induction l as [|m l IH]; intros a.
  - cbn. f_equal. lia.
  - cbn [fold_left map]. rewrite sum_list_cons. unfold add64 at 2.
    rewrite wrap64_add_l, IH. f_equal. lia.
Qed.

Lemma drop_cons_eq (X Y : list Z) (j : nat) (x y : Z) :
  X !! j = Some x -> Y !! j = Some y ->
  (drop j X = drop j Y <-> x = y /\ drop (S j) X = drop (S j) Y).
Proof.
  intros HX HY.
  rewrite (drop_S X x j HX), (drop_S Y y j HY). split.
  - intros [= -> ->]. split; reflexivity.
  - intros [-> ->]. reflexivity.
Qed.

Lemma fusedConcat_inner_closed (n j nd : nat) (other out : list Z) (a b : Z) :
  (j + n = length out)%nat -> length other = length out ->
  size out <= int_max ->
  out !! nd = Some a -> other !! nd = Some b ->
  fusedConcat_inner n (Z.of_nat j) (Z.of_nat nd) other out =
    if bool_decide (drop j (<[nd := 0]> out) = drop j (<[nd := 0]> other))
    then Value (if decide (j <= nd)%nat then <[nd := add64 a b]> out else out)
    else
      MakeErr "Sizes of tensors must match except in dimension %zu."
        [Z.of_nat nd].
Proof.
  intros Hn Hlen Hmax. unfold int_max in Hmax.
  revert j out a Hn Hlen Hmax.
  induction n as [|n IH]; intros j out a Hn Hlen Hmax Ha Hb.
  - cbn [fusedConcat_inner].
    rewrite !drop_ge by (rewrite length_insert; lia).
    rewrite bool_decide_eq_true_2 by reflexivity.
    apply lookup_lt_Some in Ha.
    destruct (decide (j <= nd)%nat); [lia|reflexivity].
  - cbn [fusedConcat_inner].
    pose proof (lookup_lt_Some _ _ _ Ha) as Hnd.
    destruct (Z.eqb_spec (Z.of_nat j) (Z.of_nat nd)) as [Hj|Hj].
    + apply Nat2Z.inj in Hj. subst j.
      rewrite to_size_t_id by (unfold size in Hmax; lia).
      rewrite (vec_at_lookup out nd a Ha), (vec_at_lookup other nd b Hb).
      cbn [mbind Expected_bind].
      rewrite vec_set_in by (unfold size; lia).
      cbn [mbind Expected_bind]. rewrite Nat2Z.id.
      replace (Z.of_nat nd + 1) with (Z.of_nat (S nd)) by lia.
      rewrite (IH (S nd) (<[nd := add64 a b]> out) (add64 a b));
        try (rewrite ?length_insert, ?size_insert; lia || assumption).
      2:{ apply list_lookup_insert_eq. exact Hnd. }
      rewrite list_insert_insert_eq.
      destruct (decide (S nd <= nd)%nat); [lia|].
      destruct (decide (nd <= nd)%nat); [|lia].
      erewrite bool_decide_ext; [reflexivity|].
      symmetry. rewrite (drop_cons_eq _ _ nd 0 0).
      * split; [intros [_ H]; exact H | intros H; split; [reflexivity|exact H]].
      * apply list_lookup_insert_eq. exact Hnd.
      * apply list_lookup_insert_eq. lia.
    + assert (Hjn : j <> nd) by (intros ->; apply Hj; reflexivity).
      destruct (lookup_lt_is_Some_2 out j) as [x Hx]; [lia|].
      destruct (lookup_lt_is_Some_2 other j) as [y Hy]; [lia|].
      rewrite (vec_at_lookup out j x Hx), (vec_at_lookup other j y Hy).
      cbn [mbind Expected_bind]. unfold RETURN_ERR_IF_NOT.
      assert (HX : <[nd := 0]> out !! j = Some x)
        by (rewrite list_lookup_insert_ne by lia; exact Hx).
      assert (HY : <[nd := 0]> other !! j = Some y)
        by (rewrite list_lookup_insert_ne by lia; exact Hy).
      destruct (Z.eqb_spec x y) as [Hxy|Hxy]; cbn [mbind Expected_bind].
      * replace (Z.of_nat j + 1) with (Z.of_nat (S j)) by lia.
        rewrite (IH (S j) out a) by (lia || assumption).
        rewrite (bool_decide_ext _ _
                   (drop_cons_eq _ _ j x y HX HY)).
        destruct (decide (S j <= nd)%nat), (decide (j <= nd)%nat); try lia.
        -- erewrite bool_decide_ext; [reflexivity|]. tauto.
        -- erewrite bool_decide_ext; [reflexivity|]. tauto.
      * rewrite bool_decide_eq_false_2; [reflexivity|].
        rewrite (drop_cons_eq _ _ j x y HX HY). tauto.
Qed.

Lemma agree_off_axis_length (nd : nat) (a b : list Z) :
  agree_off_axis nd a b = true -> length a = length b.
Proof.
  unfold agree_off_axis. intros H. apply bool_decide_eq_true_1 in H.
  apply (f_equal length) in H. rewrite !length_insert in H. exact H.
Qed.

Lemma fusedConcat_outer_closed (rest : MetaStack) (s0 : list Z) (nd : nat)
    (x : Z) :
  (nd < length s0)%nat -> size s0 <= int_max ->
  let r := fusedConcat_outer rest (size s0) (Z.of_nat nd) (<[nd := x]> s0) in
  let ok := forallb (fun m => agree_off_axis nd s0 (shape m)) rest in
  (ok = true ->
   r = Value (<[nd := fold_left
                        (fun acc m => add64 acc (dim_at (Z.of_nat nd) m))
                        rest x]> s0)) /\
  (ok = false -> is_err r = true).
Proof.
  intros Hnd Hmax. revert x.
  induction rest as [|m rest IH]; intros x; cbv zeta.
  - cbn. split; [reflexivity|discriminate].
  - cbn [fusedConcat_outer forallb fold_left]. unfold RETURN_ERR_IF_NOT.
    destruct (Z.eqb_spec (size s0) (size (shape m))) as [Hsz|Hsz];
      cbn [mbind Expected_bind].
    2:{ split; [|reflexivity]. intros Hok.
        apply andb_true_iff in Hok as [Hok _].
        apply agree_off_axis_length in Hok. unfold size in Hsz. lia. }
    destruct (lookup_lt_is_Some_2 (shape m) nd) as [b Hb].
    { unfold size in Hsz. lia. }
    change 0 with (Z.of_nat 0).
    rewrite (fusedConcat_inner_closed (Z.to_nat (size s0)) 0 nd (shape m)
               (<[nd := x]> s0) x b);
      try (rewrite ?length_insert, ?size_insert; unfold size in *; lia).
    2:{ apply list_lookup_insert_eq. exact Hnd. }
    2:{ exact Hb. }
    rewrite !drop_0, !list_insert_insert_eq.
    fold (agree_off_axis nd s0 (shape m)).
    destruct (agree_off_axis nd s0 (shape m)); cbn [andb];
      [|split; [discriminate|reflexivity]].
    destruct (decide (0 <= nd)%nat); [|lia].
    cbn [mbind Expected_bind].
    replace (dim_at (Z.of_nat nd) m) with b
      by (unfold dim_at; rewrite Nat2Z.id, Hb; reflexivity).
    apply IH.
Qed.

Lemma fusedConcat_closed (m0 : VariableMeta) (rest : MetaStack) (dim : Z) :
  rest <> [] -> int64 dim -> size (shape m0) <= int_max ->
  let r := size (shape m0) in
  let nd := normalize_dim dim r in
  (~ (0 <= nd < r) -> is_err (fusedConcat (m0 :: rest) dim) = true) /\
  (0 <= nd < r ->
   (forallb (fun m => agree_off_axis (Z.to_nat nd) (shape m0) (shape m)) rest
      = true ->
    fusedConcat (m0 :: rest) dim
    = Value (<[Z.to_nat nd :=
                 wrap64 (sum_list (map (dim_at nd) (m0 :: rest)))]>
               (shape m0))) /\
   (forallb (fun m => agree_off_axis (Z.to_nat nd) (shape m0) (shape m)) rest
      = false ->
    is_err (fusedConcat (m0 :: rest) dim) = true)).
Proof.
  intros Hrest Hdim Hmax r nd.
  pose proof (size_nonneg (shape m0)) as Hr. fold r in Hr, Hmax.
  assert (Hsz : 1 <= size rest).
  { destruct rest; [done|]. rewrite size_cons.
    pose proof (size_nonneg rest). lia. }
  unfold int64, int64_min, int64_max, int_max in *.
  unfold fusedConcat. exp_simpl. fold r.
  assert (Hnd : (if dim <? 0 then add64 dim r else dim) = nd).
  { unfold nd, normalize_dim. destruct (Z.ltb_spec dim 0); [|reflexivity].
    unfold add64. apply wrap64_id. unfold int64, int64_min, int64_max. lia. }
  rewrite Hnd. cbn [drop]. rewrite drop_0.
  split.
  - intros Hout.
    replace ((nd <? r) && (0 <=? nd)) with false; [reflexivity|].
    destruct (Z.ltb_spec nd r), (Z.leb_spec 0 nd); cbn; try reflexivity; lia.
  - intros Hin. repeat zdec1. cbn [andb mbind Expected_bind].
    destruct (lookup_lt_is_Some_2 (shape m0) (Z.to_nat nd)) as [a Ha].
    { unfold r, size in Hin. lia. }
    pose proof (fusedConcat_outer_closed rest (shape m0) (Z.to_nat nd) a) as H.
    cbv zeta in H. rewrite list_insert_id in H by exact Ha.
    rewrite Z2Nat.id in H by lia. fold r in H.
    destruct H as [Hok Hbad].
    { unfold r, size in Hin. lia. }
    { unfold int_max. exact Hmax. }
    split; [|exact Hbad].
    intros Hall. rewrite (Hok Hall). do 2 f_equal.
    destruct rest as [|m1 rest']; [done|].
    cbn [fold_left map]. rewrite !sum_list_cons.
    unfold add64 at 2. rewrite fold_left_add64.
    assert (dim_at nd m0 = a) as ->
      by (unfold dim_at; rewrite Ha; reflexivity).
    f_equal. lia.
Qed.

(** X8.  The concatenation rule on two or more inputs: with [nd] the axis
    ([dim], plus the rank when negative), it fails when [nd] is not an axis
    of the first input and fails when some input differs from the first in
    rank or in a size off axis [nd]; otherwise it returns the first shape
    with the size at [nd] replaced by the sum of the sizes of all inputs at
    [nd], in 64-bit arithmetic. On a single input it returns the shape of
    that input, whatever [dim] is. *)
Theorem fusedConcat_sums_axis (m0 : VariableMeta) (rest : MetaStack)
    (dim : Z) :
  int64 dim -> size (shape m0) <= int_max ->
  let r := size (shape m0) in
  let nd := normalize_dim dim r in
  let agree :=
    forallb (fun m => agree_off_axis (Z.to_nat nd) (shape m0) (shape m)) rest
  in
  (rest = [] -> fusedConcat [m0] dim = Value (shape m0)) /\
  (rest <> [] -> ~ (0 <= nd < r) ->
   is_err (fusedConcat (m0 :: rest) dim) = true) /\
  (rest <> [] -> 0 <= nd < r -> agree = false ->
   is_err (fusedConcat (m0 :: rest) dim) = true) /\
  (rest <> [] -> 0 <= nd < r -> agree = true ->
   fusedConcat (m0 :: rest) dim
   = Value (<[Z.to_nat nd :=
                wrap64 (sum_list (map (dim_at nd) (m0 :: rest)))]>
              (shape m0))).
Proof.
  intros Hdim Hmax r nd agree. split; [|split; [|split]].
  - intros _. unfold fusedConcat. exp_simpl. reflexivity.
  - intros Hrest Hout.
    exact (proj1 (fusedConcat_closed m0 rest dim Hrest Hdim Hmax) Hout).
  - intros Hrest Hin Hbad.
    exact (proj2 (proj2 (fusedConcat_closed m0 rest dim Hrest Hdim Hmax) Hin)
             Hbad).
  - intros Hrest Hin Hok.
    exact (proj1 (proj2 (fusedConcat_closed m0 rest dim Hrest Hdim Hmax) Hin)
             Hok).
Qed.

Lemma fusedConcat_sums_axis_witness :
  fusedConcat [mkMeta [2; 3] []; mkMeta [2; 5] []; mkMeta [2; 1] []] (-1)
  = Value [2; 9].
Proof.
  refine (proj2 (proj2 (proj2 (fusedConcat_sums_axis (mkMeta [2; 3] [])
            [mkMeta [2; 5] []; mkMeta [2; 1] []] (-1) _ _))) _ _ _).
  - unfold int64, int64_min, int64_max. lia.
  - vm_compute. discriminate.
  - discriminate.
  - vm_compute. split; [discriminate|reflexivity].
  - reflexivity.
Defined.

Lemma sum_list_app (l k : list Z) :
  sum_list (l ++ k) = sum_list l + sum_list k.
Proof.
  induction l as [|x l IH]; [reflexivity|].
  cbn [app]. rewrite !sum_list_cons, IH. lia.
Qed.

Lemma sum_list_replicate (n : nat) (c : Z) :
  sum_list (replicate n c) = Z.of_nat n * c.
Proof.
  induction n as [|n IH]; [reflexivity|].
  cbn [replicate]. rewrite sum_list_cons, IH. lia.
Qed.

Lemma sum_chunk_sizes (sz chunks : Z) :
  1 <= chunks -> sum_list (chunk_sizes sz chunks) = sz.
Proof.
  intros H. unfold chunk_sizes.
  rewrite sum_list_app, sum_list_replicate, sum_list_cons.
  change (sum_list []) with 0. rewrite Z2Nat.id by lia. lia.
Qed.

(** X9.  Chunking and concatenating back: the shapes that the chunking rule
    returns for a tensor, given to the concatenation rule with the same
    [dim], give the shape of the tensor. *)
Theorem chunk_then_concat_round_trip (self : VariableMeta)
    (chunks dim sz : Z) (pieces : list (list Z)) (ms : MetaStack) :
  int64 dim -> size (shape self) <= int_max ->
  let nd := normalize_dim dim (size (shape self)) in
  0 <= nd -> shape self !! Z.to_nat nd = Some sz ->
  1 <= chunks <= int_max -> Z.abs sz <= 2 ^ 62 ->
  constantChunk [self] chunks dim = Value pieces ->
  map shape ms = pieces ->
  fusedConcat ms dim = Value (shape self).
Proof.
  intros Hdim Hmax nd H0 Hsz Hch Habs Hchunk Hms.
  assert (Hmax64 : size (shape self) <= int64_max)
    by (unfold int_max, int64_max in *; lia).
  destruct (proj1 (proj2 (constantChunk_value self chunks dim Hdim Hmax64))
              sz H0 Hsz Hch Habs) as [Hval Hlen].
  fold nd in Hval. rewrite Hval in Hchunk. injection Hchunk as <-.
  pose proof (lookup_lt_Some _ _ _ Hsz) as Hlt.
  set (g := fun s : Z => <[Z.to_nat nd := s]> (shape self)) in *.
  assert (Hdims : map (dim_at nd) ms = chunk_sizes sz chunks).
  { revert Hms. generalize (chunk_sizes sz chunks). clear -Hlt.
    induction ms as [|m ms IH]; intros [|s l] Hl; try discriminate;
      [reflexivity|].
    cbn [map] in *. injection Hl as Hm Hl. f_equal; [|apply IH; exact Hl].
    unfold dim_at. rewrite Hm. unfold g.
    rewrite list_lookup_insert_eq by exact Hlt. reflexivity. }
  assert (Hshapes : Forall (fun m => exists s, shape m = g s) ms).
  { revert Hms. generalize (chunk_sizes sz chunks). clear.
    induction ms as [|m ms IH]; intros [|s l] Hl; try discriminate;
      constructor.
    - cbn [map] in Hl. injection Hl as Hm _. eauto.
    - cbn [map] in Hl. injection Hl as _ Hl. eapply IH. exact Hl. }
  destruct ms as [|m0 rest].
  { exfalso. cbn [map] in Hdims. rewrite <- Hdims in Hlen.
    unfold size in Hlen. cbn [length] in Hlen. lia. }
  inversion Hshapes as [|? ? [c Hc] Hrest]; subst.
  assert (Hr : size (shape m0) = size (shape self))
    by (rewrite Hc; unfold g; apply size_insert).
  destruct rest as [|m1 rest'].
  - cbn [map] in Hdims.
    assert (Hone : sum_list (chunk_sizes sz chunks) = sz)
      by (apply sum_chunk_sizes; lia).
    rewrite <- Hdims in Hone. cbn in Hone.
    unfold fusedConcat. exp_simpl.
    rewrite Hc. unfold g. f_equal. apply list_insert_id.
    rewrite Hsz. f_equal.
    unfold dim_at in Hone. rewrite Hc in Hone. unfold g in Hone.
    rewrite list_lookup_insert_eq in Hone by exact Hlt. cbn in Hone. lia.
  - pose proof (fusedConcat_closed m0 (m1 :: rest') dim) as Hcat.
    cbv zeta in Hcat. rewrite Hr in Hcat. fold nd in Hcat.
    destruct Hcat as [_ Hcat]; [discriminate | exact Hdim | lia |].
    destruct Hcat as [Hcat _]; [unfold size; lia|].
    rewrite Hcat.
    + rewrite Hdims, sum_chunk_sizes by lia.
      rewrite wrap64_id by (unfold int64, int64_min, int64_max; lia).
      rewrite Hc. unfold g. rewrite list_insert_insert_eq.
      f_equal. apply list_insert_id. exact Hsz.
    + apply forallb_forall. intros m Hm.
      apply list_elem_of_In in Hm.
      rewrite Forall_forall in Hrest. destruct (Hrest m Hm) as [s Hs].
      unfold agree_off_axis. apply bool_decide_eq_true_2.
      rewrite Hc, Hs. unfold g. rewrite !list_insert_insert_eq. reflexivity.
Qed.

Lemma chunk_then_concat_round_trip_witness :
  fusedConcat [mkMeta [4; 7] []; mkMeta [4; 7] []; mkMeta [2; 7] []] (-2)
  = Value [10; 7].
Proof.
  refine (chunk_then_concat_round_trip (mkMeta [10; 7] []) 3 (-2) 10
            [[4; 7]; [4; 7]; [2; 7]]
            [mkMeta [4; 7] []; mkMeta [4; 7] []; mkMeta [2; 7] []]
            _ _ _ _ _ _ _ _).
  - unfold int64, int64_min, int64_max. lia.
  - vm_compute. discriminate.
  - vm_compute. discriminate.
  - reflexivity.
  - unfold int_max. lia.
  - lia.
  - reflexivity.
  - reflexivity.
Defined.

(** ** slice: an axis outside the shape, bounds of the new length *)

(** X10.  The slice rule does not bring a negative axis into range and does
    not check the axis against the rank: when [dim] is not an axis of self,
    the rule reads the shape of self outside its elements. *)
Theorem slice_axis_outside_shape
    (self dimM startM endM stepM : VariableMeta) (dim start end_ step : Z) :
  scalar_carrier dimM dim -> scalar_carrier startM start ->
  scalar_carrier endM end_ -> scalar_carrier stepM step ->
  int64 dim -> size (shape self) <= int64_max ->
  ~ (0 <= dim < size (shape self)) ->
  slice [self; dimM; startM; endM; stepM] = Crash OutOfRange.
Proof.
  intros Hd Hs He Ht Hdim Hmax Hout.
  unfold int64, int64_min, int64_max in *.
  unfold slice.
  rewrite (slice_check_carriers self dimM startM endM stepM)
    by (apply Hd || apply Hs || apply He || apply Ht).
  exp_simpl.
  rewrite (scalar_carrier_at _ _ Hd), (scalar_carrier_at _ _ Hs),
    (scalar_carrier_at _ _ He), (scalar_carrier_at _ _ Ht).
  exp_simpl.
  rewrite vec_at_out; [reflexivity|].
  destruct (Z.lt_ge_cases dim 0) as [Hneg|Hpos].
  - rewrite to_size_t_neg by lia. lia.
  - rewrite to_size_t_id by lia. lia.
Qed.

Lemma slice_axis_outside_shape_witness :
  slice [mkMeta [10; 7] []; mkMeta [1] [-1]; mkMeta [1] [0]; mkMeta [1] [5];
         mkMeta [1] [1]] = Crash OutOfRange.
Proof.
  refine (slice_axis_outside_shape (mkMeta [10; 7] []) (mkMeta [1] [-1])
            (mkMeta [1] [0]) (mkMeta [1] [5]) (mkMeta [1] [1]) (-1) 0 5 1
            _ _ _ _ _ _ _);
    try (split; reflexivity);
    try (unfold int64, int64_min, int64_max; lia);
    try (vm_compute; discriminate).
Defined.

Lemma slice_axis_length_le (L start end_ step : Z) :
  0 <= L -> 0 < step -> slice_axis_length L start end_ step <= L.
Proof.
  intros HL Hstep. unfold slice_axis_length.
  destruct (slice_empty L start end_) eqn:E; [lia|].
  unfold slice_empty in E.
  apply orb_false_iff in E as [E E3]. apply orb_false_iff in E as [E1 E2].
  apply Z.leb_gt in E1, E2, E3.
  assert (H0 : 0 <= slice_start L start).
  { unfold slice_start.
    destruct (Z.leb_spec start (- L)); [lia|].
    destruct (Z.ltb_spec (- L) start), (Z.ltb_spec start 0); cbn; lia. }
  assert (H1 : slice_end L end_ <= L).
  { unfold slice_end.
    destruct (Z.ltb_spec L end_); [lia|].
    destruct (Z.ltb_spec (- L) end_), (Z.ltb_spec end_ 0); cbn; lia. }
  set (n := slice_end L end_ - slice_start L start) in *.
  assert (Hn : 0 < n) by lia.
  pose proof (Z.quot_rem' n step) as Hqr.
  pose proof (Z.rem_bound_pos n step) as Hb.
  pose proof (Z.quot_pos n step) as Hq.
  destruct (Z.eqb_spec (Z.rem n step) 0); nia.
Qed.

(** X11.  Slicing never lengthens an axis and touches no other: for a
    positive step and an axis of length L >= 0, the result is the shape of
    self with axis dim replaced by a length between 0 and L. Taking the
    whole axis (start 0, end at least L, step 1) returns the shape of self. *)
Theorem slice_never_grows_axis
    (self dimM startM endM stepM : VariableMeta) (dim start end_ step L : Z) :
  scalar_carrier dimM dim -> scalar_carrier startM start ->
  scalar_carrier endM end_ -> scalar_carrier stepM step ->
  int64 dim -> int64 start -> int64 end_ -> int64 step ->
  0 <= dim < size (shape self) ->
  shape self !! Z.to_nat dim = Some L ->
  0 <= L <= int64_max -> 0 < step ->
  let metas := [self; dimM; startM; endM; stepM] in
  (exists n : Z,
     0 <= n <= L /\ slice metas = Value (<[Z.to_nat dim := n]> (shape self)))
  /\
  (start = 0 -> L <= end_ -> step = 1 -> slice metas = Value (shape self)).
Proof.
  intros Hd Hs He Ht Hdim Hstart Hend Hstep Hrange HL HL64 Hpos metas.
  assert (HL' : int64_min < L <= int64_max) by (unfold int64_min; lia).
  destruct (slice_value self dimM startM endM stepM dim start end_ step L
              Hd Hs He Ht Hdim Hstart Hend Hstep Hrange HL HL')
    as (_ & Hval & _).
  fold metas in Hval. rewrite Hval by lia. split.
  - exists (slice_axis_length L start end_ step). split; [|reflexivity].
    split; [apply slice_axis_length_nonneg; exact Hpos|].
    apply slice_axis_length_le; lia.
  - intros -> Hfull ->. f_equal. apply list_insert_id. rewrite HL. f_equal.
    unfold slice_axis_length, slice_empty, slice_start, slice_end.
    destruct (Z.leb_spec L 0) as [H0|H0]; cbn [orb]; [lia|].
    destruct (Z.leb_spec end_ (- L)); cbn [orb]; [lia|].
    destruct (Z.leb_spec 0 (- L)); [lia|].
    destruct (Z.ltb_spec (- L) 0); [|lia].
    change (0 <? 0) with false. cbn [andb].
    destruct (Z.ltb_spec L end_).
    + destruct (Z.leb_spec L 0); [lia|].
      rewrite Z.sub_0_r, Z.quot_1_r, Z.rem_1_r, Z.eqb_refl. lia.
    + destruct (Z.ltb_spec (- L) end_), (Z.ltb_spec end_ 0); cbn [andb];
        try lia.
      destruct (Z.leb_spec end_ 0); [lia|].
      rewrite Z.sub_0_r, Z.quot_1_r, Z.rem_1_r, Z.eqb_refl. lia.
Qed.

Lemma slice_never_grows_axis_witness :
  slice [mkMeta [10; 7] []; mkMeta [1] [0]; mkMeta [1] [0];
         mkMeta [1] [int64_max]; mkMeta [1] [1]] = Value [10; 7].
Proof.
  refine (proj2 (slice_never_grows_axis (mkMeta [10; 7] []) (mkMeta [1] [0])
            (mkMeta [1] [0]) (mkMeta [1] [int64_max]) (mkMeta [1] [1])
            0 0 int64_max 1 10 _ _ _ _ _ _ _ _ _ _ _ _) _ _ _);
    try (split; reflexivity);
    try (unfold int64, int64_min, int64_max; lia);
    try reflexivity.
Defined.

(** ** reshape: the number of elements *)

Lemma prod_list_resolve_one (target : list Z) (x : Z) :
  placeholders target = 1%nat ->
  prod_list (resolve_placeholder target x) = explicit_product target * x.
Proof.
  induction target as [|v rest IH]; [discriminate|].
  rewrite placeholders_cons, explicit_product_cons.
  unfold resolve_placeholder in *. cbn [map]. rewrite prod_list_cons.
  destruct (is_placeholder v) eqn:Ev; intros Hp.
  - injection Hp as Hp. fold (resolve_placeholder rest x).
    rewrite (resolve_placeholder_none rest x Hp).
    rewrite (proj1 (prod_list_placeholders rest) Hp). lia.
  - rewrite IH by exact Hp. lia.
Qed.

Lemma reshape_count (self target : VariableMeta) (s : list Z) :
  Z.abs (prod_list (shape self)) <= int64_max ->
  Z.abs (explicit_product (intValue target)) <= int64_max ->
  size (intValue target) <= int64_max ->
  reshape [self; target] = Value s ->
  (placeholders (intValue target) = 1%nat ->
   prod_list s = prod_list (shape self)) /\
  (placeholders (intValue target) = 0%nat ->
   s = intValue target /\ (prod_list s | prod_list (shape self))).
Proof.
  intros H0 H1 Hsz H.
  rewrite (reshape_cases self target H0 H1 Hsz) in H.
  destruct (2 <=? placeholders (intValue target))%nat; [discriminate|].
  destruct (Z.eqb_spec (explicit_product (intValue target)) 0) as [|Hne];
    [discriminate|].
  destruct (Z.eqb_spec (Z.rem (prod_list (shape self))
                          (explicit_product (intValue target))) 0)
    as [Hrem|]; [|discriminate].
  injection H as <-.
  pose proof (Z.quot_rem' (prod_list (shape self))
                (explicit_product (intValue target))) as Hqr.
  split.
  - intros Hp. rewrite prod_list_resolve_one by exact Hp. lia.
  - intros Hp. rewrite resolve_placeholder_none by exact Hp.
    split; [reflexivity|].
    rewrite (proj1 (prod_list_placeholders _) Hp).
    exists (Z.quot (prod_list (shape self))
              (explicit_product (intValue target))). lia.
Qed.

(** X12.  When the reshape rule returns a shape for a target with one
    placeholder, that shape has as many elements as the input. For a target
    without a placeholder the rule returns the target as it is, and its
    element count is only known to divide that of the input. *)
Theorem reshape_element_count (self target : VariableMeta) (s : list Z) :
  Z.abs (prod_list (shape self)) <= int64_max ->
  Z.abs (explicit_product (intValue target)) <= int64_max ->
  size (intValue target) <= int64_max ->
  reshape [self; target] = Value s ->
  (placeholders (intValue target) = 1%nat ->
   prod_list s = prod_list (shape self)) /\
  (placeholders (intValue target) = 0%nat ->
   s = intValue target /\ (prod_list s | prod_list (shape self))).
Proof. exact (reshape_count self target s). Qed.

Lemma reshape_element_count_witness :
  prod_list [6; 4] = prod_list [2; 3; 4].
Proof.
  refine (proj1 (reshape_element_count (mkMeta [2; 3; 4] [])
                   (mkMeta [2; 1] [-1; 4]) [6; 4] _ _ _ _) _);
    try (vm_compute; discriminate); reflexivity.
Defined.

(** X13.  Reshaping there and back: when the reshape rule returns a shape
    for a target with one placeholder, reshaping that shape to the original
    shape, given as an explicit target, returns the original shape (the
    original shape having no zero and no -1 entry). *)
Theorem reshape_round_trip (self target back : VariableMeta) (s : list Z) :
  Z.abs (prod_list (shape self)) <= int64_max ->
  Z.abs (explicit_product (intValue target)) <= int64_max ->
  size (intValue target) <= int64_max ->
  size (shape self) <= int64_max ->
  reshape [self; target] = Value s ->
  placeholders (intValue target) = 1%nat ->
  placeholders (shape self) = 0%nat -> prod_list (shape self) <> 0 ->
  intValue back = shape self ->
  reshape [mkMeta s []; back] = Value (shape self).
Proof.
  intros H0 H1 Hsz Hrank H Hp Hnone Hnz Hback.
  pose proof (proj1 (reshape_count self target s H0 H1 Hsz H) Hp) as Hcount.
  pose proof (proj1 (prod_list_placeholders (shape self)) Hnone) as Hexp.
  pose proof (reshape_cases (mkMeta s []) back) as Hc.
  cbv zeta in Hc. cbn [shape] in Hc.
  rewrite Hback, Hcount, <- Hexp in Hc.
  rewrite Hc by assumption. clear Hc.
  rewrite Hnone. cbn [Nat.leb].
  destruct (Z.eqb_spec (prod_list (shape self)) 0) as [|_]; [contradiction|].
  rewrite Z.rem_same by exact Hnz. rewrite Z.eqb_refl.
  rewrite resolve_placeholder_none by exact Hnone. reflexivity.
Qed.

Lemma reshape_round_trip_witness :
  reshape [mkMeta [6; 4] []; mkMeta [3; 1] [2; 3; 4]] = Value [2; 3; 4].
Proof.
  refine (reshape_round_trip (mkMeta [2; 3; 4] []) (mkMeta [2; 1] [-1; 4])
            (mkMeta [3; 1] [2; 3; 4]) [6; 4] _ _ _ _ _ _ _ _ _);
    try (vm_compute; discriminate); reflexivity.
Defined.

(** ** binaryOp: operands of equal rank *)

Lemma broadcast_aligned_same (r : list Z) : broadcast_aligned r r = Value r.
Proof.
  induction r as [|a r IH]; [reflexivity|].
  cbn [broadcast_aligned]. rewrite IH, Z.eqb_refl.
  cbn [mbind Expected_bind]. destruct (a =? 1); reflexivity.
Qed.

Lemma broadcast_aligned_sym (r0 r1 s : list Z) :
  length r0 = length r1 ->
  broadcast_aligned r0 r1 = Value s -> broadcast_aligned r1 r0 = Value s.
Proof.
  revert r1 s. induction r0 as [|a r0 IH]; intros [|b r1] s Hlen H;
    try discriminate; [exact H|].
  cbn [length] in Hlen. injection Hlen as Hlen.
  cbn [broadcast_aligned] in *.
  destruct (Z.eqb_spec a 1) as [->|Ha], (Z.eqb_spec b 1) as [->|Hb].
  - bind_inv H as rest Hrest. rewrite (IH _ _ Hlen Hrest). exact H.
  - bind_inv H as rest Hrest. rewrite (IH _ _ Hlen Hrest). exact H.
  - bind_inv H as rest Hrest. rewrite (IH _ _ Hlen Hrest). exact H.
  - destruct (Z.eqb_spec a b) as [->|Hab]; [|discriminate].
    rewrite Z.eqb_refl.
    bind_inv H as rest Hrest. rewrite (IH _ _ Hlen Hrest). exact H.
Qed.

Lemma no_unit_beyond_equal_rank (t0 t1 : list Z) :
  length t0 = length t1 -> no_unit_beyond t0 t1.
Proof.
  intros H. unfold no_unit_beyond. rewrite H, Nat.sub_diag. constructor.
Qed.

(** X14.  On two operands of equal rank the elementwise-binary rule stays
    within its vectors and, the rank not being 1, does not depend on the
    order of the operands: it returns a shape for (a, b) exactly when it
    returns that shape for (b, a). On two operands of the same shape it
    returns that shape. *)
Theorem binaryOp_equal_rank (m0 m1 : VariableMeta) :
  size (shape m0) = size (shape m1) -> size (shape m0) < 2 ^ 64 ->
  (forall f : Fault, binaryOp [m0; m1] <> Crash f) /\
  (size (shape m0) <> 1 ->
   forall s, binaryOp [m0; m1] = Value s <-> binaryOp [m1; m0] = Value s) /\
  (shape m0 = shape m1 -> binaryOp [m0; m1] = Value (shape m0)).
Proof.
  intros Hrank Hmax.
  assert (Hlen : length (shape m0) = length (shape m1))
    by (unfold size in Hrank; lia).
  assert (H01 : binaryOp [m0; m1] =
    (if size (shape m1) =? 1 then Value (shape m0)
     else broadcast_shapes (shape m0) (shape m1))).
  { apply (binaryOp_broadcast m0 m1 []); try lia.
    - change (@size VariableMeta []) with 0. lia.
    - apply no_unit_beyond_equal_rank. exact Hlen. }
  assert (H10 : binaryOp [m1; m0] =
    (if size (shape m0) =? 1 then Value (shape m1)
     else broadcast_shapes (shape m1) (shape m0))).
  { apply (binaryOp_broadcast m1 m0 []); try lia.
    - change (@size VariableMeta []) with 0. lia.
    - apply no_unit_beyond_equal_rank. symmetry. exact Hlen. }
  assert (Hsym : forall a b s, length a = length b ->
            broadcast_shapes a b = Value s -> broadcast_shapes b a = Value s).
  { intros a b s Hab H. unfold broadcast_shapes in *.
    bind_inv H as r Hr. apply broadcast_aligned_sym in Hr;
      [|rewrite !length_reverse; exact Hab].
    rewrite Hr. exact H. }
  split; [|split].
  - intros f. rewrite H01. destruct (size (shape m1) =? 1); [discriminate|].
    unfold broadcast_shapes.
    assert (Hnc : forall r0 r1, broadcast_aligned r0 r1 <> Crash f).
    { induction r0 as [|a r0 IH]; intros [|b r1]; try discriminate.
      cbn [broadcast_aligned]. specialize (IH r1).
      destruct (broadcast_aligned r0 r1) as [v|msg args|f0];
        destruct (a =? 1), (b =? 1), (a =? b); cbn [mbind Expected_bind];
        try discriminate; exact IH. }
    specialize (Hnc (reverse (shape m0)) (reverse (shape m1))).
    destruct (broadcast_aligned _ _); cbn [mbind Expected_bind];
      try discriminate. exact Hnc.
  - intros H1 s. rewrite H01, H10.
    replace (size (shape m1) =? 1) with false
      by (symmetry; apply Z.eqb_neq; lia).
    replace (size (shape m0) =? 1) with false
      by (symmetry; apply Z.eqb_neq; lia).
    split; apply Hsym; [exact Hlen | symmetry; exact Hlen].
  - intros Hsame. rewrite H01. destruct (size (shape m1) =? 1); [reflexivity|].
    rewrite <- Hsame. unfold broadcast_shapes.
    rewrite broadcast_aligned_same. cbn [mbind Expected_bind].
    rewrite reverse_involutive. reflexivity.
Qed.

Lemma binaryOp_equal_rank_witness :
  binaryOp [mkMeta [2; 1; 4] []; mkMeta [1; 3; 4] []] = Value [2; 3; 4]
  <-> binaryOp [mkMeta [1; 3; 4] []; mkMeta [2; 1; 4] []] = Value [2; 3; 4].
Proof.
  refine (proj1 (proj2 (binaryOp_equal_rank (mkMeta [2; 1; 4] [])
                          (mkMeta [1; 3; 4] []) _ _)) _ [2; 3; 4]).
  - reflexivity.
  - vm_compute. reflexivity.
  - vm_compute. discriminate.
Defined.

(** ** The engine: looking up inputs, binding graph inputs, outputs *)

Lemma lookup_set_shape (sm : gmap JitValue VariableMeta) (v w : JitValue)
    (s : list Z) :
  set_shape sm v s !! w =
    if decide (v = w)
    then Some (mkMeta s (intValue (default emptyMeta (sm !! v))))
    else sm !! w.
Proof. unfold set_shape. apply lookup_insert. Qed.

Lemma lookup_set_intValue (sm : gmap JitValue VariableMeta) (v w : JitValue)
    (l : list Z) :
  set_intValue sm v l !! w =
    if decide (v = w)
    then Some (mkMeta (shape (default emptyMeta (sm !! v))) l)
    else sm !! w.
Proof. unfold set_intValue. apply lookup_insert. Qed.

Lemma getNodeInputShape_loop_inv (ins : list JitValue)
    (sm : gmap JitValue VariableMeta) (acc metas : MetaStack) :
  getNodeInputShape_loop ins sm acc = Value metas <->
  exists ms, metas = acc ++ ms /\ bound_to sm ins ms.
Proof.
  revert acc. induction ins as [|v ins IH]; intros acc.
  - cbn [getNodeInputShape_loop]. split.
    + intros [= <-]. exists []. rewrite app_nil_r.
      split; [reflexivity|constructor].
    + intros (ms & -> & Hms). inversion Hms. rewrite app_nil_r. reflexivity.
  - cbn [getNodeInputShape_loop]. destruct (sm !! v) as [m|] eqn:Hv.
    + rewrite IH. split.
      * intros (ms & -> & Hms). exists (m :: ms). rewrite <- app_assoc.
        split; [reflexivity|]. constructor; assumption.
      * intros (ms & -> & Hms).
        inversion Hms as [|? m' ? ms' Hm' Hms']; subst.
        rewrite Hv in Hm'. injection Hm' as <-.
        exists ms'. rewrite <- app_assoc. split; [reflexivity|assumption].
    + split; [discriminate|]. intros (ms & _ & Hms).
      inversion Hms as [|? m' ? ms' Hm' Hms']; subst. congruence.
Qed.

Lemma getNodeInputShape_loop_missing (ins : list JitValue)
    (sm : gmap JitValue VariableMeta) (acc : MetaStack) (v : JitValue) :
  v ∈ ins -> sm !! v = None ->
  getNodeInputShape_loop ins sm acc = Crash CheckFailed.
Proof.
  intros Hin Hv. revert acc.
  induction ins as [|w ins IH]; intros acc; [inversion Hin|].
  cbn [getNodeInputShape_loop].
  destruct (decide (w = v)) as [->|Hne]; [rewrite Hv; reflexivity|].
  destruct (sm !! w); [|reflexivity].
  apply IH. apply elem_of_cons in Hin as [->|Hin]; [done|exact Hin].
Qed.

(** X15.  The inputs of a node are looked up in the map in order: the lookup
    returns the entries of all the inputs when each is bound, and when some
    input is not bound the CHECK on the lookup fails, so that processing the
    node neither returns nor reports an error, whatever the operator of the
    node is. *)
Theorem node_inputs_looked_up (node : Node) (e : Engine) :
  (forall metas,
     getNodeInputShape node (shapeMap_ e) = Value metas <->
     bound_to (shapeMap_ e) (inputs node) metas) /\
  (forall v, v ∈ inputs node -> shapeMap_ e !! v = None ->
     getNodeInputShape node (shapeMap_ e) = Crash CheckFailed /\
     shapeOnNode node e = (Crash CheckFailed, e)).
Proof.
  split.
  - intros metas. unfold getNodeInputShape.
    rewrite getNodeInputShape_loop_inv. cbn [app]. split.
    + intros (ms & -> & Hms). exact Hms.
    + intros Hms. exists metas. split; [reflexivity|exact Hms].
  - intros v Hin Hv.
    assert (H : getNodeInputShape node (shapeMap_ e) = Crash CheckFailed)
      by (apply (getNodeInputShape_loop_missing _ _ _ v); assumption).
    split; [exact H|]. unfold shapeOnNode. rewrite H. reflexivity.
Qed.

Lemma node_inputs_looked_up_witness :
  shapeOnNode (mkNode (other_kind "aten::foo") [0%nat; 1%nat] [2%nat]
                 TensorType 0 0 0 [])
    (mkEngine (mkGraph [] [] []) [] false {[0%nat := mkMeta [2] []]} [])
  = (Crash CheckFailed,
     mkEngine (mkGraph [] [] []) [] false {[0%nat := mkMeta [2] []]} []).
Proof.
  refine (proj2 (proj2 (node_inputs_looked_up _ _) 1%nat _ _)).
  - cbn. set_solver.
  - reflexivity.
Defined.

Lemma bind_input_lookup (sm : gmap JitValue VariableMeta) (g : JitValue)
    (s l : list Z) :
  set_intValue (set_shape (set_intValue (set_shape sm g []) g []) g s) g l
    !! g = Some (mkMeta s l).
Proof.
  rewrite lookup_set_intValue. destruct (decide (g = g)); [|done].
  rewrite lookup_set_shape. destruct (decide (g = g)); [|done].
  reflexivity.
Qed.

Lemma bind_tensor_lookup (sm : gmap JitValue VariableMeta) (g : JitValue)
    (s : list Z) :
  set_shape (set_intValue (set_shape sm g []) g []) g s !! g
  = Some (mkMeta s []).
Proof.
  rewrite lookup_set_shape. destruct (decide (g = g)); [|done].
  rewrite lookup_set_intValue. destruct (decide (g = g)); [|done].
  reflexivity.
Qed.

(** Lookups after stores to another value, and bound values staying
    bound. *)
Ltac other_value :=
  repeat first
    [ rewrite lookup_set_intValue
    | rewrite lookup_set_shape
    | match goal with
      | |- context [decide (?a = ?b)] =>
          destruct (decide (a = b)); try congruence
      end ].

Ltac stays_bound :=
  repeat match goal with
         | |- is_Some (set_intValue _ _ _ !! _) =>
             rewrite lookup_set_intValue; case_decide; [eauto|]
         | |- is_Some (set_shape _ _ _ !! _) =>
             rewrite lookup_set_shape; case_decide; [eauto|]
         end.

Lemma getGraphIntputShape_loop_untouched (ins : list IValue) (i : nat)
    (gins : list JitValue) (sm sm' : gmap JitValue VariableMeta)
    (r : Expected unit) (g : JitValue) :
  getGraphIntputShape_loop ins (Z.of_nat i) gins sm = (r, sm') ->
  g ∉ drop i gins -> sm' !! g = sm !! g.
Proof.
  revert i sm. induction ins as [|input rest IH]; intros i sm H Hg.
  - cbn in H. injection H as <- <-. reflexivity.
  - cbn [getGraphIntputShape_loop] in H.
    destruct (vec_at gins (Z.of_nat i)) as [g0|msg args|f] eqn:Hg0;
      try (injection H as <- <-; reflexivity).
    apply vec_at_Value in Hg0 as [_ Hg0]. rewrite Nat2Z.id in Hg0.
    rewrite (drop_S _ _ _ Hg0) in Hg. apply not_elem_of_cons in Hg as [Hne Hg].
    replace (Z.of_nat i + 1) with (Z.of_nat (S i)) in H by lia.
    destruct input as [sizes|b|v|l|];
      try (apply IH in H; [|exact Hg]; rewrite H;
           solve [other_value; try reflexivity]).
    injection H as <- <-. solve [other_value; try reflexivity].
Qed.

Lemma getGraphIntputShape_loop_keeps (ins : list IValue) (i : Z)
    (gins : list JitValue) (sm sm' : gmap JitValue VariableMeta)
    (r : Expected unit) (g : JitValue) :
  getGraphIntputShape_loop ins i gins sm = (r, sm') ->
  is_Some (sm !! g) -> is_Some (sm' !! g).
Proof.
  revert i sm. induction ins as [|input rest IH]; intros i sm H Hg.
  - cbn in H. injection H as <- <-. exact Hg.
  - cbn [getGraphIntputShape_loop] in H.
    destruct (vec_at gins i) as [g0|msg args|f] eqn:Hg0;
      try (injection H as <- <-; exact Hg).
    destruct input as [sizes|b|v|l|];
      try (apply IH in H; [exact H|]; stays_bound; exact Hg).
    injection H as <- <-. stays_bound. exact Hg.
Qed.

Lemma getGraphIntputShape_loop_binds (ins : list IValue) (i : nat)
    (gins : list JitValue) (sm sm' : gmap JitValue VariableMeta) :
  NoDup gins ->
  getGraphIntputShape_loop ins (Z.of_nat i) gins sm = (Value tt, sm') ->
  forall (k : nat) (v : IValue),
    ins !! k = Some v ->
    exists g, gins !! (i + k)%nat = Some g /\ sm' !! g = input_meta v.
Proof.
  intros Hnd. revert i sm.
  induction ins as [|input rest IH]; intros i sm H k v Hk; [inversion Hk|].
  cbn [getGraphIntputShape_loop] in H.
  destruct (vec_at gins (Z.of_nat i)) as [g0|msg args|f] eqn:Hg0;
    try (injection H as H _; discriminate).
  apply vec_at_Value in Hg0 as [_ Hg0]. rewrite Nat2Z.id in Hg0.
  replace (Z.of_nat i + 1) with (Z.of_nat (S i)) in H by lia.
  assert (Hfresh : g0 ∉ drop (S i) gins).
  { intros Hin. apply list_elem_of_lookup in Hin as [j Hj].
    rewrite lookup_drop in Hj.
    pose proof (NoDup_lookup _ _ _ _ Hnd Hg0 Hj). lia. }
  destruct k as [|k].
  - cbn in Hk. injection Hk as ->. exists g0.
    rewrite Nat.add_0_r. split; [exact Hg0|].
    destruct v as [sizes|b|x|l|];
      try (rewrite (getGraphIntputShape_loop_untouched _ _ _ _ _ _ _ H Hfresh);
           cbn [input_meta];
           first [apply bind_input_lookup | apply bind_tensor_lookup]).
    injection H as H _. discriminate.
  - cbn in Hk. replace (i + S k)%nat with (S i + k)%nat by lia.
    destruct input as [sizes|b|x|l|];
      try (eapply IH; [exact H|exact Hk]).
    injection H as H _. discriminate.
Qed.

Lemma getGraphIntputShape_loop_succeeds (ins : list IValue) (i : nat)
    (gins : list JitValue) (sm : gmap JitValue VariableMeta) :
  (i + length ins <= length gins)%nat -> IVOther ∉ ins ->
  fst (getGraphIntputShape_loop ins (Z.of_nat i) gins sm) = Value tt.
Proof.
  revert i sm. induction ins as [|input rest IH]; intros i sm Hlen Hsup;
    [reflexivity|].
  cbn [length] in Hlen. apply not_elem_of_cons in Hsup as [Hne Hsup].
  cbn [getGraphIntputShape_loop].
  destruct (lookup_lt_is_Some_2 gins i) as [g Hg]; [lia|].
  rewrite (vec_at_lookup gins i g Hg).
  replace (Z.of_nat i + 1) with (Z.of_nat (S i)) by lia.
  destruct input as [sizes|b|v|l|]; try (apply IH; [lia|exact Hsup]).
  congruence.
Qed.

(** X16.  Binding the graph inputs: when the graph inputs are distinct
    values, at least as many as the concrete inputs, and every concrete
    input is a tensor, a boolean, an integer or an integer list, the binding
    succeeds and the map then holds, for the graph input at each position,
    the metadata of the concrete input at that position: for a tensor its
    sizes and no value, for a boolean or an integer the shape {1} and the
    value, for an integer list the shape {length, 1} and the list. An entry
    that the value had before is replaced; the entries of other values are
    as before. *)
Theorem graph_inputs_bound (e : Engine) :
  NoDup (g_inputs (graph_ e)) ->
  size (inputs_ e) <= size (g_inputs (graph_ e)) ->
  IVOther ∉ inputs_ e ->
  exists e',
    getGraphIntputShape e = (Value tt, e') /\
    (forall (k : nat) (v : IValue),
       inputs_ e !! k = Some v ->
       exists g, g_inputs (graph_ e) !! k = Some g /\
                 shapeMap_ e' !! g = input_meta v) /\
    (forall g, g ∉ g_inputs (graph_ e) ->
       shapeMap_ e' !! g = shapeMap_ e !! g).
Proof.
  intros Hnd Hlen Hsup. unfold getGraphIntputShape.
  change 0 with (Z.of_nat 0).
  pose proof (getGraphIntputShape_loop_succeeds (inputs_ e) 0
                (g_inputs (graph_ e)) (shapeMap_ e)) as Hok.
  destruct (getGraphIntputShape_loop (inputs_ e) (Z.of_nat 0)
              (g_inputs (graph_ e)) (shapeMap_ e)) as [r sm'] eqn:Hloop.
  cbn [fst] in Hok.
  assert (r = Value tt) as ->
    by (apply Hok; [unfold size in Hlen; lia | exact Hsup]).
  exists (with_shapeMap e sm'). split; [reflexivity|].
  cbn [shapeMap_ with_shapeMap].
  split.
  - intros k v Hk.
    exact (getGraphIntputShape_loop_binds _ 0 _ _ _ Hnd Hloop k v Hk).
  - intros g Hg.
    apply (getGraphIntputShape_loop_untouched _ 0 _ _ _ _ _ Hloop).
    rewrite drop_0. exact Hg.
Qed.

Lemma graph_inputs_bound_witness :
  exists e',
    getGraphIntputShape
      (ShapeInferenceEngine (mkGraph [0%nat; 1%nat] [] [])
         [IVTensor [2; 3]; IVIntList [4; 5; 6]] false) = (Value tt, e') /\
    shapeMap_ e' !! 1%nat = Some (mkMeta [3; 1] [4; 5; 6]).
Proof.
  destruct (graph_inputs_bound
              (ShapeInferenceEngine (mkGraph [0%nat; 1%nat] [] [])
                 [IVTensor [2; 3]; IVIntList [4; 5; 6]] false))
    as (e' & Hrun & Hbind & _).
  - apply (bool_decide_unpack _). vm_compute. exact I.
  - vm_compute. discriminate.
  - repeat (apply not_elem_of_cons; split; [discriminate|]).
    apply not_elem_of_nil.
  - exists e'. split; [exact Hrun|].
    destruct (Hbind 1%nat (IVIntList [4; 5; 6]) eq_refl) as (g & Hg & Hm).
    cbn in Hg. injection Hg as <-. exact Hm.
Defined.

Lemma generateGraphOutputShape_loop_inv (outs : list JitValue)
    (sm : gmap JitValue VariableMeta) (acc res : list (list Z)) :
  generateGraphOutputShape_loop outs sm acc = Value res <->
  exists shapes, res = acc ++ shapes /\ shapes_of sm outs shapes.
Proof.
  revert acc. induction outs as [|o outs IH]; intros acc.
  - cbn [generateGraphOutputShape_loop]. split.
    + intros [= <-]. exists []. rewrite app_nil_r.
      split; [reflexivity|constructor].
    + intros (ss & -> & Hss). inversion Hss. rewrite app_nil_r. reflexivity.
  - cbn [generateGraphOutputShape_loop]. destruct (sm !! o) as [m|] eqn:Ho.
    + rewrite IH. split.
      * intros (ss & -> & Hss). exists (shape m :: ss). rewrite <- app_assoc.
        split; [reflexivity|]. constructor; [eauto|exact Hss].
      * intros (ss & -> & Hss).
        inversion Hss as [|? s ? ss' (m' & Hm' & Hs) Hss']; subst.
        rewrite Ho in Hm'. injection Hm' as <-.
        exists ss'. rewrite <- app_assoc. split; [reflexivity|exact Hss'].
    + split; [discriminate|]. intros (ss & _ & Hss).
      inversion Hss as [|? s ? ss' (m' & Hm' & Hs) Hss']; subst. congruence.
Qed.

Lemma generateGraphOutputShape_loop_missing (outs : list JitValue)
    (sm : gmap JitValue VariableMeta) (acc : list (list Z)) (o : JitValue) :
  o ∈ outs -> sm !! o = None ->
  generateGraphOutputShape_loop outs sm acc = Crash CheckFailed.
Proof.
  intros Hin Ho. revert acc.
  induction outs as [|w outs IH]; intros acc; [inversion Hin|].
  cbn [generateGraphOutputShape_loop].
  destruct (decide (w = o)) as [->|Hne]; [rewrite Ho; reflexivity|].
  destruct (sm !! w); [|reflexivity].
  apply IH. apply elem_of_cons in Hin as [->|Hin]; [done|exact Hin].
Qed.

Lemma generateGraphOutputShape_inv (e e' : Engine) :
  generateGraphOutputShape e = (Value tt, e') <->
  exists shapes,
    shapes_of (shapeMap_ e) (g_outputs (graph_ e)) shapes /\
    e' = mkEngine (graph_ e) (inputs_ e) (hasEndOffset_ e) (shapeMap_ e)
           (outputShape_ e ++ shapes).
Proof.
  unfold generateGraphOutputShape.
  destruct (generateGraphOutputShape_loop _ _ _) as [res|msg args|f] eqn:H.
  - apply generateGraphOutputShape_loop_inv in H as (ss & -> & Hss). split.
    + intros [= <-]. exists ss. split; [exact Hss|reflexivity].
    + intros (ss' & Hss' & ->). do 3 f_equal.
      clear -Hss Hss'. unfold shapes_of in *.
      revert ss' Hss'. induction Hss as [|o s outs ss (m & Hm & <-) _ IH];
        intros ss' Hss'; inversion Hss' as [|? s' ? ss'' (m' & Hm' & <-) Hr];
        subst; [reflexivity|].
      rewrite Hm in Hm'. injection Hm' as <-. f_equal. apply IH. exact Hr.
  - split; [discriminate|]. intros (ss & Hss & _).
    assert (Hv : generateGraphOutputShape_loop (g_outputs (graph_ e))
                   (shapeMap_ e) (outputShape_ e)
                 = Value (outputShape_ e ++ ss))
      by (apply generateGraphOutputShape_loop_inv; eauto).
    congruence.
  - split; [discriminate|]. intros (ss & Hss & _).
    assert (Hv : generateGraphOutputShape_loop (g_outputs (graph_ e))
                   (shapeMap_ e) (outputShape_ e)
                 = Value (outputShape_ e ++ ss))
      by (apply generateGraphOutputShape_loop_inv; eauto).
    congruence.
Qed.

(** X17.  Collecting the output shapes: when every graph output is bound,
    the shapes that the map holds for the graph outputs are appended, in the
    order of the graph outputs, to the shapes collected before, and nothing
    else of the engine changes; when some graph output is not bound, the
    CHECK on its lookup fails. *)
Theorem graph_outputs_collected (e : Engine) :
  (forall e',
     generateGraphOutputShape e = (Value tt, e') <->
     exists shapes,
       shapes_of (shapeMap_ e) (g_outputs (graph_ e)) shapes /\
       e' = mkEngine (graph_ e) (inputs_ e) (hasEndOffset_ e) (shapeMap_ e)
              (outputShape_ e ++ shapes)) /\
  (forall o, o ∈ g_outputs (graph_ e) -> shapeMap_ e !! o = None ->
     generateGraphOutputShape e = (Crash CheckFailed, e)).
Proof.
  split; [intros e'; apply generateGraphOutputShape_inv|].
  intros o Hin Ho. unfold generateGraphOutputShape.
  rewrite (generateGraphOutputShape_loop_missing _ _ _ o Hin Ho).
  reflexivity.
Qed.

Lemma graph_outputs_collected_witness :
  generateGraphOutputShape
    (mkEngine (mkGraph [] [0%nat; 7%nat] []) [] false
       {[0%nat := mkMeta [2; 3] []]} [])
  = (Crash CheckFailed,
     mkEngine (mkGraph [] [0%nat; 7%nat] []) [] false
       {[0%nat := mkMeta [2; 3] []]} []).
Proof.
  refine (proj2 (graph_outputs_collected _) 7%nat _ _).
  - cbn. apply elem_of_cons. right. apply elem_of_cons. left. reflexivity.
  - reflexivity.
Defined.

(** X18.  A successful run leaves one shape for each graph output: the
    shapes collected by the run, appended to those the engine held before
    (none for a new engine), are the shapes that the final map holds for the
    graph outputs, in their order. *)
Theorem run_output_shapes (e e' : Engine) :
  run e = (Value tt, e') ->
  exists shapes,
    getGraphOutputShape e' = outputShape_ e ++ shapes /\
    shapes_of (shapeMap_ e') (g_outputs (graph_ e)) shapes /\
    size shapes = size (g_outputs (graph_ e)).
Proof.
  intros H. unfold run in H.
  destruct (negb _); [discriminate|].
  pose proof (getGraphIntputShape_frame e) as [Ho1 Hg1].
  destruct (getGraphIntputShape e) as [[u1|msg args|f] e1];
    try discriminate. cbn [snd] in Ho1, Hg1.
  pose proof (run_nodes_frame (g_nodes (graph_ e1)) e1) as (Ho2 & Hg2 & _).
  destruct (run_nodes (g_nodes (graph_ e1)) e1) as [[u2|msg args|f] e2];
    try discriminate. cbn [snd] in Ho2, Hg2.
  destruct u2.
  apply generateGraphOutputShape_inv in H.
  destruct H as (ss & Hss & ->). exists ss.
  unfold getGraphOutputShape. cbn [outputShape_ shapeMap_].
  rewrite Ho2, Ho1, Hg2, Hg1 in *. split; [reflexivity|].
  split; [exact Hss|]. unfold size. f_equal. symmetry.
  exact (Forall2_length _ _ _ Hss).
Qed.

Lemma run_output_shapes_witness :
  let e :=
    ShapeInferenceEngine
      (mkGraph [0%nat] [1%nat; 0%nat]
         [mkNode aten_relu [0%nat] [1%nat] TensorType 0 0 0 []])
      [IVTensor [2; 3]] true in
  exists shapes,
    getGraphOutputShape (snd (run e)) = outputShape_ e ++ shapes /\
    shapes_of (shapeMap_ (snd (run e))) (g_outputs (graph_ e)) shapes /\
    size shapes = size (g_outputs (graph_ e)).
Proof.
  intros e. apply (run_output_shapes e (snd (run e))). reflexivity.
Defined.

(** ** The engine: which entries a node and a run change *)

Lemma storeShapes_frame (outs : list (list Z)) (os : list JitValue) (i : Z)
    (sm sm' : gmap JitValue VariableMeta) (v : JitValue) :
  storeShapes outs os i sm = Value sm' ->
  (v ∉ os -> sm' !! v = sm !! v) /\
  (is_Some (sm !! v) -> is_Some (sm' !! v)).
Proof.
  revert i sm. induction os as [|o os IH]; intros i sm H.
  - cbn in H. injection H as <-. split; auto.
  - cbn [storeShapes] in H. bind_inv H as s Hs.
    apply IH in H as [Ha Hb]. split.
    + intros Hv. apply not_elem_of_cons in Hv as [Hne Hv].
      rewrite Ha by exact Hv. rewrite lookup_set_shape.
      destruct (decide (o = v)); [congruence|reflexivity].
    + intros Hv. apply Hb. rewrite lookup_set_shape.
      destruct (decide (o = v)); [eauto|exact Hv].
Qed.

Lemma output_elem (node : Node) (o : JitValue) :
  output node = Value o -> o ∈ outputs node.
Proof.
  unfold output. destruct (outputs node) as [|x [|y l]]; try discriminate.
  intros [= <-]. apply elem_of_cons. left. reflexivity.
Qed.

Lemma output_at_elem (node : Node) (i : Z) (o : JitValue) :
  output_at node i = Value o -> o ∈ outputs node.
Proof.
  unfold output_at. destruct (vec_at (outputs node) i) eqn:H; try discriminate.
  intros [= <-]. eapply vec_at_elem. exact H.
Qed.

Lemma storeOutputs_frame (node : Node) (outs : list (list Z))
    (sm sm' : gmap JitValue VariableMeta) (v : JitValue) :
  storeOutputs node outs sm = Value sm' ->
  (v ∉ outputs node -> sm' !! v = sm !! v) /\
  (is_Some (sm !! v) -> is_Some (sm' !! v)).
Proof.
  unfold storeOutputs. intros H.
  destruct (decide (kind node = prim_Constant)).
  { bind_inv H as o Ho. bind_inv H as s Hs. apply output_elem in Ho.
    destruct (output_type node); injection H as <-;
      (split; [intros Hv; assert (o <> v) by congruence;
               solve [other_value; try reflexivity]
              | intros Hv; stays_bound; exact Hv]). }
  destruct (decide (kind node = prim_ListConstruct)).
  { bind_inv H as o Ho. bind_inv H as s Hs. apply output_elem in Ho.
    injection H as <-.
    split; [intros Hv; assert (o <> v) by congruence;
            solve [other_value; try reflexivity]
           | intros Hv; stays_bound; exact Hv]. }
  destruct (decide (kind node = aten_embedding_bag)).
  { bind_inv H as o Ho. bind_inv H as s Hs. apply output_at_elem in Ho.
    injection H as <-.
    split; [intros Hv; assert (o <> v) by congruence;
            solve [other_value; try reflexivity]
           | intros Hv; stays_bound; exact Hv]. }
  exact (storeShapes_frame _ _ _ _ _ _ H).
Qed.

Lemma shapeOnNode_map_frame (node : Node) (e e' : Engine) (r : Expected unit)
    (v : JitValue) :
  shapeOnNode node e = (r, e') ->
  (v ∉ outputs node -> shapeMap_ e' !! v = shapeMap_ e !! v) /\
  (is_Some (shapeMap_ e !! v) -> is_Some (shapeMap_ e' !! v)).
Proof.
  unfold shapeOnNode. intros H.
  destruct (_ ≫= _) as [sm|msg args|f] eqn:Hsm;
    injection H as <- <-; [|split; auto|split; auto].
  bind_inv Hsm as metas Hm. bind_inv Hsm as outs Ho.
  exact (storeOutputs_frame _ _ _ _ v Hsm).
Qed.

Lemma run_nodes_map_frame (nodes : list Node) (e e' : Engine)
    (r : Expected unit) (v : JitValue) :
  run_nodes nodes e = (r, e') ->
  ((forall node, node ∈ nodes -> v ∉ outputs node) ->
   shapeMap_ e' !! v = shapeMap_ e !! v) /\
  (is_Some (shapeMap_ e !! v) -> is_Some (shapeMap_ e' !! v)).
Proof.
  revert e. induction nodes as [|node nodes IH]; intros e H.
  - cbn in H. injection H as <- <-. split; auto.
  - cbn [run_nodes] in H.
    destruct (shapeOnNode node e) as [r1 e1] eqn:H1.
    pose proof (shapeOnNode_map_frame node e e1 r1 v H1) as [Ha Hb].
    assert (Hhere : node ∈ node :: nodes) by (apply elem_of_cons; auto).
    destruct r1 as [u|msg args|f].
    + apply IH in H as [Hc Hd]. split.
      * intros Hv. rewrite Hc, Ha; [reflexivity|apply Hv, Hhere|].
        intros n Hn. apply Hv. apply elem_of_cons. auto.
      * intros Hv. apply Hd, Hb, Hv.
    + injection H as <- <-. split; [intros Hv; apply Ha, Hv, Hhere|exact Hb].
    + injection H as <- <-. split; [intros Hv; apply Ha, Hv, Hhere|exact Hb].
Qed.

Lemma generateGraphOutputShape_map (e e' : Engine) (r : Expected unit) :
  generateGraphOutputShape e = (r, e') -> shapeMap_ e' = shapeMap_ e.
Proof.
  unfold generateGraphOutputShape.
  destruct (generateGraphOutputShape_loop _ _ _); intros [= <- <-];
    reflexivity.
Qed.

(** X19.  What a run changes in the map: whether it succeeds or fails, a run
    changes no entry of a value that is neither a graph input nor an output
    of a node of the graph, and every value bound before the run is bound
    after it. *)
Theorem run_changes_defined_values_only (e e' : Engine) (r : Expected unit) :
  run e = (r, e') ->
  (forall v,
     v ∉ g_inputs (graph_ e) ->
     (forall node, node ∈ g_nodes (graph_ e) -> v ∉ outputs node) ->
     shapeMap_ e' !! v = shapeMap_ e !! v) /\
  (forall v, is_Some (shapeMap_ e !! v) -> is_Some (shapeMap_ e' !! v)).
Proof.
  intros H. unfold run in H.
  destruct (negb _); [injection H as <- <-; split; auto|].
  pose proof (getGraphIntputShape_frame e) as [_ Hg1].
  assert (H1 : forall v,
    (v ∉ g_inputs (graph_ e) ->
     shapeMap_ (snd (getGraphIntputShape e)) !! v = shapeMap_ e !! v) /\
    (is_Some (shapeMap_ e !! v) ->
     is_Some (shapeMap_ (snd (getGraphIntputShape e)) !! v))).
  { intros v. unfold getGraphIntputShape. change 0 with (Z.of_nat 0).
    destruct (getGraphIntputShape_loop _ _ _ _) as [r1 sm1] eqn:Hl.
    cbn [snd shapeMap_ with_shapeMap]. split.
    - intros Hv. apply (getGraphIntputShape_loop_untouched _ _ _ _ _ _ _ Hl).
      rewrite drop_0. exact Hv.
    - apply (getGraphIntputShape_loop_keeps _ _ _ _ _ _ _ Hl). }
  destruct (getGraphIntputShape e) as [[u1|msg args|f] e1];
    cbn [snd] in *;
    try (injection H as <- <-; split; intros v; [intros Hv _|];
         apply H1; assumption).
  rewrite Hg1 in H.
  destruct (run_nodes (g_nodes (graph_ e)) e1) as [r2 e2] eqn:H2.
  assert (H3 : shapeMap_ e' = shapeMap_ e2).
  { destruct r2 as [u2|msg args|f]; try (injection H as <- <-; reflexivity).
    exact (generateGraphOutputShape_map _ _ _ H). }
  rewrite H3. split.
  - intros v Hv Hn.
    rewrite (proj1 (run_nodes_map_frame _ _ _ _ v H2) Hn).
    apply H1, Hv.
  - intros v Hv. apply (proj2 (run_nodes_map_frame _ _ _ _ v H2)).
    apply H1, Hv.
Qed.

Lemma run_changes_defined_values_only_witness :
  let e :=
    mkEngine
      (mkGraph [0%nat] [1%nat]
         [mkNode aten_relu [0%nat] [1%nat] TensorType 0 0 0 []])
      [IVTensor [2; 3]] true {[9%nat := mkMeta [7] [7]]} [] in
  shapeMap_ (snd (run e)) !! 9%nat = shapeMap_ e !! 9%nat.
Proof.
  intros e.
  refine (proj1 (run_changes_defined_values_only e (snd (run e))
                   (fst (run e)) _) 9%nat _ _).
  - reflexivity.
  - cbn. intros H. apply elem_of_cons in H as [H|H]; [discriminate|].
    inversion H.
  - cbn. intros node H. apply elem_of_cons in H as [->|H]; [|inversion H].
    cbn. intros H. apply elem_of_cons in H as [H|H]; [discriminate|].
    inversion H.
Defined.

(** X20.  A graph input that no node redefines passes through a run: when a
    run succeeds, the graph inputs are distinct, a tensor is given for the
    graph input [g] and [g] is no output of a node, then at each position at
    which [g] is a graph output the run returns the sizes of that tensor. *)
Theorem run_passes_input_through (e e' : Engine) (k j : nat) (g : JitValue)
    (sizes : list Z) :
  run e = (Value tt, e') ->
  NoDup (g_inputs (graph_ e)) ->
  g_inputs (graph_ e) !! k = Some g ->
  inputs_ e !! k = Some (IVTensor sizes) ->
  (forall node, node ∈ g_nodes (graph_ e) -> g ∉ outputs node) ->
  g_outputs (graph_ e) !! j = Some g ->
  getGraphOutputShape e' !! (length (outputShape_ e) + j)%nat = Some sizes.
Proof.
  intros H Hnd Hg Hin Hdef Hout. unfold run in H.
  destruct (negb _); [discriminate|].
  pose proof (getGraphIntputShape_frame e) as [Ho1 Hg1].
  assert (H1 : fst (getGraphIntputShape e) = Value tt ->
               shapeMap_ (snd (getGraphIntputShape e)) !! g
               = Some (mkMeta sizes [])).
  { unfold getGraphIntputShape. change 0 with (Z.of_nat 0).
    destruct (getGraphIntputShape_loop _ _ _ _) as [r1 sm1] eqn:Hl.
    cbn [fst snd shapeMap_ with_shapeMap]. intros ->.
    destruct (getGraphIntputShape_loop_binds _ 0 _ _ _ Hnd Hl k _ Hin)
      as (g' & Hg' & Hm).
    cbn [Nat.add] in Hg'. rewrite Hg in Hg'. injection Hg' as <-. exact Hm. }
  destruct (getGraphIntputShape e) as [[[]|msg args|f] e1];
    try discriminate. cbn [fst snd] in *. specialize (H1 eq_refl).
  rewrite Hg1 in H.
  pose proof (run_nodes_frame (g_nodes (graph_ e)) e1) as (Ho2 & Hg2 & _).
  destruct (run_nodes (g_nodes (graph_ e)) e1) as [[[]|msg args|f] e2] eqn:H2;
    try discriminate. cbn [snd] in *.
  pose proof (proj1 (run_nodes_map_frame _ _ _ _ g H2) Hdef) as H3.
  apply generateGraphOutputShape_inv in H as (ss & Hss & ->).
  unfold getGraphOutputShape. cbn [outputShape_].
  rewrite Ho2, Ho1, Hg2, Hg1 in *.
  rewrite lookup_app_r by lia.
  replace (length (outputShape_ e) + j - length (outputShape_ e))%nat
    with j by lia.
  destruct (Forall2_lookup_l _ _ _ _ _ Hss Hout) as (s & Hs & m & Hm & <-).
  rewrite Hs. f_equal. rewrite H3, H1 in Hm. injection Hm as <-. reflexivity.
Qed.

Lemma run_passes_input_through_witness :
  let e :=
    ShapeInferenceEngine
      (mkGraph [0%nat; 1%nat] [2%nat; 1%nat]
         [mkNode aten_relu [0%nat] [2%nat] TensorType 0 0 0 []])
      [IVTensor [2; 3]; IVTensor [4; 5; 6]] true in
  getGraphOutputShape (snd (run e)) !! 1%nat = Some [4; 5; 6].
Proof.
  intros e.
  refine (run_passes_input_through e (snd (run e)) 1 1 1%nat [4; 5; 6]
            _ _ _ _ _ _).
  - reflexivity.
  - apply (bool_decide_unpack _). vm_compute. exact I.
  - reflexivity.
  - reflexivity.
  - cbn. intros node H. apply elem_of_cons in H as [->|H]; [|inversion H].
    cbn. intros H. apply elem_of_cons in H as [H|H]; [discriminate|].
    inversion H.
  - reflexivity.
Defined.

(** ** The engine: storing the results of a node *)

Lemma storeShapes_short (outs : list (list Z)) (os : list JitValue) (i : Z)
    (sm : gmap JitValue VariableMeta) :
  0 <= i <= size outs -> size outs < i + size os ->
  storeShapes outs os i sm = Crash OutOfRange.
Proof.
  revert i sm. induction os as [|o os IH]; intros i sm Hi Hlen.
  - change (@size JitValue []) with 0 in Hlen. lia.
  - rewrite size_cons in Hlen. cbn [storeShapes].
    destruct (Z.eq_dec i (size outs)) as [->|Hne].
    + rewrite vec_at_out by lia. reflexivity.
    + destruct (lookup_lt_is_Some_2 outs (Z.to_nat i)) as [s Hs].
      { unfold size in *. lia. }
      rewrite (proj2 (vec_at_Value outs i s)) by (split; [lia|exact Hs]).
      cbn [mbind Expected_bind]. apply IH; lia.
Qed.

Lemma storeShapes_stores (outs : list (list Z)) (os : list JitValue) (i : nat)
    (sm : gmap JitValue VariableMeta) :
  NoDup os -> (i + length os <= length outs)%nat ->
  exists sm',
    storeShapes outs os (Z.of_nat i) sm = Value sm' /\
    forall (k : nat) (o : JitValue),
      os !! k = Some o ->
      exists s,
        outs !! (i + k)%nat = Some s /\
        sm' !! o = Some (mkMeta s (intValue (default emptyMeta (sm !! o)))).
Proof.
  intros Hnd. revert i sm.
  induction Hnd as [|o os Hfresh Hnd IH]; intros i sm Hlen.
  - exists sm. split; [reflexivity|]. intros k o Hk. inversion Hk.
  - cbn [length] in Hlen. cbn [storeShapes].
    destruct (lookup_lt_is_Some_2 outs i) as [s0 Hs0]; [lia|].
    rewrite (vec_at_lookup outs i s0 Hs0). cbn [mbind Expected_bind].
    replace (Z.of_nat i + 1) with (Z.of_nat (S i)) by lia.
    destruct (IH (S i) (set_shape sm o s0)) as (sm' & Hst & Hall); [lia|].
    exists sm'. split; [exact Hst|].
    intros [|k] o' Hk; cbn in Hk.
    + injection Hk as <-. exists s0. rewrite Nat.add_0_r.
      split; [exact Hs0|].
      rewrite (proj1 (storeShapes_frame _ _ _ _ _ o Hst) Hfresh).
      rewrite lookup_set_shape. destruct (decide (o = o)); [reflexivity|done].
    + destruct (Hall k o' Hk) as (s & Hs & Hm). exists s.
      replace (i + S k)%nat with (S i + k)%nat by lia.
      split; [exact Hs|]. rewrite Hm, lookup_set_shape.
      destruct (decide (o = o')) as [->|Hne]; [|reflexivity].
      exfalso. apply Hfresh. apply list_elem_of_lookup. eauto.
Qed.

(** X21.  For a node whose results are stored output by output (every
    operator but constants, list construction and embedding_bag): when the
    rule returns fewer shapes than the node has outputs, storing reads the
    results outside their elements; otherwise each output is bound to the
    shape at its position, keeps the integer values it had, and further
    shapes of the rule are dropped. *)
Theorem node_results_stored_by_output (node : Node) (e : Engine)
    (metas : MetaStack) (outs : list (list Z)) :
  stored_by_output (kind node) ->
  getNodeInputShape node (shapeMap_ e) = Value metas ->
  nodeRule (hasEndOffset_ e) node metas = Value outs ->
  (size outs < size (outputs node) ->
   shapeOnNode node e = (Crash OutOfRange, e)) /\
  (size (outputs node) <= size outs -> NoDup (outputs node) ->
   exists e',
     shapeOnNode node e = (Value tt, e') /\
     forall (k : nat) (o : JitValue),
       outputs node !! k = Some o ->
       exists s,
         outs !! k = Some s /\
         shapeMap_ e' !! o
         = Some (mkMeta s
                   (intValue (default emptyMeta (shapeMap_ e !! o))))).
Proof.
  intros (Hk1 & Hk2 & Hk3) Hin Hrule.
  assert (Hstore : storeOutputs node outs (shapeMap_ e)
                   = storeShapes outs (outputs node) 0 (shapeMap_ e)).
  { unfold storeOutputs.
    destruct (decide (kind node = prim_Constant)); [contradiction|].
    destruct (decide (kind node = prim_ListConstruct)); [contradiction|].
    destruct (decide (kind node = aten_embedding_bag)); [contradiction|].
    reflexivity. }
  unfold shapeOnNode. rewrite Hin. cbn [mbind Expected_bind].
  rewrite Hrule. cbn [mbind Expected_bind]. rewrite Hstore. split.
  - intros Hshort. rewrite storeShapes_short; [reflexivity| |lia].
    pose proof (size_nonneg outs). lia.
  - intros Hlen Hnd.
    destruct (storeShapes_stores outs (outputs node) 0 (shapeMap_ e) Hnd)
      as (sm' & Hst & Hall); [unfold size in Hlen; lia|].
    change (Z.of_nat 0) with 0 in Hst. rewrite Hst.
    exists (with_shapeMap e sm'). split; [reflexivity|].
    intros k o Hk. exact (Hall k o Hk).
Qed.

Lemma node_results_stored_by_output_witness :
  let node :=
    mkNode prim_ConstantChunk [0%nat] [1%nat; 2%nat; 3%nat; 4%nat]
      TensorType 0 3 0 [] in
  let e :=
    mkEngine (mkGraph [] [] []) [] false {[0%nat := mkMeta [10] []]} [] in
  shapeOnNode node e = (Crash OutOfRange, e).
Proof.
  intros node e.
  refine (proj1 (node_results_stored_by_output node e [mkMeta [10] []]
                   [[4]; [4]; [2]] _ _ _) _).
  - repeat split; discriminate.
  - reflexivity.
  - reflexivity.
  - vm_compute. reflexivity.
Defined.

Lemma set_intValue_set_shape_insert (sm : gmap JitValue VariableMeta)
    (o : JitValue) (s l : list Z) :
  set_intValue (set_shape sm o s) o l = <[o := mkMeta s l]> sm.
Proof.
  unfold set_intValue, set_shape. rewrite lookup_insert_eq. cbn.
  apply insert_insert_eq.
Qed.

Lemma listConstruct_loop_rejects (pre post : MetaStack) (m : VariableMeta)
    (vals acc : list Z) :
  Forall2 scalar_carrier pre vals -> size (shape m) <> 1 ->
  listConstruct_loop (pre ++ m :: post) acc
  = MakeErr "Expected int type input in listConstruct." [].
Proof.
  intros Hpre Hm. revert acc.
  induction Hpre as [|c v pre vals [Hc Hv] _ IH]; intros acc.
  - cbn [app listConstruct_loop]. exp_simpl. reflexivity.
  - cbn [app listConstruct_loop]. exp_simpl.
    rewrite (scalar_carrier_at c v (conj Hc Hv)).
    cbn [mbind Expected_bind]. apply IH.
Qed.

(** X22.  A list-construction node over scalar carriers binds its output to
    the list of their values, with the shape {length, 1}, whatever the
    output held before. The rule reports an error for an empty list of
    inputs and for an input whose shape is not of length 1, as is the shape
    of every integer list. *)
Theorem list_node_stores_values (node : Node) (e : Engine)
    (metas : MetaStack) :
  kind node = prim_ListConstruct ->
  getNodeInputShape node (shapeMap_ e) = Value metas ->
  (forall (o : JitValue) (vals : list Z),
     outputs node = [o] -> metas <> [] ->
     Forall2 scalar_carrier metas vals ->
     shapeOnNode node e
     = (Value tt,
        with_shapeMap e
          (<[o := mkMeta [size vals; 1] vals]> (shapeMap_ e)))) /\
  (metas = [] -> is_err (fst (shapeOnNode node e)) = true) /\
  (forall (pre post : MetaStack) (m : VariableMeta) (vals : list Z),
     metas = pre ++ m :: post -> Forall2 scalar_carrier pre vals ->
     size (shape m) <> 1 ->
     shapeOnNode node e
     = (MakeErr "Expected int type input in listConstruct." [], e)).
Proof.
  intros Hkind Hin. unfold shapeOnNode. rewrite Hin.
  cbn [mbind Expected_bind]. unfold nodeRule. rewrite Hkind.
  split; [|split].
  - intros o vals Hout Hne Hvals.
    rewrite (listConstruct_carriers metas vals Hne Hvals).
    cbn [mbind Expected_bind]. unfold storeOutputs, output.
    rewrite Hkind, Hout.
    destruct (decide (prim_ListConstruct = prim_Constant)); [done|].
    destruct (decide (prim_ListConstruct = prim_ListConstruct)); [|done].
    exp_simpl. rewrite set_intValue_set_shape_insert. reflexivity.
  - intros ->. reflexivity.
  - intros pre post m vals -> Hpre Hm. unfold listConstruct.
    assert ((1 <=? size (pre ++ m :: post)) = true) as ->.
    { rewrite size_app, size_cons.
      pose proof (size_nonneg pre). pose proof (size_nonneg post). lia. }
    cbn [RETURN_ERR_IF_NOT mbind Expected_bind].
    rewrite (listConstruct_loop_rejects pre post m vals [] Hpre Hm).
    reflexivity.
Qed.

Lemma list_node_stores_values_witness :
  let node := mkNode prim_ListConstruct [0%nat; 1%nat] [2%nat] OtherType
                0 0 0 [] in
  let e :=
    mkEngine (mkGraph [] [] []) [] false
      {[0%nat := mkMeta [1] [3]; 1%nat := mkMeta [2; 1] [4; 5]]} [] in
  shapeOnNode node e
  = (MakeErr "Expected int type input in listConstruct." [], e).
Proof.
  intros node e.
  refine (proj2 (proj2 (list_node_stores_values node e
                          [mkMeta [1] [3]; mkMeta [2; 1] [4; 5]] _ _))
            [mkMeta [1] [3]] [] (mkMeta [2; 1] [4; 5]) [3] _ _ _).
  - reflexivity.
  - reflexivity.
  - reflexivity.
  - repeat constructor.
  - vm_compute. discriminate.
Defined.

(** ** embeddingBag: a weight without a second dimension *)

(** X23.  Neither embedding rule checks the rank of the weight, and the
    row-wise-quantized rule does not check the rank of the offsets: with 8
    inputs, a weight of rank below 2 (or, for the row-wise-quantized rule,
    offsets of rank 0) is read outside its shape wherever the rule would
    return a shape. *)
Theorem embedding_weight_rank_unchecked (adj : bool)
    (weight indices offsets : VariableMeta) (flags : MetaStack) :
  let metas := weight :: indices :: offsets :: flags in
  size metas = 8 ->
  (size (shape weight) < 2 ->
   (size (shape indices) = 1 -> size (shape offsets) = 1 ->
    embeddingBag adj metas = Crash OutOfRange) /\
   (size (shape indices) = 2 ->
    embeddingBag adj metas = Crash OutOfRange)) /\
  (size (shape weight) < 2 \/ size (shape offsets) = 0 ->
   embeddingBagByteRowwiseOffsets adj metas = Crash OutOfRange).
Proof.
  intros metas Hsize.
  assert (Hw : size (shape weight) < 2 ->
               vec_at (shape weight) 1 = Crash OutOfRange)
    by (intros H; apply vec_at_out; lia).
  unfold metas in *. split.
  - intros Hlt. split.
    + intros Hi Ho. unfold embeddingBag. rewrite Hsize. exp_simpl.
      apply size_1_inv in Ho as [n Ho]. rewrite Ho. exp_simpl.
      rewrite Hw by exact Hlt. reflexivity.
    + intros Hi. unfold embeddingBag. rewrite Hsize. exp_simpl.
      apply size_2_inv in Hi as (i0 & i1 & Hi). rewrite Hi. exp_simpl.
      rewrite Hw by exact Hlt. reflexivity.
  - intros Hbad. unfold embeddingBagByteRowwiseOffsets. rewrite Hsize.
    exp_simpl.
    destruct (shape offsets) as [|n ns] eqn:Ho.
    + rewrite vec_at_nil. reflexivity.
    + rewrite vec_at_0. cbn [mbind Expected_bind].
      destruct Hbad as [Hlt|H0].
      * rewrite Hw by exact Hlt. reflexivity.
      * rewrite size_cons in H0. pose proof (size_nonneg ns). lia.
Qed.

Lemma embedding_weight_rank_unchecked_witness :
  embeddingBagByteRowwiseOffsets true
    [mkMeta [100] []; mkMeta [5] []; mkMeta [3] []; mkMeta [1] [0];
     mkMeta [1] [0]; mkMeta [1] [0]; mkMeta [1] []; mkMeta [1] [1]]
  = Crash OutOfRange.
Proof.
  refine (proj2 (embedding_weight_rank_unchecked true (mkMeta [100] [])
            (mkMeta [5] []) (mkMeta [3] [])
            [mkMeta [1] [0]; mkMeta [1] [0]; mkMeta [1] [0]; mkMeta [1] [];
             mkMeta [1] [1]] _) _).
  - reflexivity.
  - left. vm_compute. reflexivity.
Defined.

(** ** constantChunk: a negative chunk count *)

(** X24.  For a negative chunk count the chunking rule returns no shape at
    all: the quotient is computed and the loop over the pieces does not run. *)
Theorem constantChunk_negative_count (self : VariableMeta)
    (chunks dim sz : Z) :
  int64 dim -> size (shape self) <= int64_max ->
  let nd := normalize_dim dim (size (shape self)) in
  0 <= nd -> shape self !! Z.to_nat nd = Some sz ->
  int64_min <= chunks < 0 -> Z.abs sz <= 2 ^ 62 ->
  constantChunk [self] chunks dim = Value [].
Proof.
  intros Hdim Hrank nd H0 Hsz Hch Habs.
  rewrite (constantChunk_prefix self chunks dim Hdim Hrank). fold nd.
  pose proof (lookup_lt_Some _ _ _ Hsz) as Hlt.
  unfold int64, int64_min, int64_max in *.
  assert ((0 <=? nd) && (nd <? size (shape self)) = true) as ->.
  { unfold size.
    destruct (Z.leb_spec 0 nd),
      (Z.ltb_spec nd (Z.of_nat (length (shape self))));
      cbn; try reflexivity; lia. }
  rewrite (proj2 (vec_at_Value (shape self) nd sz)) by (split; [lia|exact Hsz]).
  cbn [mbind Expected_bind].
  unfold div64. destruct (Z.eqb_spec chunks 0); [lia|].
  assert (Hnum : sub64 (add64 sz chunks) 1 <> int64_min \/ chunks <> -1).
  { destruct (Z.eq_dec chunks (-1)) as [->|Hne]; [left|right; exact Hne].
    unfold sub64, add64.
    rewrite (wrap64_id (sz + -1)) by (unfold int64, int64_min, int64_max; lia).
    rewrite wrap64_id by (unfold int64, int64_min, int64_max; lia).
    unfold int64_min. lia. }
  assert (((sub64 (add64 sz chunks) 1 =? int64_min) && (chunks =? -1)) = false)
    as ->.
  { destruct Hnum as [Hn|Hn].
    - apply Z.eqb_neq in Hn. rewrite Hn. reflexivity.
    - apply Z.eqb_neq in Hn. rewrite Hn. apply andb_false_r. }
  cbn [mbind Expected_bind].
  replace (Z.to_nat chunks) with 0%nat by lia. reflexivity.
Qed.

Lemma constantChunk_negative_count_witness :
  constantChunk [mkMeta [10; 7] []] (-3) 0 = Value [].
Proof.
  refine (constantChunk_negative_count (mkMeta [10; 7] []) (-3) 0 10
            _ _ _ _ _ _);
    try (unfold int64, int64_min, int64_max; lia);
    try (vm_compute; discriminate); reflexivity.
Defined.

(** ** run: a chain of activations *)

Lemma shapeOnNode_activation (node : Node) (e : Engine) (x z : JitValue)
    (m : VariableMeta) :
  is_activation (kind node) ->
  inputs node = [x] -> outputs node = [z] ->
  shapeMap_ e !! x = Some m ->
  shapeOnNode node e
  = (Value tt, with_shapeMap e (set_shape (shapeMap_ e) z (shape m))).
Proof.
  intros Hk Hin Hout Hx. unfold shapeOnNode, getNodeInputShape.
  rewrite Hin. cbn [getNodeInputShape_loop]. rewrite Hx.
  cbn [app mbind Expected_bind].
  assert (Hrule : nodeRule (hasEndOffset_ e) node [m] = Value [shape m]).
  { unfold nodeRule. destruct Hk as [->|[->| ->]]; exp_simpl; reflexivity. }
  rewrite Hrule. cbn [mbind Expected_bind].
  unfold storeOutputs.
  destruct (decide (kind node = prim_Constant)) as [E|_];
    [rewrite E in Hk; destruct Hk as [|[|]]; discriminate|].
  destruct (decide (kind node = prim_ListConstruct)) as [E|_];
    [rewrite E in Hk; destruct Hk as [|[|]]; discriminate|].
  destruct (decide (kind node = aten_embedding_bag)) as [E|_];
    [rewrite E in Hk; destruct Hk as [|[|]]; discriminate|].
  rewrite Hout. cbn [storeShapes]. exp_simpl. reflexivity.
Qed.

Lemma run_nodes_activation_chain (nodes : list Node) (x y : JitValue)
    (e : Engine) (m : VariableMeta) :
  activation_chain x nodes y -> shapeMap_ e !! x = Some m ->
  exists (e' : Engine) (m' : VariableMeta),
    run_nodes nodes e = (Value tt, e') /\
    shapeMap_ e' !! y = Some m' /\ shape m' = shape m.
Proof.
  intros Hchain. revert e m.
  induction Hchain as [x|x z y node rest Hk Hin Hout _ IH]; intros e m Hx.
  - exists e, m. repeat split. exact Hx.
  - cbn [run_nodes].
    rewrite (shapeOnNode_activation node e x z m Hk Hin Hout Hx).
    destruct (IH (with_shapeMap e (set_shape (shapeMap_ e) z (shape m)))
                (mkMeta (shape m)
                   (intValue (default emptyMeta (shapeMap_ e !! z)))))
      as (e' & m' & Hrun & Hy & Hs).
    { cbn [shapeMap_ with_shapeMap]. rewrite lookup_set_shape.
      destruct (decide (z = z)); [reflexivity|done]. }
    exists e', m'. repeat split; assumption.
Qed.

(** X25.  A chain of activations keeps the shape: on a graph with one input,
    given a tensor, whose nodes are tanh, relu and sigmoid nodes, each
    applied to the output of the one before, and whose output is the output
    of the last node, a run of a new engine succeeds and returns the sizes
    of the tensor. *)
Theorem activation_chain_keeps_shape (graph : Graph) (sizes : list Z)
    (flag : bool) (x y : JitValue) :
  g_inputs graph = [x] -> g_outputs graph = [y] ->
  activation_chain x (g_nodes graph) y ->
  let e := ShapeInferenceEngine graph [IVTensor sizes] flag in
  fst (run e) = Value tt /\ getGraphOutputShape (snd (run e)) = [sizes].
Proof.
  intros Hin Hout Hchain e.
  assert (H : exists e', run e = (Value tt, e') /\ outputShape_ e' = [sizes]).
  { unfold run, getGraphIntputShape.
    cbn [inputs_ graph_ shapeMap_ e ShapeInferenceEngine]. rewrite Hin.
    change (size [IVTensor sizes] =? size [x]) with true.
    cbn [negb getGraphIntputShape_loop]. rewrite vec_at_0.
    set (e1 := with_shapeMap e _).
    assert (Hg1 : graph_ e1 = graph) by reflexivity.
    assert (Ho1 : outputShape_ e1 = []) by reflexivity.
    rewrite Hg1.
    destruct (run_nodes_activation_chain (g_nodes graph) x y e1
                (mkMeta sizes []) Hchain) as (e2 & m' & Hrun & Hy & Hs).
    { unfold e1. cbn [shapeMap_ with_shapeMap]. apply bind_tensor_lookup. }
    rewrite Hrun.
    pose proof (run_nodes_frame (g_nodes graph) e1) as (Ho2 & Hg2 & _).
    rewrite Hrun in Ho2, Hg2. cbn [snd] in Ho2, Hg2.
    unfold generateGraphOutputShape. rewrite Hg2, Ho2, Hg1, Ho1, Hout.
    cbn [generateGraphOutputShape_loop]. rewrite Hy. cbn [app].
    eexists. split; [reflexivity|]. cbn [outputShape_]. rewrite Hs.
    reflexivity. }
  destruct H as (e' & -> & Ho). split; [reflexivity|exact Ho].
Qed.

Lemma activation_chain_keeps_shape_witness :
  let graph :=
    mkGraph [0%nat] [2%nat]
      [mkNode aten_relu [0%nat] [1%nat] TensorType 0 0 0 [];
       mkNode aten_tanh [1%nat] [2%nat] TensorType 0 0 0 []] in
  let e := ShapeInferenceEngine graph [IVTensor [2; 3]] false in
  fst (run e) = Value tt /\ getGraphOutputShape (snd (run e)) = [[2; 3]].
Proof.
  intros graph.
  refine (activation_chain_keeps_shape graph [2; 3] false 0%nat 2%nat
            _ _ _).
  - reflexivity.
  - reflexivity.
  - eapply chain_cons; [right; left; reflexivity|reflexivity|reflexivity|].
    eapply chain_cons; [left; reflexivity|reflexivity|reflexivity|].
    apply chain_nil.
Defined.

(** ** run: the mode flag *)

Lemma shapeOnNode_with_flag (node : Node) (e : Engine) (b : bool) :
  ~ reads_flag (kind node) ->
  shapeOnNode node (with_flag e b)
  = (fst (shapeOnNode node e), with_flag (snd (shapeOnNode node e)) b).
Proof.
  intros Hk. unfold shapeOnNode. cbn [shapeMap_ hasEndOffset_ with_flag].
  assert (Hrule : forall metas,
    nodeRule b node metas = nodeRule (hasEndOffset_ e) node metas).
  { intros metas. unfold nodeRule.
    destruct (kind node); try reflexivity; exfalso; apply Hk;
      [right|left]; reflexivity. }
  destruct (getNodeInputShape node (shapeMap_ e)) as [metas|msg args|f];
    cbn [mbind Expected_bind]; try reflexivity.
  rewrite Hrule.
  destruct (nodeRule (hasEndOffset_ e) node metas) as [outs|msg args|f];
    cbn [mbind Expected_bind]; try reflexivity.
  destruct (storeOutputs node outs (shapeMap_ e)); reflexivity.
Qed.

Lemma run_nodes_with_flag (nodes : list Node) (e : Engine) (b : bool) :
  Forall (fun node => ~ reads_flag (kind node)) nodes ->
  run_nodes nodes (with_flag e b)
  = (fst (run_nodes nodes e), with_flag (snd (run_nodes nodes e)) b).
Proof.
  intros H. revert e. induction H as [|node nodes Hk _ IH]; intros e;
    [reflexivity|].
  cbn [run_nodes]. rewrite (shapeOnNode_with_flag node e b Hk).
  destruct (shapeOnNode node e) as [[u|msg args|f] e1]; cbn [fst snd];
    [apply IH|reflexivity|reflexivity].
Qed.

Lemma run_with_flag (e : Engine) (b : bool) :
  Forall (fun node => ~ reads_flag (kind node)) (g_nodes (graph_ e)) ->
  run (with_flag e b) = (fst (run e), with_flag (snd (run e)) b).
Proof.
  intros H. unfold run. cbn [inputs_ graph_ with_flag].
  destruct (negb _); [reflexivity|].
  pose proof (getGraphIntputShape_frame e) as [_ Hg1].
  unfold getGraphIntputShape in *. cbn [inputs_ graph_ shapeMap_ with_flag].
  destruct (getGraphIntputShape_loop _ _ _ _) as [[u|msg args|f] sm1];
    cbn [fst snd] in *; try reflexivity.
  change (with_shapeMap (with_flag e b) sm1)
    with (with_flag (with_shapeMap e sm1) b).
  cbn [graph_ with_flag]. rewrite Hg1 in *.
  rewrite (run_nodes_with_flag _ (with_shapeMap e sm1) b H).
  destruct (run_nodes (g_nodes (graph_ e)) (with_shapeMap e sm1))
    as [[u2|msg args|f] e2]; cbn [fst snd]; try reflexivity.
  unfold generateGraphOutputShape.
  cbn [graph_ shapeMap_ outputShape_ with_flag].
  destruct (generateGraphOutputShape_loop _ _ _); reflexivity.
Qed.

(** X26.  The mode flag for the trailing entry of the offsets matters to the
    embedding operators only: on a graph without embedding_bag and
    embedding_bag_byte_rowwise_offsets nodes, a run with the flag set and a
    run with the flag clear end alike, with the same map and the same output
    shapes. *)
Theorem run_ignores_flag_without_embedding (graph : Graph)
    (inputs : list IValue) :
  Forall (fun node => ~ reads_flag (kind node)) (g_nodes graph) ->
  let on := run (ShapeInferenceEngine graph inputs true) in
  let off := run (ShapeInferenceEngine graph inputs false) in
  fst on = fst off /\
  shapeMap_ (snd on) = shapeMap_ (snd off) /\
  getGraphOutputShape (snd on) = getGraphOutputShape (snd off).
Proof.
  intros H on off. unfold on, off.
  change (ShapeInferenceEngine graph inputs true)
    with (with_flag (ShapeInferenceEngine graph inputs false) true).
  rewrite run_with_flag by exact H. cbn [fst snd].
  repeat split; reflexivity.
Qed.

Lemma run_ignores_flag_without_embedding_witness :
  let graph :=
    mkGraph [0%nat; 1%nat] [2%nat]
      [mkNode aten_mm [0%nat; 1%nat] [2%nat] TensorType 0 0 0 []] in
  let on :=
    run (ShapeInferenceEngine graph [IVTensor [2; 3]; IVTensor [3; 4]] true) in
  let off :=
    run (ShapeInferenceEngine graph [IVTensor [2; 3]; IVTensor [3; 4]] false)
  in
  fst on = fst off /\
  shapeMap_ (snd on) = shapeMap_ (snd off) /\
  getGraphOutputShape (snd on) = getGraphOutputShape (snd off).
Proof.
  intros graph.
  refine (run_ignores_flag_without_embedding graph
            [IVTensor [2; 3]; IVTensor [3; 4]] _).
  repeat constructor. intros [H|H]; discriminate.
Defined.
